(** * exiftool-vendored: the worker protocol and the task decoders

    A shallow embedding of [src/exiftool_process.ts], [src/WriteTask.ts] and
    [src/ReadTask.ts], and the properties of their framing, settlement and
    decoding behaviour.

    JavaScript strings are modelled as [string], one [ascii] per UTF-16 code
    unit; the model covers the code units below 256. *)

From Stdlib Require Import Ascii String.
From stdpp Require Import base option list strings pretty gmap.

Local Open Scope string_scope.
Local Open Scope list_scope.
Local Open Scope nat_scope.
Set Warnings "-register-all".

(** ** The JavaScript runtime: strings, values, exceptions *)

Module Js.

(** *** String primitives *)

(** [WhiteSpace] and [LineTerminator] code units below 256, as stripped by
    [String.prototype.trim]: TAB, LF, VT, FF, CR, SP and NBSP. *)
Definition is_js_space (c : ascii) : bool :=
  let n := nat_of_ascii c in
  (((9 <=? n) && (n <=? 13)) || (n =? 32) || (n =? 160))%nat.

Fixpoint trimStart (s : string) : string :=
  match s with
  | EmptyString => EmptyString
  | String c s' => if is_js_space c then trimStart s' else s
  end.

(** [trimEnd] by structural recursion: a suffix made of white space only is
    dropped. *)
Fixpoint trimEnd (s : string) : string :=
  match s with
  | EmptyString => EmptyString
  | String c s' =>
      match trimEnd s' with
      | EmptyString => if is_js_space c then EmptyString else String c EmptyString
      | t => String c t
      end
  end.

Definition trim (s : string) : string := trimEnd (trimStart s).

Fixpoint take (n : nat) (s : string) : string :=
  match n, s with
  | S n', String c s' => String c (take n' s')
  | _, _ => EmptyString
  end.

Fixpoint drop (n : nat) (s : string) : string :=
  match n, s with
  | S n', String _ s' => drop n' s'
  | _, _ => s
  end.

Fixpoint startsWith (s p : string) : bool :=
  match p, s with
  | EmptyString, _ => true
  | String a p', String b s' => if Ascii.eqb a b then startsWith s' p' else false
  | String _ _, EmptyString => false
  end.

(** [s.endsWith(p)]: the last [p.length] code units of [s] are [p]. *)
Definition endsWith (s p : string) : bool :=
  (String.length p <=? String.length s)%nat
  && String.eqb (drop (String.length s - String.length p) s) p.

(** [s.slice(0, -k)] for [k > 0]. *)
Definition slice_to_neg (s : string) (k : nat) : string :=
  take (String.length s - k) s.

(** [s.includes(p)]. *)
Fixpoint includes (s p : string) : bool :=
  startsWith s p ||
  match s with
  | EmptyString => false
  | String _ s' => includes s' p
  end.

(** [s.split(sep)] for a separator of one code unit. *)
Fixpoint split (sep : ascii) (s : string) : list string :=
  match s with
  | EmptyString => [EmptyString]
  | String c s' =>
      if Ascii.eqb c sep then EmptyString :: split sep s'
      else match split sep s' with
           | [] => [String c EmptyString]
           | w :: ws => String c w :: ws
           end
  end.

(** [xs.join(sep)]. *)
Fixpoint join (sep : string) (xs : list string) : string :=
  match xs with
  | [] => EmptyString
  | [x] => x
  | x :: xs' => x +:+ sep +:+ join sep xs'
  end.

(** *** Values *)

(** A JavaScript value built from JSON data. A number keeps its lexeme: no
    statement below depends on numeric value. An array also carries the named
    properties assigned to it (an array is an object). Objects list their own
    properties, one binding per key, in the order of insertion; the place an
    enumeration gives to integer-like keys is not modelled: no statement
    below depends on the order of an enumeration. [JSON.parse] defines the
    key [__proto__] as an own property like any other. An assignment
    [o["__proto__"] = v] defines none: it runs the setter of
    [Object.prototype] and replaces the prototype of [o]; [JInherit] is an
    ordinary object with own properties [props] whose prototype has been
    replaced by [proto], an object or [null]. *)
Inductive JsValue : Type :=
| JUndefined
| JNull
| JBool (b : bool)
| JNum (lexeme : string)
| JStr (s : string)
| JArr (elems : list JsValue) (props : list (string * JsValue))
| JObj (props : list (string * JsValue))
| JInherit (proto : JsValue) (props : list (string * JsValue)).

Definition typeof (v : JsValue) : string :=
  match v with
  | JUndefined => "undefined"
  | JNull => "object"
  | JBool _ => "boolean"
  | JNum _ => "number"
  | JStr _ => "string"
  | JArr _ _ => "object"
  | JObj _ => "object"
  | JInherit _ _ => "object"
  end.

(** [v == null]. *)
Definition is_nullish (v : JsValue) : bool :=
  match v with
  | JUndefined | JNull => true
  | _ => false
  end.

Section Props.
Context {V : Type}.

(** [o[k]] on own properties. *)
Fixpoint prop_get (k : string) (ps : list (string * V)) : option V :=
  match ps with
  | [] => None
  | (k', v) :: ps' => if String.eqb k k' then Some v else prop_get k ps'
  end.

(** [o[k] = v]: an existing binding is overwritten in place, a new one is
    appended. *)
Fixpoint prop_set (k : string) (v : V) (ps : list (string * V))
  : list (string * V) :=
  match ps with
  | [] => [(k, v)]
  | (k', v') :: ps' =>
      if String.eqb k k' then (k, v) :: ps' else (k', v') :: prop_set k v ps'
  end.
End Props.

(** *** Exceptions *)

Inductive JsError : Type :=
| SyntaxError
| TypeError
| Error (message : string).

Inductive Completion (A : Type) : Type :=
| Return (a : A)
| Throw (e : JsError).
Arguments Return {A} a.
Arguments Throw {A} e.

Definition bind {A B} (c : Completion A) (k : A -> Completion B)
  : Completion B :=
  match c with
  | Return a => k a
  | Throw e => Throw e
  end.

(** [String(e)] of an exception; the message the engine gives its own
    [SyntaxError] and [TypeError] is not modelled. *)
Definition error_toString (e : JsError) : string :=
  match e with
  | SyntaxError => "SyntaxError"
  | TypeError => "TypeError"
  | Error message => "Error: " +:+ message
  end.

(** [o[k]] for a name [k] that is neither an array index nor [__proto__],
    on a value that is neither [null] nor [undefined]: an own property, or
    else the property of the prototype that was given to [o]. The properties
    of [Object.prototype] and [Array.prototype] are not modelled. *)
Fixpoint get (o : JsValue) (k : string) : JsValue :=
  match o with
  | JObj ps | JArr _ ps => default JUndefined (prop_get k ps)
  | JInherit proto ps =>
      match prop_get k ps with
      | Some v => v
      | None => get proto k
      end
  | _ => JUndefined
  end.

(** An ordinary object that no array is. *)
Definition ordinary (o : JsValue) : bool :=
  match o with
  | JObj _ | JInherit _ _ => true
  | _ => false
  end.

(** The own properties of an ordinary object. *)
Definition own (o : JsValue) : list (string * JsValue) :=
  match o with
  | JObj ps | JInherit _ ps => ps
  | _ => []
  end.

Definition has_own (k : string) (ps : list (string * JsValue)) : bool :=
  match prop_get k ps with
  | Some _ => true
  | None => false
  end.

(** The search for the property [__proto__], from [o] up its chain of
    prototypes, ends at the accessor of [Object.prototype]: no object on the
    way has an own property of that name, and the chain does not end in
    [null]. *)
Fixpoint finds_accessor (o : JsValue) : bool :=
  match o with
  | JArr _ ps | JObj ps => negb (has_own "__proto__" ps)
  | JInherit proto ps => negb (has_own "__proto__" ps) && finds_accessor proto
  | _ => false
  end.

(** [o[k] = v] for a name [k] that is not an array index, on an ordinary
    object [o] that no array is, whose prototypes hold data properties only
    but for the accessor [__proto__] of [Object.prototype]. An own property
    is written or defined, except under the name [__proto__] when the
    accessor is what the name finds: its setter replaces the prototype of
    [o] by [v] when [v] is an object or [null], and does nothing
    otherwise. *)
Definition assign (o : JsValue) (k : string) (v : JsValue) : JsValue :=
  if String.eqb k "__proto__" && finds_accessor o then
    match v with
    | JArr _ _ | JObj _ | JInherit _ _ | JNull =>
        if ordinary o then JInherit v (own o) else o
    | _ => o
    end
  else
    match o with
    | JObj ps => JObj (prop_set k v ps)
    | JInherit proto ps => JInherit proto (prop_set k v ps)
    | _ => o
    end.

(** [String(v)]. The conversion of an object goes through the [toString] it
    inherits; that of an object whose prototype was replaced is not
    modelled, and is applied to none: [#parseTags] builds such an object as
    [#rawDegrouped] and converts values of the reply only. *)
Fixpoint to_String (v : JsValue) : string :=
  match v with
  | JUndefined => "undefined"
  | JNull => "null"
  | JBool true => "true"
  | JBool false => "false"
  | JNum lexeme => lexeme
  | JStr s => s
  | JArr elems _ =>
      (fix go (es : list JsValue) : string :=
         match es with
         | [] => EmptyString
         | e :: es' =>
             (if is_nullish e then EmptyString else to_String e) +:+
             match es' with
             | [] => EmptyString
             | _ :: _ => "," +:+ go es'
             end
         end) elems
  | JObj _ => "[object Object]"
  | JInherit _ _ => "[object Object]"
  end.

(** The flag [i] of a regular expression whose pattern is made of ASCII
    letters: a code unit matches a letter of the pattern when it is that
    letter in either case. No code unit from 128 on is canonicalised to an
    ASCII letter. [fold_case] brings the subject to the case of a lower-case
    pattern. *)
Definition lower (c : ascii) : ascii :=
  let n := nat_of_ascii c in
  if (65 <=? n) && (n <=? 90) then ascii_of_nat (n + 32) else c.

Fixpoint fold_case (s : string) : string :=
  match s with
  | EmptyString => EmptyString
  | String c s' => String (lower c) (fold_case s')
  end.

(** *** [JSON.parse]

    A model of the runtime's [JSON.parse] on the grammar of RFC 8259. A number
    is kept as its lexeme. An escape [\uXXXX] is reduced to the code unit
    below 256 that [ascii] can hold. A repeated key keeps its last value. *)

Definition is_json_ws (c : ascii) : bool :=
  let n := nat_of_ascii c in
  ((n =? 32) || (n =? 9) || (n =? 10) || (n =? 13))%nat.

Fixpoint skip_ws (s : string) : string :=
  match s with
  | String c s' => if is_json_ws c then skip_ws s' else s
  | EmptyString => EmptyString
  end.

Definition is_digit (c : ascii) : bool :=
  let n := nat_of_ascii c in ((48 <=? n) && (n <=? 57))%nat.

Definition hex_digit (c : ascii) : option nat :=
  let n := nat_of_ascii c in
  if ((48 <=? n) && (n <=? 57))%nat then Some (n - 48)
  else if ((65 <=? n) && (n <=? 70))%nat then Some (n - 55)
  else if ((97 <=? n) && (n <=? 102))%nat then Some (n - 87)
  else None.

(** The longest run of digits at the head of [s], and what follows it. *)
Fixpoint digits (s : string) : string * string :=
  match s with
  | String c s' =>
      if is_digit c then let '(d, r) := digits s' in (String c d, r)
      else (EmptyString, s)
  | EmptyString => (EmptyString, EmptyString)
  end.

(** [int frac? exp?] after the optional minus sign. *)
Definition parse_number (s : string) : option (string * string) :=
  let '(sign, s0) :=
    match s with
    | String "-" r => ("-", r)
    | _ => (EmptyString, s)
    end in
  let '(int, s1) := digits s0 in
  let int_ok :=
    match int with
    | EmptyString => false
    | String "0" (String _ _) => false
    | _ => true
    end in
  if negb int_ok then None else
  let frac :=
    match s1 with
    | String "." r =>
        let '(f, r') := digits r in
        match f with
        | EmptyString => None
        | _ => Some ("." +:+ f, r')
        end
    | _ => Some (EmptyString, s1)
    end in
  match frac with
  | None => None
  | Some (f, s2) =>
      match s2 with
      | String e r =>
          if (Ascii.eqb e "e" || Ascii.eqb e "E")%char then
            let '(sg, r1) :=
              match r with
              | String "+" r' => ("+", r')
              | String "-" r' => ("-", r')
              | _ => (EmptyString, r)
              end in
            let '(x, r2) := digits r1 in
            match x with
            | EmptyString => None
            | _ => Some (sign +:+ int +:+ f +:+ String e sg +:+ x, r2)
            end
          else Some (sign +:+ int +:+ f, s2)
      | EmptyString => Some (sign +:+ int +:+ f, s2)
      end
  end.

Definition dquote : ascii := "034"%char.
Definition backslash : ascii := "092"%char.

(** The one-letter escapes of a string literal. *)
Definition simple_escape (e : ascii) : option ascii :=
  if Ascii.eqb e dquote then Some dquote
  else if Ascii.eqb e backslash then Some backslash
  else if Ascii.eqb e "/" then Some "/"%char
  else if Ascii.eqb e "b" then Some "008"%char
  else if Ascii.eqb e "f" then Some "012"%char
  else if Ascii.eqb e "n" then Some "010"%char
  else if Ascii.eqb e "r" then Some "013"%char
  else if Ascii.eqb e "t" then Some "009"%char
  else None.

Definition hex4 (a b c d : ascii) : option nat :=
  match hex_digit a, hex_digit b, hex_digit c, hex_digit d with
  | Some x, Some y, Some z, Some w => Some (((x * 16 + y) * 16 + z) * 16 + w)
  | _, _, _, _ => None
  end.

Definition cons_char (c : ascii) (r : option (string * string))
  : option (string * string) :=
  match r with
  | Some (t, rest) => Some (String c t, rest)
  | None => None
  end.

(** The characters of a string literal after its opening quote, up to and
    including the closing quote. *)
Fixpoint parse_chars (s : string) : option (string * string) :=
  match s with
  | EmptyString => None
  | String c s' =>
      if Ascii.eqb c dquote then Some (EmptyString, s')
      else if Ascii.eqb c backslash then
        match s' with
        | String e s'' =>
            match simple_escape e with
            | Some d => cons_char d (parse_chars s'')
            | None =>
                if Ascii.eqb e "u" then
                  match s'' with
                  | String h1 (String h2 (String h3 (String h4 rest))) =>
                      match hex4 h1 h2 h3 h4 with
                      | Some n =>
                          cons_char (ascii_of_nat (n mod 256)) (parse_chars rest)
                      | None => None
                      end
                  | _ => None
                  end
                else None
            end
        | EmptyString => None
        end
      else if (nat_of_ascii c <? 32)%nat then None
      else cons_char c (parse_chars s')
  end.

Section JsonValue.
(** The parser of one value, at a smaller depth. *)
Variable pv : string -> option (JsValue * string).

(** The elements of an array after its opening bracket; [s] starts at an
    element. *)
Fixpoint parse_elements (fuel : nat) (s : string) (acc : list JsValue)
  : option (list JsValue * string) :=
  match fuel with
  | O => None
  | S fuel' =>
      match pv s with
      | None => None
      | Some (v, r) =>
          match skip_ws r with
          | String "," r' => parse_elements fuel' r' (acc ++ [v])
          | String "]" r' => Some (acc ++ [v], r')
          | _ => None
          end
      end
  end.

(** The members of an object after its opening brace; [s] starts at a
    key. *)
Fixpoint parse_members (fuel : nat) (s : string)
    (acc : list (string * JsValue))
  : option (list (string * JsValue) * string) :=
  match fuel with
  | O => None
  | S fuel' =>
      match skip_ws s with
      | String q r =>
          if negb (Ascii.eqb q dquote) then None else
          match parse_chars r with
          | None => None
          | Some (k, r1) =>
              match skip_ws r1 with
              | String ":" r2 =>
                  match pv r2 with
                  | None => None
                  | Some (v, r3) =>
                      match skip_ws r3 with
                      | String "," r' =>
                          parse_members fuel' r' (prop_set k v acc)
                      | String "}" r' => Some (prop_set k v acc, r')
                      | _ => None
                      end
                  end
              | _ => None
              end
          end
      | EmptyString => None
      end
  end.
End JsonValue.

Fixpoint parse_value (fuel : nat) (s : string) : option (JsValue * string) :=
  match fuel with
  | O => None
  | S fuel' =>
      match skip_ws s with
      | EmptyString => None
      | String c r as s0 =>
          if Ascii.eqb c "[" then
            match skip_ws r with
            | String "]" r' => Some (JArr [] [], r')
            | _ =>
                match parse_elements (parse_value fuel') fuel' r [] with
                | Some (vs, r') => Some (JArr vs [], r')
                | None => None
                end
            end
          else if Ascii.eqb c "{" then
            match skip_ws r with
            | String "}" r' => Some (JObj [], r')
            | _ =>
                match parse_members (parse_value fuel') fuel' r [] with
                | Some (ps, r') => Some (JObj ps, r')
                | None => None
                end
            end
          else if Ascii.eqb c dquote then
            match parse_chars r with
            | Some (t, r') => Some (JStr t, r')
            | None => None
            end
          else if startsWith s0 "null" then Some (JNull, drop 4 s0)
          else if startsWith s0 "true" then Some (JBool true, drop 4 s0)
          else if startsWith s0 "false" then Some (JBool false, drop 5 s0)
          else
            match parse_number s0 with
            | Some (lexeme, r') => Some (JNum lexeme, r')
            | None => None
            end
      end
  end.

(** [JSON.parse(text)]: one value, white space around it, nothing else. Every
    nesting level and every element consumes a code unit, so a fuel of the
    text's length plus one is never exhausted. *)
Definition JSON_parse (text : string) : Completion JsValue :=
  match parse_value (S (String.length text)) text with
  | Some (v, r) =>
      match skip_ws r with
      | EmptyString => Return v
      | String _ _ => Throw SyntaxError
      end
  | None => Throw SyntaxError
  end.

(** A value as [JSON.parse] builds it: an object binds a key once, an array
    has no named property. *)
Definition plain (v : JsValue) : Prop :=
  match v with
  | JObj ps => NoDup (map fst ps)
  | JArr _ ps => ps = []
  | JInherit _ _ => False
  | _ => True
  end.

(** The values right below [v] are plain. *)
Definition plain_inside (v : JsValue) : Prop :=
  match v with
  | JObj ps => Forall (fun kv => plain kv.2) ps
  | JArr es _ => Forall plain es
  | _ => True
  end.

(** *** [JSON.stringify] *)

Definition hex_char (n : nat) : ascii :=
  ascii_of_nat (if n <? 10 then 48 + n else 87 + n).

Definition quote_char (c : ascii) : string :=
  let n := nat_of_ascii c in
  let esc (d : ascii) := String backslash (String d EmptyString) in
  if Ascii.eqb c dquote then esc dquote
  else if Ascii.eqb c backslash then esc backslash
  else if n =? 8 then esc "b"%char
  else if n =? 9 then esc "t"%char
  else if n =? 10 then esc "n"%char
  else if n =? 12 then esc "f"%char
  else if n =? 13 then esc "r"%char
  else if n <? 32 then
    String backslash
      ("u00" +:+ String (hex_char (n / 16))
                   (String (hex_char (n mod 16)) EmptyString))
  else String c EmptyString.

Fixpoint quote_chars (s : string) : string :=
  match s with
  | EmptyString => EmptyString
  | String c s' => quote_char c +:+ quote_chars s'
  end.

Definition quote (s : string) : string :=
  String dquote (quote_chars s +:+ String dquote EmptyString).

(** [JSON.stringify(v)]; [None] stands for [undefined]. An object is
    written by its own properties, whatever its prototype. *)
Fixpoint JSON_stringify (v : JsValue) : option string :=
  match v with
  | JUndefined => None
  | JNull => Some "null"
  | JBool true => Some "true"
  | JBool false => Some "false"
  | JNum lexeme => Some lexeme
  | JStr s => Some (quote s)
  | JArr elems _ =>
      Some ("[" +:+
            join ","
              ((fix go (es : list JsValue) : list string :=
                  match es with
                  | [] => []
                  | e :: es' => default "null" (JSON_stringify e) :: go es'
                  end) elems)
            +:+ "]")
  | JObj props | JInherit _ props =>
      Some ("{" +:+
            join ","
              ((fix go (ps : list (string * JsValue)) : list string :=
                  match ps with
                  | [] => []
                  | (k, x) :: ps' =>
                      match JSON_stringify x with
                      | Some t => (quote k +:+ ":" +:+ t) :: go ps'
                      | None => go ps'
                      end
                  end) props)
            +:+ "}")
  end.

(** *** [path.resolve]

    A model of Node's [path.resolve] with one argument on POSIX, for a process
    whose working directory is the absolute path [cwd]: a relative path is
    taken from [cwd], then empty and [.] segments are dropped and [..] removes
    the segment before it. *)

Definition push_segment (stack : list string) (seg : string) : list string :=
  if String.eqb seg EmptyString then stack
  else if String.eqb seg "." then stack
  else if String.eqb seg ".." then removelast stack
  else stack ++ [seg].

Definition normalize_segments (segs : list string) : list string :=
  fold_left push_segment segs [].

Definition posix_resolve (cwd p : string) : string :=
  let full :=
    if String.eqb p EmptyString then cwd
    else if startsWith p "/" then p
    else cwd +:+ "/" +:+ p in
  "/" +:+ join "/" (normalize_segments (split "/" full)).

End Js.

Notation "'let*' x ':=' c 'in' k" := (Js.bind c (fun x => k))
  (at level 10, x pattern, c at level 100, k at level 200, only parsing).

(** ** [src/exiftool_process.ts]: the worker process supervisor *)

Module Process.
Import Js.

Definition OutputReader : Type := string -> Completion JsValue.

Definition StringReader : OutputReader :=
  fun input => Return (JStr (trim input)).

Definition MetadataReader : OutputReader :=
  fun input => JSON_parse input.

(** The state of a [Promise]. Its [resolve] and [reject] functions act on a
    pending promise only. *)
Inductive PromiseState : Type :=
| Pending
| Fulfilled (value : JsValue)
| Rejected (reason : JsValue).

(** A [DeferredReader]; [promise] is the handle of its promise in the store
    of the process. *)
Record DeferredReader : Type := mkDeferredReader {
  reader : OutputReader;
  warnings : list string;
  promise : nat
}.

Inductive ConsoleLine : Type :=
| console_log (line : string)
| console_error (line : string)
| console_dir (lines : list string).

(** An [ExifToolProcess] with what it owns: the promises it created, what it
    wrote to the worker's input and what it wrote to the console. *)
Record ExifToolProcess : Type := mkExifToolProcess {
  _ended : bool;
  buff : string;
  readers : list DeferredReader;
  promises : list PromiseState;
  stdin : list string;
  stdin_closed : bool;
  console : list ConsoleLine
}.

Definition ready : string := "{ready}".

Definition set_buff (b : string) (st : ExifToolProcess) : ExifToolProcess :=
  mkExifToolProcess (_ended st) b (readers st) (promises st) (stdin st)
    (stdin_closed st) (console st).

Definition set_readers (rs : list DeferredReader) (st : ExifToolProcess)
  : ExifToolProcess :=
  mkExifToolProcess (_ended st) (buff st) rs (promises st) (stdin st)
    (stdin_closed st) (console st).

Definition set_promises (ps : list PromiseState) (st : ExifToolProcess)
  : ExifToolProcess :=
  mkExifToolProcess (_ended st) (buff st) (readers st) ps (stdin st)
    (stdin_closed st) (console st).

Definition set_ended (b : bool) (st : ExifToolProcess) : ExifToolProcess :=
  mkExifToolProcess b (buff st) (readers st) (promises st) (stdin st)
    (stdin_closed st) (console st).

Definition write_stdin (text : string) (st : ExifToolProcess)
  : ExifToolProcess :=
  mkExifToolProcess (_ended st) (buff st) (readers st) (promises st)
    (stdin st ++ [text]) (stdin_closed st) (console st).

Definition end_stdin (st : ExifToolProcess) : ExifToolProcess :=
  mkExifToolProcess (_ended st) (buff st) (readers st) (promises st)
    (stdin st) true (console st).

Definition print (l : ConsoleLine) (st : ExifToolProcess) : ExifToolProcess :=
  mkExifToolProcess (_ended st) (buff st) (readers st) (promises st)
    (stdin st) (stdin_closed st) (console st ++ [l]).

(** [resolve] or [reject] of the promise [i]: a settled promise stays as it
    is. *)
Definition settle (i : nat) (o : PromiseState) (ps : list PromiseState)
  : list PromiseState :=
  match ps !! i with
  | Some Pending => <[i := o]> ps
  | _ => ps
  end.

(** [DeferredReader.reject]. *)
Definition reject (dr : DeferredReader) (reason : JsValue)
    (st : ExifToolProcess) : ExifToolProcess :=
  set_promises (settle (promise dr) (Rejected reason) (promises st)) st.

(** [DeferredReader.addWarning]. *)
Definition addWarning (warning : string) (dr : DeferredReader)
  : DeferredReader :=
  mkDeferredReader (reader dr) (warnings dr ++ [warning]) (promise dr).

(** [o[k] = x] in strict mode, for a name [k] that is neither an array
    index, nor [length], nor [__proto__]: [null], [undefined] and the
    primitives refuse it. *)
Definition set_property (o : JsValue) (k : string) (x : JsValue)
  : Completion JsValue :=
  match o with
  | JObj ps => Return (JObj (prop_set k x ps))
  | JArr es ps => Return (JArr es (prop_set k x ps))
  | JInherit proto ps => Return (JInherit proto (prop_set k x ps))
  | _ => Throw TypeError
  end.

(** [DeferredReader.apply]. An exception leaves the method before
    [this._resolve]. *)
Definition apply (dr : DeferredReader) (input : string) (st : ExifToolProcess)
  : ExifToolProcess * Completion unit :=
  match reader dr input with
  | Throw e => (st, Throw e)
  | Return result =>
      let resolve (v : JsValue) (st' : ExifToolProcess) :=
        set_promises (settle (promise dr) (Fulfilled v) (promises st')) st' in
      if 0 <? length (warnings dr) then
        if String.eqb (typeof result) "object" then
          match set_property result "warnings"
                  (JArr (map JStr (warnings dr)) []) with
          | Return result' => (resolve result' st, Return tt)
          | Throw e => (st, Throw e)
          end
        else (resolve result (print (console_dir (warnings dr)) st), Return tt)
      else (resolve result st, Return tt)
  end.

(** The handler of the worker's [close] event; [code] is the exit code as the
    template literal renders it. *)
Definition onClose (code : string) (st : ExifToolProcess) : ExifToolProcess :=
  let st1 := print (console_log ("ExifTool exited with code " +:+ code)) st in
  let st2 :=
    fold_left (fun s r => reject r (JStr "ExifTool closed") s) (readers st1) st1 in
  set_ended true st2.

(** [ExifToolProcess.end]. *)
Definition end_ (st : ExifToolProcess) : ExifToolProcess :=
  end_stdin (write_stdin (String "010" ("-stay_open" +:+ String "010"
    ("False" +:+ String "010" ""))) st).

(** [ExifToolProcess.ended]. *)
Definition ended (st : ExifToolProcess) : bool := _ended st.

(** [ExifToolProcess.execute]: the new reader's promise is returned. *)
Definition execute (r : OutputReader) (cmds : list string)
    (st : ExifToolProcess) : ExifToolProcess * nat :=
  let p := length (promises st) in
  let deferredReader := mkDeferredReader r [] p in
  let st1 := set_promises (promises st ++ [Pending]) st in
  let st2 := set_readers (readers st1 ++ [deferredReader]) st1 in
  (write_stdin (join (String "010" "") (cmds ++ ["-execute"; ""])) st2, p).

(** [ExifToolProcess.onError]. *)
Definition onError (error : string) (st : ExifToolProcess) : ExifToolProcess :=
  match readers st with
  | [] =>
      print (console_error
               ("Error from ExifTool without any readers: " +:+ error)) st
  | r :: rs => set_readers (addWarning error r :: rs) st
  end.

(** [ExifToolProcess.onData]. *)
Definition onData (data : string) (st : ExifToolProcess)
  : ExifToolProcess * Completion unit :=
  let st1 := set_buff (trim (buff st +:+ data)) st in
  let done := endsWith (buff st1) ready in
  if done then
    let buff0 := slice_to_neg (buff st1) (String.length ready) in
    let st2 := set_buff "" st1 in
    match readers st2 with
    | r :: rs => apply r buff0 (set_readers rs st2)
    | [] => (print (console_error ("No reader for payload " +:+ buff0)) st2,
             Return tt)
    end
  else (st1, Return tt).

(** The constructor, after [spawn] and the registration of the handlers: the
    version is requested. *)
Definition new_ExifToolProcess : ExifToolProcess :=
  (execute StringReader ["-ver"]
     (mkExifToolProcess false "" [] [] [] false [])).1.

Definition versionPromise : nat := 0.

(** [ExifToolProcess.read], in a process whose working directory is [cwd]. *)
Definition read (cwd file : string) (st : ExifToolProcess)
  : ExifToolProcess * nat :=
  let absPathToFile := posix_resolve cwd file in
  execute MetadataReader
    ["-json"; "-coordFormat " +:+ String dquote ("%.8f" +:+ String dquote "");
     "-fast"; absPathToFile] st.

(** What happens to a process: the stream and process events its handlers
    receive, and the calls of its methods. *)
Inductive Event : Type :=
| EvData (data : string)
| EvError (error : string)
| EvClose (code : string)
| EvExecute (r : OutputReader) (cmds : list string)
| EvEnd.

(** One event. An exception thrown by a handler leaves the handler; the state
    it had reached stays. *)
Definition step (st : ExifToolProcess) (ev : Event) : ExifToolProcess :=
  match ev with
  | EvData d => (onData d st).1
  | EvError e => onError e st
  | EvClose c => onClose c st
  | EvExecute r cmds => (execute r cmds st).1
  | EvEnd => end_ st
  end.

Definition run (evs : list Event) (st : ExifToolProcess) : ExifToolProcess :=
  fold_left step evs st.

(** The chunks of the worker's output stream, one [data] event each. *)
Definition feed (chunks : list string) (st : ExifToolProcess)
  : ExifToolProcess :=
  run (map EvData chunks) st.

(** The text accumulated from [chunks] on top of the buffer [b], as [onData]
    accumulates it. *)
Fixpoint accumulate (chunks : list string) (b : string) : string :=
  match chunks with
  | [] => b
  | d :: ds => accumulate ds (trim (b +:+ d))
  end.

(** No chunk of [chunks] brings the accumulated text to end with the
    sentinel. *)
Fixpoint quiet (chunks : list string) (b : string) : bool :=
  match chunks with
  | [] => true
  | d :: ds =>
      negb (endsWith (trim (b +:+ d)) ready) && quiet ds (trim (b +:+ d))
  end.

(** No reader of the queue holds the promise [p]. *)
Definition unreferenced (p : nat) (st : ExifToolProcess) : Prop :=
  forall r, r ∈ readers st -> promise r <> p.

(** A call made on the process object, as opposed to an event of the worker
    or of its streams. *)
Definition is_call (ev : Event) : bool :=
  match ev with
  | EvExecute _ _ | EvEnd => true
  | EvData _ | EvError _ | EvClose _ => false
  end.

Definition nl : string := String "010" "".

(** A session: the version request is answered, then [file] is read. The
    process before the worker's answer, and the promise of the read. *)
Definition call_session (file : string) : ExifToolProcess * nat :=
  let st0 := feed ["12.40" +:+ nl +:+ ready +:+ nl] new_ExifToolProcess in
  read "/home/u" file st0.

(** The same, and the worker writes [diagnostic] on its error stream. *)
Definition read_session (file diagnostic : string) : ExifToolProcess * nat :=
  let call := call_session file in
  (onError diagnostic call.1, call.2).

(** The reply [[{"Make": "Canon EOS"}]] of the worker and its sentinel, cut
    after the space of the value. *)
Definition reply_head : string :=
  "[{" +:+ quote "Make" +:+ ": " +:+ String dquote "Canon ".

Definition reply_tail : string :=
  "EOS" +:+ String dquote ("}]" +:+ nl +:+ ready +:+ nl).

(** The value a call resolves with, once the warnings [ws] of its reader are
    taken into account. *)
Definition with_warnings (result : JsValue) (ws : list string)
  : Completion JsValue :=
  if (0 <? length ws) && String.eqb (typeof result) "object"
  then set_property result "warnings" (JArr (map JStr ws) [])
  else Return result.

End Process.

(** ** [src/WriteTask.ts]: the reply of a write *)

Module Write.
Import Js.

(** The atoms of [successRE]: a code unit, or a code unit followed by [?]. *)
Inductive Atom : Type :=
| Lit (c : ascii)
| Opt (c : ascii).

Fixpoint lits (s : string) : list Atom :=
  match s with
  | EmptyString => []
  | String c s' => Lit c :: lits s'
  end.

(** [/1 image files? updated/]. *)
Definition successRE : list Atom :=
  lits "1 image file" ++ [Opt "s"] ++ lits " updated".

(** The pattern matches a prefix of [s]. *)
Fixpoint match_here (re : list Atom) (s : string) : bool :=
  match re with
  | [] => true
  | Lit c :: re' =>
      match s with
      | String d s' => Ascii.eqb c d && match_here re' s'
      | EmptyString => false
      end
  | Opt c :: re' =>
      match s with
      | String d s' => (Ascii.eqb c d && match_here re' s') || match_here re' s
      | EmptyString => match_here re' s
      end
  end.

(** [re.exec(s) != null] for a pattern without anchors: it matches
    somewhere in [s]. *)
Fixpoint exec (re : list Atom) (s : string) : bool :=
  match_here re s ||
  match s with
  | EmptyString => false
  | String _ s' => exec re s'
  end.

(** What [parse] reads of a [WriteTask]: the errors its base class
    [ExifToolTask] has accumulated. *)
Record WriteTask : Type := mkWriteTask {
  sourceFile : string;
  args : list string;
  errors : list string
}.

(** [WriteTask.parse]. *)
Definition parse (task : WriteTask) (data : string) (err : option JsError)
  : Completion unit :=
  match err with
  | Some e => Throw e
  | None =>
      if 0 <? length (errors task) then Throw (Error (join ";" (errors task)))
      else
        let data := trim data in
        if exec successRE data then Return tt
        else Throw (Error ("No success message: " +:+ data))
  end.

End Write.

(** ** [src/ReadTask.ts]: the reply of a read *)

Module Read.
Import Js.

(** The classes of the modules that [ReadTask.ts] imports. *)
Record Classes : Type := mkClasses {
  BinaryField : Type;
  ExifDateTime : Type;
  ExifTime : Type;
  ExifDate : Type;
  Zone : Type
}.

Section Decode.
Context {C : Classes}.

(** A decoded tag value: a value kept as ExifTool rendered it, an array or a
    structure of decoded values, or an instance of one of the classes. A
    structure lists the own properties of the decoded object; the prototype
    an assignment under the key [__proto__] gives it is not modelled. *)
Inductive Tag : Type :=
| TRaw (v : JsValue)
| TArray (elems : list Tag)
| TStruct (fields : list (string * Tag))
| TBinaryField (b : BinaryField C)
| TExifDateTime (d : ExifDateTime C)
| TExifTime (t : ExifTime C)
| TExifDate (d : ExifDate C).

(** [v != null] fails. *)
Definition tag_nullish (t : Tag) : bool :=
  match t with
  | TRaw v => is_nullish v
  | _ => false
  end.

Definition undefined : Tag := TRaw JUndefined.

Record TzSrc : Type := mkTzSrc {
  tz : string;
  src : string
}.

(** What [parseGPSLocation] returns, as far as [ReadTask.ts] reads it. *)
Record GpsLocation : Type := mkGpsLocation {
  invalid : bool;
  result : list (string * Tag)
}.

(** The options [ReadTask.ts] reads, and [ignoreZeroZeroLatLon], which
    [parseGPSLocation] reads. *)
Record ReadTaskOptions : Type := mkReadTaskOptions {
  backfillTimezones : bool;
  defaultVideosToUTC : bool;
  preferTimezoneInferenceFromGps : bool;
  ignoreZeroZeroLatLon : bool;
  geoTz : Tag -> Tag -> Completion JsValue
}.

(** The functions [ReadTask.ts] imports from modules of the repository that
    are not among its sources here, and [path.resolve]. Each is a parameter
    of the decoder, a function of its arguments; those the decoder calls
    inside a [try] block may throw. [option] stands for [Maybe]. *)
Record Imports : Type := mkImports {
  BinaryField_fromRawValue : string -> Completion (option (BinaryField C));
  toBoolean : string -> Completion (option bool);
  ExifDateTime_from :
    string -> option string -> Completion (option (ExifDateTime C));
  ExifTime_fromEXIF :
    string -> option string -> Completion (option (ExifTime C));
  ExifDate_from : string -> Completion (option (ExifDate C));
  inferredZone : ExifDateTime C -> option bool;
  setZone : ExifDateTime C -> string -> Completion (ExifDateTime C);
  OnlyZerosRE_test : string -> bool;
  parseGPSLocation : JsValue -> ReadTaskOptions -> option GpsLocation;
  normalizeZone : JsValue -> option (Zone C);
  zone_name : Zone C -> string;
  extractTzOffsetFromTags : JsValue -> ReadTaskOptions -> option TzSrc;
  extractTzOffsetFromDatestamps : JsValue -> ReadTaskOptions -> option TzSrc;
  extractTzOffsetFromUTCOffset : JsValue -> option TzSrc;
  extractTzOffsetFromTimeStamp : JsValue -> ReadTaskOptions -> option TzSrc;
  errorsAndWarnings :
    list string -> list string -> gmap string Tag -> list string * list string;
  path_resolve : string -> string
}.

Definition PassthroughTags : list string :=
  ["ExifToolVersion"; "DateStampMode"; "Sharpness"; "Firmware";
   "DateDisplayFormat"].

Definition NullIsh : list string := ["undef"; "null"; "undefined"].

(** [nullish]; [isString] of [./String] is taken as the test
    [typeof s === "string"]. *)
Definition nullish (s : JsValue) : bool :=
  is_nullish s ||
  match s with
  | JStr t => existsb (String.eqb (trim t)) NullIsh
  | _ => false
  end.

(** The names the record holds whatever the reply: the fields the
    constructor and [#parseTags] set. *)
Definition reserved : list string :=
  ["SourceFile"; "errors"; "warnings"; "tz"; "tzSource"].

(** The names [#parseTag] takes for GPS tags. *)
Definition gps_prefixed (tagName : string) : bool :=
  startsWith tagName "GPS" || startsWith tagName "Geolocation".

(** [MaybeDateOrTimeRe.test]. *)
Definition MaybeDateOrTimeRe_test (tagName : string) : bool :=
  existsb (includes (fold_case tagName))
    ["when"; "date"; "time"; "subsec"; "creat"; "modif"].

(** [isUtcTagName]. *)
Definition isUtcTagName (tagName : string) : bool :=
  includes tagName "UTC" || startsWith tagName "GPS".

(** A [ReadTask] when [parse] is called: the fields of the constructor, and
    the errors and warnings its base class [ExifToolTask] holds. *)
Record ReadTask : Type := mkReadTask {
  sourceFile : string;
  args : list string;
  options : ReadTaskOptions;
  errors : list string;
  warnings : list string
}.

Definition degroup (task : ReadTask) : bool :=
  existsb (String.eqb "-G") (args task).

(** [#tagName]. *)
Definition tagName_ (task : ReadTask) (k : string) : string :=
  if degroup task then default k (split ":" k !! 1) else k.

(** [Object.entries]: the indices first, then the named properties; own
    properties only. *)
Definition Object_entries (o : JsValue) : list (string * JsValue) :=
  match o with
  | JObj ps | JInherit _ ps => ps
  | JArr es ps => imap (fun i e => (pretty i, e)) es ++ ps
  | JStr s =>
      imap (fun i c => (pretty i, JStr (String c EmptyString)))
        (list_ascii_of_string s)
  | _ => []
  end.

(** [#rawDegrouped], as [#parseTags] sets it: under [-G], the object [{}]
    after the assignments [this.#rawDegrouped[k] = value] of the loop. An
    entry whose name is [__proto__] gives the object its value for
    prototype, when that is an object or [null]. *)
Definition rawDegrouped_of (task : ReadTask) (raw : JsValue) : JsValue :=
  if degroup task then
    fold_left (fun acc kv => assign acc (tagName_ task kv.1) kv.2)
      (Object_entries raw) (JObj [])
  else raw.

Section Task.
Variable I : Imports.
Variable task : ReadTask.
(** [#rawDegrouped]. *)
Variable rawDegrouped : JsValue.

(** Modelled from the spec: [lazy] of [./Lazy]. A derivation is computed at
    most once per task, memoized after its first computation, and is a pure
    function of the raw reply and the options: a lazy field is its value. The
    warnings the first computation pushes are returned beside the value. *)
Definition lazy {A : Type} (thunk : A) : A := thunk.

(** [#isVideo]. *)
Definition isVideo : bool :=
  startsWith
    (to_String (if is_nullish rawDegrouped then JUndefined
                else get rawDegrouped "MIMEType"))
    "video/".

(** [#defaultToUTC]. *)
Definition defaultToUTC : bool :=
  isVideo && defaultVideosToUTC (options task).

(** [#extractGpsMetadata]. *)
Definition extractGpsMetadata : option GpsLocation :=
  lazy (parseGPSLocation I rawDegrouped (options task)).

(** [#gpsIsInvalid]. *)
Definition gpsIsInvalid : bool :=
  lazy (match extractGpsMetadata with
        | Some gps => invalid gps
        | None => false
        end).

(** [#gpsResults]. *)
Definition gpsResults : list (string * Tag) :=
  lazy (if gpsIsInvalid then []
        else match extractGpsMetadata with
             | Some gps => result gps
             | None => []
             end).

Definition non_nullish (t : option Tag) : option Tag :=
  match t with
  | Some v => if tag_nullish v then None else Some v
  | None => None
  end.

(** [#extractTzOffsetFromGps]: what it returns and the warnings it pushes. *)
Definition extractTzOffsetFromGps : option TzSrc * list string :=
  lazy (
  match extractGpsMetadata with
  | None => (None, [])
  | Some gps =>
      if invalid gps then (None, [])
      else
        match non_nullish (prop_get "GPSLatitude" (result gps)),
              non_nullish (prop_get "GPSLongitude" (result gps)) with
        | Some lat, Some lon =>
            match normalizeZone I (get rawDegrouped "GeolocationTimeZone") with
            | Some zone =>
                (Some (mkTzSrc (zone_name I zone) "GeolocationTimeZone"), [])
            | None =>
                match geoTz (options task) lat lon with
                | Return geo =>
                    match normalizeZone I geo with
                    | Some zone =>
                        (Some (mkTzSrc (zone_name I zone)
                                 "GPSLatitude/GPSLongitude"), [])
                    | None => (None, [])
                    end
                | Throw error =>
                    (None,
                     ["Failed to determine timezone from GPS coordinates: "
                      +:+ error_toString error])
                end
            end
        | _, _ => (None, [])
        end
  end).

(** [a ?? b]. *)
Definition orElse {A : Type} (a : option A) (b : option A) : option A :=
  match a with
  | Some _ => a
  | None => b
  end.

(** [#extractTzOffset]: what it returns and the warnings pushed on the way.
    [#extractTzOffsetFromGps] is lazy: it runs, and pushes its warnings, at
    its first call only. *)
Definition extractTzOffset : option TzSrc * list string :=
  lazy (
  let fromGps := extractTzOffsetFromGps in
  let rest :=
    orElse (extractTzOffsetFromDatestamps I rawDegrouped (options task))
      (orElse (if defaultToUTC then Some (mkTzSrc "UTC" "defaultVideosToUTC")
               else None)
         (orElse (extractTzOffsetFromUTCOffset I rawDegrouped)
            (extractTzOffsetFromTimeStamp I rawDegrouped (options task)))) in
  if preferTimezoneInferenceFromGps (options task) then
    match fromGps.1 with
    | Some t => (Some t, fromGps.2)
    | None =>
        (orElse (extractTzOffsetFromTags I rawDegrouped (options task)) rest,
         fromGps.2)
    end
  else
    match extractTzOffsetFromTags I rawDegrouped (options task) with
    | Some t => (Some t, [])
    | None => (orElse fromGps.1 rest, fromGps.2)
    end).

(** [#tz]. *)
Definition tz_ : option string := lazy (option_map tz extractTzOffset.1).

(** The [tz] of the date branch of [#parseTag]: the zone a text without one
    is read in. *)
Definition leaf_zone (tagName : string) : option string :=
  if isUtcTagName tagName || defaultToUTC then Some "UTC"
  else if backfillTimezones (options task) then tz_
  else None.

(** The tag name sends the leaf to [ExifDateTime.from]. *)
Definition datetime_key (tagName : string) : bool :=
  (includes (fold_case tagName) "subsec"
   || includes (fold_case tagName) "time")
  || includes (fold_case tagName) "date"
  || includes (fold_case tagName) "when".

(** The string branch of [#parseTag], inside its [try] block. *)
Definition parseString (tagName value : string) : Completion Tag :=
  let* b := BinaryField_fromRawValue I value in
  match b with
  | Some b => Return (TBinaryField b)
  | None =>
      let* b :=
        (if endsWith tagName "Valid" then toBoolean I value
         else Return None) in
      match b with
      | Some b => Return (TRaw (JBool b))
      | None =>
          if MaybeDateOrTimeRe_test tagName
             && negb (OnlyZerosRE_test I value)
          then
            let tz := leaf_zone tagName in
            let keyIncludesTime :=
              includes (fold_case tagName) "subsec"
              || includes (fold_case tagName) "time" in
            let keyIncludesDate := includes (fold_case tagName) "date" in
            let keyIncludesWhen := includes (fold_case tagName) "when" in
            let* dt :=
              (if keyIncludesTime || keyIncludesDate || keyIncludesWhen
               then ExifDateTime_from I value tz else Return None) in
            match dt with
            | Some result =>
                let defaultTz := tz_ in
                match defaultTz with
                | Some defaultTz =>
                    if backfillTimezones (options task)
                       && defaultToUTC
                       && negb (isUtcTagName tagName)
                       && bool_decide (inferredZone I result = Some true)
                    then
                      let* moved := setZone I result defaultTz in
                      Return (TExifDateTime moved)
                    else Return (TExifDateTime result)
                | None => Return (TExifDateTime result)
                end
            | None =>
                let* t :=
                  (if keyIncludesTime || keyIncludesWhen
                   then ExifTime_fromEXIF I value tz else Return None) in
                match t with
                | Some result => Return (TExifTime result)
                | None =>
                    let* d :=
                      (if keyIncludesDate || keyIncludesWhen
                       then ExifDate_from I value else Return None) in
                    match d with
                    | Some result => Return (TExifDate result)
                    | None => Return (TRaw (JStr value))
                    end
                end
            end
          else Return (TRaw (JStr value))
      end
  end.

(** The leaf [value] of the tag [tagName] reaches [ExifDateTime.from], which
    decodes it into [d]: no earlier branch of [#parseTag] returns. *)
Definition decodes_to_datetime (tagName value : string) (d : ExifDateTime C)
  : Prop :=
  nullish (JStr value) = false /\
  (tagName ∉ PassthroughTags) /\
  (gps_prefixed tagName = true ->
     gpsIsInvalid = false /\
     non_nullish (prop_get tagName gpsResults) = None) /\
  BinaryField_fromRawValue I value = Return None /\
  (endsWith tagName "Valid" = true -> toBoolean I value = Return None) /\
  MaybeDateOrTimeRe_test tagName = true /\
  OnlyZerosRE_test I value = false /\
  datetime_key tagName = true /\
  ExifDateTime_from I value (leaf_zone tagName) = Return (Some d).

(** The warning of the [catch] block of [#parseTag]. *)
Definition failed_to_parse (tagName : string) (value : JsValue)
    (e : JsError) : string :=
  "Failed to parse " +:+ tagName +:+ " with value "
  +:+ default "undefined" (JSON_stringify value) +:+ ": "
  +:+ error_toString e.

(** [#parseTag], with the warnings of the task before and after. In the
    loop over a structure, [result[k] = ...] under the key [__proto__]
    defines no property of the result: it runs the setter of
    [Object.prototype], which gives the result the decoded value for
    prototype when that is an object. The classes of the decoded values are
    taken to hold no accessor and no read-only property under a key of the
    structure: the assignments that follow define their properties. *)
Fixpoint parseTag (tagName : string) (value : JsValue) (ws : list string)
  : Tag * list string :=
  if nullish value then (undefined, ws)
  else if bool_decide (tagName ∈ PassthroughTags) then (TRaw value, ws)
  else
    let gps := startsWith tagName "GPS" || startsWith tagName "Geolocation" in
    if gps && gpsIsInvalid then (undefined, ws)
    else
      match (if gps then non_nullish (prop_get tagName gpsResults)
             else None) with
      | Some parsed => (parsed, ws)
      | None =>
          match value with
          | JArr elems _ =>
              let '(ts, ws') :=
                (fix each (es : list JsValue) (ws : list string)
                   : list Tag * list string :=
                   match es with
                   | [] => ([], ws)
                   | ea :: es' =>
                       let '(t, ws1) := parseTag tagName ea ws in
                       let '(ts, ws2) := each es' ws1 in
                       (t :: ts, ws2)
                   end) elems ws in
              (TArray ts, ws')
          | JObj props | JInherit _ props =>
              let '(fs, ws') :=
                (fix each (ps : list (string * JsValue)) (ws : list string)
                   : list (string * Tag) * list string :=
                   match ps with
                   | [] => ([], ws)
                   | (k, v) :: ps' =>
                       let '(t, ws1) :=
                         parseTag (tagName +:+ "." +:+ k) v ws in
                       let '(fs, ws2) := each ps' ws1 in
                       (if String.eqb k "__proto__" then fs
                        else (k, t) :: fs, ws2)
                   end) props ws in
              (TStruct fs, ws')
          | JStr s =>
              match parseString tagName s with
              | Return t => (t, ws)
              | Throw e => (TRaw value, ws ++ [failed_to_parse tagName value e])
              end
          | _ => (TRaw value, ws)
          end
      end.

(** An array of strings. *)
Definition strings (xs : list string) : Tag :=
  TArray (map (fun x => TRaw (JStr x)) xs).

(** One turn of the loop of [#parseTags] over the entries of the reply.
    [tags[key] = v] under the key [__proto__] defines no entry of the record:
    it runs the setter of [Object.prototype], which gives the record the
    decoded value for prototype when that is an object. The classes of the
    decoded values are taken to hold no accessor and no read-only property
    under a key the record is assigned: the assignments that follow define
    their entries. *)
Definition parseEntry (acc : gmap string Tag * list string)
    (entry : string * JsValue) : gmap string Tag * list string :=
  let '(v, ws) := parseTag (tagName_ task entry.1) entry.2 acc.2 in
  (if tag_nullish v || String.eqb entry.1 "__proto__" then acc.1
   else <[entry.1 := v]> acc.1, ws).

End Task.

Section Parse.
Variable I : Imports.
Variable task : ReadTask.

(** [#parseTags] on the reply object [raw]: the record, and the warnings of
    the task when it returns. The record starts as the constructor built it.
    The GPS metadata and the timezone are lazy: computed at their first use,
    here, and read afterwards. The record is its own entries: the prototype
    an assignment under the key [__proto__] gives it is not modelled, and
    [errorsAndWarnings] is a function of the own entries. *)
Definition parseTags (raw : JsValue) : gmap string Tag * list string :=
  let rawDegrouped := rawDegrouped_of task raw in
  let tags0 : gmap string Tag :=
    <["errors" := strings (errors task)]>
      {["SourceFile" := TRaw (JStr (sourceFile task))]} in
  let tzSrc := extractTzOffset I task rawDegrouped in
  let ws0 := warnings task ++ tzSrc.2 in
  let tags1 :=
    match tzSrc.1 with
    | Some t =>
        <["tzSource" := TRaw (JStr (src t))]>
          (<["tz" := TRaw (JStr (tz t))]> tags0)
    | None => tags0
    end in
  let '(tags2, ws1) :=
    fold_left (parseEntry I task rawDegrouped) (Object_entries raw)
      (tags1, ws0) in
  let '(errors, warnings) := errorsAndWarnings I (errors task) ws1 tags2 in
  (<["warnings" := strings warnings]> (<["errors" := strings errors]> tags2),
   ws1).

(** [JSON.parse(data)[0]]: [v] is what [JSON.parse] returns, a value with
    the prototype it was created with. *)
Definition index0 (v : JsValue) : Completion JsValue :=
  match v with
  | JArr es _ => Return (default JUndefined (es !! 0))
  | JObj ps | JInherit _ ps => Return (default JUndefined (prop_get "0" ps))
  | JStr (String c _) => Return (JStr (String c EmptyString))
  | JNull | JUndefined => Throw TypeError
  | _ => Return JUndefined
  end.

(** [ReadTask.parse]: the record, and the warnings of the task when it
    returns. [path.resolve] throws on an argument that is not a string. *)
Definition parse (data : string) (err : option JsError)
  : Completion (gmap string Tag * list string) :=
  match (let* v := JSON_parse data in index0 v) with
  | Throw jsonError => Throw (default jsonError err)
  | Return raw =>
      if is_nullish raw then Throw TypeError
      else
        match get raw "SourceFile" with
        | JStr declared =>
            let SourceFile := path_resolve I declared in
            if bool_decide (SourceFile <> sourceFile task) then
              Throw (Error ("Internal error: unexpected SourceFile of "
                            +:+ declared +:+ " for file " +:+ sourceFile task))
            else Return (parseTags raw)
        | _ => Throw TypeError
        end
  end.

(** The entry [SourceFile] of the record of a reply that declares
    [declared]: the text of the reply, decoded as any other leaf. *)
Definition SourceFile_entry (declared : string) : Tag :=
  if nullish (JStr declared) then TRaw (JStr (sourceFile task))
  else
    match BinaryField_fromRawValue I declared with
    | Return (Some b) => TBinaryField b
    | _ => TRaw (JStr declared)
    end.

(** The entry of [key] in the record [parse] returns. *)
Definition entry_of (c : Completion (gmap string Tag * list string))
    (key : string) : option Tag :=
  match c with
  | Return (tags, _) => tags !! key
  | Throw _ => None
  end.

(** The sources of the timezone of a file in the order of the design, each
    with what it yields; the first that yields a zone is kept. *)
Definition cascade_sources (rawDegrouped : JsValue) : list (option TzSrc) :=
  (if preferTimezoneInferenceFromGps (options task)
   then [(extractTzOffsetFromGps I task rawDegrouped).1] else [])
  ++ [extractTzOffsetFromTags I rawDegrouped (options task);
      (extractTzOffsetFromGps I task rawDegrouped).1;
      extractTzOffsetFromDatestamps I rawDegrouped (options task);
      (if defaultToUTC task rawDegrouped
       then Some (mkTzSrc "UTC" "defaultVideosToUTC") else None);
      extractTzOffsetFromUTCOffset I rawDegrouped;
      extractTzOffsetFromTimeStamp I rawDegrouped (options task)].

Fixpoint first_success {A : Type} (xs : list (option A)) : option A :=
  match xs with
  | [] => None
  | Some a :: _ => Some a
  | None :: xs' => first_success xs'
  end.

End Parse.
End Decode.
End Read.

(** ** Stand-ins for the imported modules

    The modules [ReadTask.ts] imports are not among the sources. The decoder
    above takes them as parameters and every general statement below holds
    for all of them. To run the decoder on a reply, this instance supplies
    them, each as far as the design describes it. *)

Module Sample.
Import Js Read.

(** [text] has the shape of [pattern], where [d] stands for a digit. *)
Fixpoint shaped (pattern text : string) : bool :=
  match pattern, text with
  | EmptyString, EmptyString => true
  | String p ps, String c cs =>
      (if Ascii.eqb p "d" then is_digit c else Ascii.eqb p c) && shaped ps cs
  | _, _ => false
  end.

(** Modelled from the spec: a date-and-time value, carrying an optional or
    inferred UTC offset. [wallClock] is the text of the source, [readIn] the
    zone it was read in (the two fix the instant), [zone] the zone the value
    is displayed in. *)
Record DateTime : Type := mkDateTime {
  wallClock : string;
  readIn : option string;
  zone : option string;
  inferred : bool
}.

(** A binary field, a time, a date and a zone are kept as their text. *)
Definition classes : Classes := mkClasses string DateTime string string string.

(** Modelled from the spec: the full date-time of a leaf. A text with an
    offset suffix carries its zone; a text without one takes the zone handed
    in, which is then inferred. *)
Definition DateTime_from (value : string) (tz : option string)
  : Completion (option DateTime) :=
  if shaped "dddd:dd:dd dd:dd:dd" (take 19 value) then
    match drop 19 value with
    | EmptyString => Return (Some (mkDateTime value tz tz (bool_decide (tz <> None))))
    | "Z" => Return (Some (mkDateTime (take 19 value) (Some "UTC") (Some "UTC") false))
    | suffix =>
        if shaped "+dd:dd" suffix || shaped "-dd:dd" suffix then
          Return (Some (mkDateTime (take 19 value) (Some suffix) (Some suffix) false))
        else Return None
    end
  else Return None.

(** Modelled from the spec: rewriting a value into a zone preserves the
    absolute instant and changes only the display zone. *)
Definition DateTime_setZone (d : DateTime) (z : string) : Completion DateTime :=
  Return (mkDateTime (wallClock d) (readIn d) (Some z) (inferred d)).

(** Modelled from the spec: the time-only value of a leaf. *)
Definition Time_fromEXIF (value : string) (tz : option string)
  : Completion (option string) :=
  Return (if shaped "dd:dd:dd" value then Some value else None).

(** Modelled from the spec: the date-only value of a leaf. *)
Definition Date_from (value : string) : Completion (option string) :=
  Return (if shaped "dddd:dd:dd" value then Some value else None).

(** Modelled from the spec: binary-marker strings decode to an opaque binary
    placeholder; the marker is the text ExifTool prints for an elided
    value. *)
Definition Binary_fromRawValue (value : string) : Completion (option string) :=
  Return (if startsWith value "(Binary data " then Some value else None).

(** Modelled from the spec: the boolean a field whose name ends in [Valid]
    is tried as. *)
Definition sample_toBoolean (value : string) : Completion (option bool) :=
  let v := fold_case (trim value) in
  Return (if bool_decide (v ∈ ["true"; "yes"; "1"]) then Some true
          else if bool_decide (v ∈ ["false"; "no"; "0"]) then Some false
          else None).

(** Every code unit of [s] is the digit zero. *)
Fixpoint zeros (s : string) : bool :=
  match s with
  | EmptyString => true
  | String c s' => Ascii.eqb c "0" && zeros s'
  end.

(** Modelled from the spec: [OnlyZerosRE], an all-zero numeric string such
    as [00]. *)
Definition OnlyZeros (s : string) : bool :=
  negb (String.eqb s EmptyString) && zeros s.

(** A number that is zero, by its lexeme. *)
Definition is_zero (v : JsValue) : bool :=
  match v with
  | JNum lexeme => bool_decide (lexeme ∈ ["0"; "-0"; "0.0"; "0.00000000"])
  | _ => false
  end.

(** Modelled from the spec: the GPS extraction result is a validity flag plus
    a mapping of GPS-prefixed tag names to parsed values; the all-zero
    latitude and longitude is the invalid reading, when the options ask to
    ignore it. *)
Definition sample_parseGPSLocation (raw : JsValue)
    (opts : ReadTaskOptions (C := classes)) : option (GpsLocation (C := classes)) :=
  let lat := get raw "GPSLatitude" in
  let lon := get raw "GPSLongitude" in
  if is_nullish lat && is_nullish lon then None
  else
    Some (mkGpsLocation
            (ignoreZeroZeroLatLon opts && is_zero lat && is_zero lon)
            [("GPSLatitude", TRaw lat); ("GPSLongitude", TRaw lon)]).

(** A zone is named by any text that is not empty. *)
Definition sample_normalizeZone (v : JsValue) : option string :=
  match v with
  | JStr (String c s) => Some (String c s)
  | _ => None
  end.

(** Modelled from the spec: explicit timezone-bearing tags already present in
    the raw bag, an explicit offset or a named zone field. *)
Definition sample_extractTzOffsetFromTags (raw : JsValue)
    (opts : ReadTaskOptions (C := classes)) : option TzSrc :=
  first_success
    (map (fun k => option_map (fun z => mkTzSrc z k)
                     (sample_normalizeZone (get raw k)))
       ["TimeZone"; "OffsetTimeOriginal"; "OffsetTimeDigitized"; "OffsetTime"]).

(** The other heuristics of the cascade find nothing in this instance. *)
Definition imports : Imports (C := classes) :=
  mkImports (C := classes)
    Binary_fromRawValue
    sample_toBoolean
    DateTime_from
    Time_fromEXIF
    Date_from
    (fun d => Some (inferred d))
    DateTime_setZone
    OnlyZeros
    sample_parseGPSLocation
    sample_normalizeZone
    (fun z => z)
    sample_extractTzOffsetFromTags
    (fun _ _ => None)
    (fun _ => None)
    (fun _ _ => None)
    (fun errors warnings _ => (errors, warnings))
    (posix_resolve "/home/u").

(** The coordinate lookup handed in by the caller. *)
Definition sample_geoTz (lat lon : Tag (C := classes)) : Completion JsValue :=
  Return (JStr "Europe/Paris").

(** The options of a read; the all-zero coordinates are ignored. *)
Definition sample_options (backfill videosToUTC preferGps : bool)
  : ReadTaskOptions (C := classes) :=
  mkReadTaskOptions backfill videosToUTC preferGps true sample_geoTz.

(** The task [ReadTask.for] builds for [filename]. *)
Definition sample_task (filename : string)
    (opts : ReadTaskOptions (C := classes)) : ReadTask (C := classes) :=
  let sourceFile := posix_resolve "/home/u" filename in
  mkReadTask sourceFile ["-json"; "-all"; sourceFile] opts [] [].

(** A JSON member with a string for its value. *)
Definition member (k v : string) : string := quote k +:+ ":" +:+ quote v.

(** A JSON member with a number for its value. *)
Definition member_num (k lexeme : string) : string := quote k +:+ ":" +:+ lexeme.

(** The reply to a read: an array of one object. *)
Definition reply (members : list string) : string :=
  "[{" +:+ join "," members +:+ "}]".

(** A photo with an explicit offset and coordinates, whose path the worker
    spells with a doubled separator. *)
Definition photo_reply : string :=
  reply [member "SourceFile" "/home/u//a.jpg";
         member "Make" "NULL";
         member "Model" " null ";
         member "OffsetTimeOriginal" "+02:00";
         member_num "GPSLatitude" "48.85";
         member_num "GPSLongitude" "2.35"].

(** A clip with a zoneless creation date and an explicit offset. *)
Definition clip_reply : string :=
  reply [member "SourceFile" "/home/u/a.mp4";
         member "MIMEType" "video/mp4";
         member "OffsetTime" "+02:00";
         member "CreateDate" "2020:01:01 10:00:00"].

(** A clip with a zoneless creation date and no offset tag. *)
Definition plain_clip_reply : string :=
  reply [member "SourceFile" "/home/u/a.mp4";
         member "MIMEType" "video/mp4";
         member "CreateDate" "2020:01:01 10:00:00"].

(** A photo whose coordinates are the all-zero reading. *)
Definition null_island_reply : string :=
  reply [member "SourceFile" "/home/u/a.jpg";
         member_num "GPSLatitude" "0";
         member_num "GPSLongitude" "0";
         member "GPSDateStamp" "2020:01:01"].

(** The reply object of a reply. *)
Definition raw_of (data : string) : JsValue :=
  match (let* v := JSON_parse data in index0 v) with
  | Return raw => raw
  | Throw _ => JUndefined
  end.

End Sample.

(** ** The queue of calls *)

Module Protocol.
Import Js Process.

(** Every reader of the queue holds a promise of the store, no two readers
    hold the same one, and until the worker has exited these promises are
    pending. *)
Definition queue_ok (st : ExifToolProcess) : Prop :=
  NoDup (map promise (readers st)) /\
  (forall r, r ∈ readers st -> promise r < length (promises st)) /\
  (_ended st = false ->
   forall r, r ∈ readers st -> promises st !! promise r = Some Pending).

(** A chunk that, on an empty buffer, completes a reply, and the text
    [onData] then hands to the oldest reader. *)
Definition complete (chunk : string) : bool := endsWith (trim chunk) ready.

Definition payload (chunk : string) : string :=
  slice_to_neg (trim chunk) (String.length ready).

(** What [apply] leaves in the pending promise of [r] when [r] is given
    [text]: an exception leaves it pending. *)
Definition outcome (r : DeferredReader) (text : string) : PromiseState :=
  match (let* v := reader r text in with_warnings v (warnings r)) with
  | Return v' => Fulfilled v'
  | Throw _ => Pending
  end.

(** The lines [xs], each followed by a line break. *)
Fixpoint lines (xs : list string) : string :=
  match xs with
  | [] => EmptyString
  | x :: xs' => x +:+ nl +:+ lines xs'
  end.

(** What an event makes the process write to the worker's input. *)
Definition written (ev : Event) : list string :=
  match ev with
  | EvExecute _ cmds => [lines (cmds ++ ["-execute"])]
  | EvEnd => [nl +:+ lines ["-stay_open"; "False"]]
  | EvData _ | EvError _ | EvClose _ => []
  end.

(** The process without what it has printed. *)
Definition silent (st : ExifToolProcess) : ExifToolProcess :=
  mkExifToolProcess (_ended st) (buff st) (readers st) (promises st)
    (stdin st) (stdin_closed st) [].

End Protocol.

(** ** [WriteTask.ts]: the arguments of a write *)

Module Encode.
Import Js.

Section Encode.
(** The date and time classes [isDateOrTime] accepts. *)
Variable DateOrTime : Type.
(** [htmlEncode] of [./String], [toExifString] of [./DateTime] and
    [path.resolve], each a function of its argument that returns. *)
Variable htmlEncode : string -> string.
Variable toExifString : DateOrTime -> string.
Variable path_resolve : string -> string.

(** Modelled from the spec: the value of a tag to write, by the test of
    [enc] that accepts it first. [isNumber], [isString], [isDateOrTime] and
    [isStruct] are not among the sources here; the encoder's cases are absent,
    numeric, textual, date/time-like, array and nested structure, and any
    other value. A number is the text [String(o)] gives for it, and a value
    of no other case is the text [JSON.stringify(o)] gives for it. A
    structure lists its keys in the order [keys] enumerates them. *)
Inductive WriteValue : Type :=
| WNull
| WNumber (text : string)
| WString (s : string)
| WDateOrTime (d : DateOrTime)
| WArray (elems : list WriteValue)
| WStruct (fields : list (string * WriteValue))
| WOther (json : string).

Definition utfCharsetArgs : list string :=
  ["-charset"; "filename=utf8"; "-codedcharacterset=utf8"; "-struct"; "-E"].

(** [enc]. *)
Fixpoint enc (o : WriteValue) : Completion string :=
  match o with
  | WNull => Return ""
  | WNumber text => Return text
  | WString s => Return (htmlEncode s)
  | WDateOrTime d => Return (toExifString d)
  | WArray elems =>
      let* xs :=
        (fix map_enc (es : list WriteValue) : Completion (list string) :=
           match es with
           | [] => Return []
           | ea :: es' =>
               let* x := enc ea in
               let* xs := map_enc es' in
               Return (x :: xs)
           end) elems in
      Return ("[" +:+ join "," xs +:+ "]")
  | WStruct fields =>
      let* xs :=
        (fix map_enc (fs : list (string * WriteValue))
           : Completion (list string) :=
           match fs with
           | [] => Return []
           | (k, v) :: fs' =>
               (* a key is a string: [enc(k)] is [htmlEncode(k)] *)
               let* x := Return (htmlEncode k) in
               let* y := enc v in
               let* xs := map_enc fs' in
               Return ((x +:+ " = " +:+ y) :: xs)
           end) fields in
      Return ("{" +:+ join "," xs +:+ "}")
  | WOther json => Throw (Error ("cannot encode " +:+ json))
  end.

(** [o.map(enc)] of the array case of [enc], and the map of its structure
    case. *)
Fixpoint enc_elems (es : list WriteValue) : Completion (list string) :=
  match es with
  | [] => Return []
  | ea :: es' =>
      let* x := enc ea in
      let* xs := enc_elems es' in
      Return (x :: xs)
  end.

Fixpoint enc_fields (fs : list (string * WriteValue))
  : Completion (list string) :=
  match fs with
  | [] => Return []
  | (k, v) :: fs' =>
      let* x := Return (htmlEncode k) in
      let* y := enc v in
      let* xs := enc_fields fs' in
      Return ((x +:+ " = " +:+ y) :: xs)
  end.

(** [Array.isArray(val) ? val : [val]]. *)
Definition as_array (val : WriteValue) : list WriteValue :=
  match val with
  | WArray elems => elems
  | _ => [val]
  end.

(** [WriteTask.for]: the source file and the arguments the constructor
    receives. [tags] lists the entries of the request in the order [keys]
    enumerates them. *)
Definition for_ (filename : string) (tags : list (string * WriteValue))
    (optionalArgs : list string) : Completion (string * list string) :=
  let sourceFile := path_resolve filename in
  let args := utfCharsetArgs in
  let* args :=
    fold_left
      (fun (acc : Completion (list string)) (entry : string * WriteValue) =>
         let* args := acc in
         let key := entry.1 in
         let val := entry.2 in
         let arr := as_array val in
         fold_left
           (fun (acc : Completion (list string)) (ea : WriteValue) =>
              let* args := acc in
              let* x := enc ea in
              Return (args ++ ["-" +:+ key +:+ "=" +:+ x]))
           arr (Return args))
      tags (Return args) in
  let args := fold_left (fun args ea => args ++ [ea]) optionalArgs args in
  let args := args ++ [sourceFile] in
  Return (sourceFile, args).

(** [WriteTask.toString]. *)
Definition toString (sourceFile : string) : string :=
  "WriteTask(" +:+ sourceFile +:+ ")".

(** No value of the last case of [enc] occurs in [o]. *)
Fixpoint encodable (o : WriteValue) : bool :=
  match o with
  | WArray elems =>
      (fix all (es : list WriteValue) : bool :=
         match es with
         | [] => true
         | ea :: es' => encodable ea && all es'
         end) elems
  | WStruct fields =>
      (fix all (fs : list (string * WriteValue)) : bool :=
         match fs with
         | [] => true
         | (_, v) :: fs' => encodable v && all fs'
         end) fields
  | WOther _ => false
  | _ => true
  end.

(** The arguments of the elements [els], each element with the name of its
    tag, in their order. *)
Fixpoint arguments (els : list (string * WriteValue))
  : Completion (list string) :=
  match els with
  | [] => Return []
  | (key, ea) :: els' =>
      let* x := enc ea in
      let* xs := arguments els' in
      Return (("-" +:+ key +:+ "=" +:+ x) :: xs)
  end.

(** The error of the last case of [enc]. *)
Definition cannot_encode (e : JsError) : Prop :=
  exists json : string, e = Error ("cannot encode " +:+ json).

(** The elements a request writes, each with the name of its tag: the
    elements of an array one by one, any other value as it is. *)
Definition elements (tags : list (string * WriteValue))
  : list (string * WriteValue) :=
  flat_map (fun entry => map (pair entry.1) (as_array entry.2)) tags.

End Encode.

Arguments WNull {DateOrTime}.
Arguments WNumber {DateOrTime} text.
Arguments WString {DateOrTime} s.
Arguments WDateOrTime {DateOrTime} d.
Arguments WArray {DateOrTime} elems.
Arguments WStruct {DateOrTime} fields.
Arguments WOther {DateOrTime} json.
Arguments enc {DateOrTime} htmlEncode toExifString o.
Arguments enc_elems {DateOrTime} htmlEncode toExifString es.
Arguments enc_fields {DateOrTime} htmlEncode toExifString fs.
Arguments arguments {DateOrTime} htmlEncode toExifString els.
Arguments as_array {DateOrTime} val.
Arguments for_ {DateOrTime} htmlEncode toExifString path_resolve
  filename tags optionalArgs.
Arguments encodable {DateOrTime} o.
Arguments elements {DateOrTime} tags.

End Encode.

(** ** The loops of [#parseTag] *)

Module Leaves.
Import Js Read.

Section Leaves.
Context {C : Classes}.
Variable I : Imports (C := C).
Variable task : ReadTask (C := C).
Variable rawDegrouped : JsValue.

(** [value.map((ea) => this.#parseTag(tagName, ea))], with the warnings of
    the task before and after. *)
Definition parseElems (tagName : string)
  : list JsValue -> list string -> list Tag * list string :=
  fix each (es : list JsValue) (ws : list string) : list Tag * list string :=
    match es with
    | [] => ([], ws)
    | ea :: es' =>
        let '(t, ws1) := parseTag I task rawDegrouped tagName ea ws in
        let '(ts, ws2) := each es' ws1 in
        (t :: ts, ws2)
    end.

(** The loop of [#parseTag] over the entries of a structure. *)
Definition parseFields (tagName : string)
  : list (string * JsValue) -> list string
    -> list (string * Tag) * list string :=
  fix each (ps : list (string * JsValue)) (ws : list string)
    : list (string * Tag) * list string :=
    match ps with
    | [] => ([], ws)
    | (k, v) :: ps' =>
        let '(t, ws1) :=
          parseTag I task rawDegrouped (tagName +:+ "." +:+ k) v ws in
        let '(fs, ws2) := each ps' ws1 in
        (if String.eqb k "__proto__" then fs else (k, t) :: fs, ws2)
    end.

(** The entries of a structure that the loop gives a property of the
    result: all but an entry [__proto__]. *)
Definition own_entries (ps : list (string * JsValue))
  : list (string * JsValue) :=
  List.filter (fun kv => negb (String.eqb kv.1 "__proto__")) ps.

(** What [#parseTag] returns for [value] and the warnings it pushes, in a
    task that holds none. *)
Definition decoded (tagName : string) (value : JsValue) : Tag :=
  (parseTag I task rawDegrouped tagName value []).1.

Definition pushed (tagName : string) (value : JsValue) : list string :=
  (parseTag I task rawDegrouped tagName value []).2.

(** The tests of [#parseTag] that look at the name of the tag let the value
    through to the tests on its type: the name is not among the
    [PassthroughTags] and, when it is the name of a GPS tag, the coordinates
    are valid and the GPS extraction holds no value for it. *)
Definition reaches_value (tagName : string) : Prop :=
  (tagName ∉ PassthroughTags) /\
  (gps_prefixed tagName = true ->
     gpsIsInvalid I task rawDegrouped = false /\
     non_nullish (prop_get tagName (gpsResults I task rawDegrouped)) = None).

End Leaves.
End Leaves.

(** ** [ReadTask.for]: the arguments of a read *)

Module ReadFor.
Import Js Read.

Section For.
(** [Utf8FilenameCharsetArgs] of [./FilenameCharsetArgs] and
    [path.resolve]. *)
Variable Utf8FilenameCharsetArgs : list string.
Variable path_resolve : string -> string.

(** The options [ReadTask.for] reads, as [handleDeprecatedOptions] returns
    them: [readArgs] is [toA(opts.readArgs)]; [struct] is the number
    [opts.struct] as the concatenation renders it, when [isNumber] accepts
    it; [imageHashType] is absent when the option is [null], [undefined] or
    [false]; [geolocation] is the test [true === opts.geolocation]. *)
Record ReadOptions : Type := mkReadOptions {
  readArgs : list string;
  struct : option string;
  useMWG : bool;
  imageHashType : option string;
  geolocation : bool;
  numericTags : list string
}.

(** [ReadTask.for]: the source file and the arguments the constructor
    receives. *)
Definition for_ (filename : string) (opts : ReadOptions)
  : string * list string :=
  let sourceFile := path_resolve filename in
  let args := Utf8FilenameCharsetArgs ++ ["-json"] ++ readArgs opts in
  let args := args ++ ["-api"; "struct=" +:+ default "0" (struct opts)] in
  let args := if useMWG opts then args ++ ["-use"; "MWG"] else args in
  let args :=
    match imageHashType opts with
    | Some hash =>
        (args ++ ["-api"; "requesttags=imagedatahash"])
        ++ ["-api"; "imagehashtype=" +:+ hash]
    | None => args
    end in
  let args :=
    if geolocation opts then args ++ ["-api"; "geolocation"] else args in
  let args :=
    args ++ map (fun ea => "-" +:+ ea +:+ "#") (numericTags opts) in
  let args := args ++ ["-all"; sourceFile] in
  (sourceFile, args).

(** [ReadTask.toString]. *)
Definition toString (sourceFile : string) : string :=
  "ReadTask" +:+ sourceFile +:+ ")".

End For.
End ReadFor.

(** ** [Which.ts] *)

Module Which.
Import Js.

Section Which.
(** [isAbsolute], [basename], [join] and [delimiter] of [path]; [PATH] is
    [toS(env.PATH)]; [isWin32] of [./IsWin32]. *)
Variable isAbsolute : string -> bool.
Variable basename : string -> string.
Variable join : string -> string -> string.
Variable delimiter : ascii.
Variable PATH : string.
Variable isWin32 : bool.
(** The file system while [which] runs: [existsSync], and whether
    [access(fullpath, R_OK | X_OK)] resolves. *)
Variable existsSync : string -> bool.
Variable access_RX : string -> bool.

(** [canRX]. *)
Definition canRX (fullpath : string) : bool :=
  if isWin32 then existsSync fullpath else access_RX fullpath.

(** [which]; [None] stands for [undefined]. *)
Definition which (binaryOrPath : string) : option string :=
  if isAbsolute binaryOrPath && canRX binaryOrPath then Some binaryOrPath
  else
    let base := basename binaryOrPath in
    (fix loop (dirs : list string) : option string :=
       match dirs with
       | [] => None
       | dir :: dirs' =>
           let fullPath := join dir base in
           if canRX fullPath then Some fullPath else loop dirs'
       end) (split delimiter PATH).

(** The candidates of the loop of [which], in its order. *)
Definition candidates (binaryOrPath : string) : list string :=
  map (fun dir => join dir (basename binaryOrPath)) (split delimiter PATH).

End Which.
End Which.

(** ** Sample requests

    Requests and replies on which the statements on the arguments of a
    task and on the decoder are instantiated. *)

Module Requests.
Import Js Read Sample.

(** Modelled from the spec: textual values are HTML-entity-escaped; here the
    ampersand and the angle brackets are, by their numeric entities. *)
Fixpoint sample_htmlEncode (s : string) : string :=
  match s with
  | EmptyString => EmptyString
  | String c s' =>
      (if Ascii.eqb c "&" then "&#38;"
       else if Ascii.eqb c "<" then "&#60;"
       else if Ascii.eqb c ">" then "&#62;"
       else String c EmptyString) +:+ sample_htmlEncode s'
  end.

(** A date or a time is kept as the tool's canonical text for it. *)
Definition sample_toExifString (d : string) : string := d.

(** A write of three tags, one of them with two values. *)
Definition sample_tags : list (string * Encode.WriteValue string) :=
  [("Keywords", Encode.WArray [Encode.WString "a&b"; Encode.WString "c"]);
   ("Rating", Encode.WNumber "5");
   ("Title", Encode.WNull)].

(** The options of a read that degroups and asks for two numeric tags. *)
Definition sample_read_options : ReadFor.ReadOptions :=
  ReadFor.mkReadOptions ["-G"; "-fast"] (Some "1") true None true
    ["Orientation"; "GPSLatitude"].

(** The task [ReadTask.for] builds for [filename] with these options. *)
Definition grouped_task (filename : string) : ReadTask (C := classes) :=
  let request :=
    ReadFor.for_ ["-charset"; "filename=utf8"] (posix_resolve "/home/u")
      filename sample_read_options in
  mkReadTask request.1 request.2 (sample_options true true false) [] [].

(** A reply with group names, two groups holding the same tag. *)
Definition grouped_reply : string :=
  reply [member "SourceFile" "/home/u/a.jpg";
         member "EXIF:Make" "Canon";
         member "IFD0:Make" "Canon Inc."].

(** A photo with keywords, one of them nullish, a structure and an all-zero
    fraction of a second. *)
Definition keywords_reply : string :=
  reply [member "SourceFile" "/home/u/a.jpg";
         quote "Keywords" +:+ ":[" +:+ quote "a" +:+ "," +:+ quote "undef"
           +:+ "]";
         quote "Flash" +:+ ":{" +:+ member "Mode" "On" +:+ "}";
         member "SubSecTime" "00"].

(** A reply with group names whose key [XMP:__proto__] holds an object. *)
Definition inherited_reply : string :=
  reply [member "SourceFile" "/home/u/a.mp4";
         quote "XMP:__proto__" +:+ ":{" +:+ member "MIMEType" "video/mp4"
           +:+ "}"].

(** A reply whose keys [__proto__] and [XMP:__proto__] hold a text. *)
Definition proto_reply : string :=
  reply [member "SourceFile" "/home/u/a.jpg";
         member "__proto__" "x";
         member "XMP:__proto__" "y"].

(** The imports of the sample, with a date class that throws on every
    text. *)
Definition throwing_imports : Imports (C := classes) :=
  mkImports (C := classes)
    Binary_fromRawValue
    sample_toBoolean
    DateTime_from
    Time_fromEXIF
    (fun _ => Throw (Error "unparseable date"))
    (fun d => Some (inferred d))
    DateTime_setZone
    OnlyZeros
    sample_parseGPSLocation
    sample_normalizeZone
    (fun z => z)
    sample_extractTzOffsetFromTags
    (fun _ _ => None)
    (fun _ => None)
    (fun _ _ => None)
    (fun errors warnings _ => (errors, warnings))
    (posix_resolve "/home/u").

(** A photo whose date of birth is no date. *)
Definition garbled_reply : string :=
  reply [member "SourceFile" "/home/u/a.jpg";
         member "BirthDate" "yesterday"].

(** The options of a read whose coordinate lookup fails; GPS is
    preferred. *)
Definition failing_lookup_options : ReadTaskOptions (C := classes) :=
  mkReadTaskOptions true true true true
    (fun _ _ => Throw (Error "no zone for these coordinates")).

(** A file system with one executable, and a search path of two
    directories. *)
Definition sample_access (p : string) : bool :=
  String.eqb p "/usr/bin/exiftool".

Definition sample_isAbsolute (p : string) : bool := startsWith p "/".

(** What follows the last separator. *)
Definition sample_basename (p : string) : string :=
  default p (last (split "/" p)).

Definition sample_join (dir base : string) : string := dir +:+ "/" +:+ base.

End Requests.

(** * Properties *)

(** ** Strings *)

Module JsFacts.
Import Js.

Lemma append_cons (c : ascii) (s t : string) :
  String c s +:+ t = String c (s +:+ t).
Proof. reflexivity. Qed.

Lemma append_nil_l (t : string) : EmptyString +:+ t = t.
Proof. reflexivity. Qed.

Lemma take_drop (n : nat) (s : string) : take n s +:+ drop n s = s.
Proof.
  revert s; induction n as [|n IH]; intros [|c s]; simpl; try reflexivity.
  rewrite append_cons. f_equal. apply IH.
Qed.

Lemma eqb_eq_true (s t : string) : String.eqb s t = true -> s = t.
Proof. apply String.eqb_eq. Qed.

(** A string that ends with [p] is what [slice(0, -p.length)] keeps of it,
    followed by [p]. *)
Lemma endsWith_slice (s p : string) :
  endsWith s p = true -> s = slice_to_neg s (String.length p) +:+ p.
Proof.
  unfold endsWith, slice_to_neg. intros H.
  apply andb_prop in H as [_ H]. apply eqb_eq_true in H.
  rewrite <- (take_drop (String.length s - String.length p) s) at 1.
  now rewrite H.
Qed.

Lemma append_length (s t : string) :
  String.length (s +:+ t) = String.length s + String.length t.
Proof.
  induction s as [|c s IH]; [reflexivity|].
  rewrite append_cons. simpl. now rewrite IH.
Qed.

Lemma drop_append (s t : string) : drop (String.length s) (s +:+ t) = t.
Proof.
  induction s as [|c s IH]; [now destruct t|].
  rewrite append_cons. simpl. exact IH.
Qed.

Lemma take_append (s t : string) : take (String.length s) (s +:+ t) = s.
Proof.
  induction s as [|c s IH]; [now destruct t|].
  rewrite append_cons. simpl. now rewrite IH.
Qed.

End JsFacts.

(** ** What [JSON.parse] builds *)

Module JsonFacts.
Import Js.

Lemma prop_set_keys {V : Type} (k : string) (v : V) (ps : list (string * V)) :
  map fst (prop_set k v ps) =
  if bool_decide (k ∈ map fst ps) then map fst ps else map fst ps ++ [k].
Proof.
  induction ps as [|[k' v'] ps IH]; simpl; [reflexivity|].
  destruct (String.eqb k k') eqn:E.
  - apply String.eqb_eq in E as ->. simpl.
    rewrite bool_decide_eq_true_2 by left. reflexivity.
  - apply String.eqb_neq in E. simpl. rewrite IH.
    destruct (bool_decide (k ∈ map fst ps)) eqn:B.
    + apply bool_decide_eq_true in B.
      rewrite bool_decide_eq_true_2 by now right. reflexivity.
    + apply bool_decide_eq_false in B.
      rewrite bool_decide_eq_false_2; [reflexivity|].
      intros [->|H]%elem_of_cons; [now apply E | now apply B].
Qed.

Lemma prop_set_NoDup {V : Type} (k : string) (v : V) (ps : list (string * V)) :
  NoDup (map fst ps) -> NoDup (map fst (prop_set k v ps)).
Proof.
  intros H. rewrite prop_set_keys.
  destruct (bool_decide (k ∈ map fst ps)) eqn:B; [exact H|].
  apply bool_decide_eq_false in B.
  apply NoDup_app. split; [exact H|]. split.
  - intros x Hx [->|Hn]%elem_of_cons; [now apply B | inversion Hn].
  - apply NoDup_singleton.
Qed.

Lemma prop_set_Forall {V : Type} (P : string * V -> Prop) (k : string) (v : V)
    (ps : list (string * V)) :
  P (k, v) -> Forall P ps -> Forall P (prop_set k v ps).
Proof.
  intros Hk H. induction H as [|[k' v'] ps Hx H IH]; simpl.
  - now repeat constructor.
  - destruct (String.eqb k k'); constructor; auto.
Qed.

Section Parser.
Variable pv : string -> option (JsValue * string).
Hypothesis pv_plain : forall s v r, pv s = Some (v, r) -> plain v.

Lemma parse_elements_plain (fuel : nat) (s : string) (acc vs : list JsValue)
    (r : string) :
  parse_elements pv fuel s acc = Some (vs, r) ->
  Forall plain acc -> Forall plain vs.
Proof using pv_plain.
  revert s acc. induction fuel as [|fuel IH]; intros s acc; simpl;
    [discriminate|].
  destruct (pv s) as [[v r0]|] eqn:E; [|discriminate].
  intros H Hacc.
  assert (Hv : Forall plain (acc ++ [v])).
  { apply Forall_app. split; [exact Hacc|]. repeat constructor. eauto. }
  repeat case_match; simplify_eq; eauto.
Qed.

Lemma parse_members_plain (fuel : nat) (s : string)
    (acc ps : list (string * JsValue)) (r : string) :
  parse_members pv fuel s acc = Some (ps, r) ->
  NoDup (map fst acc) -> Forall (fun kv => plain kv.2) acc ->
  NoDup (map fst ps) /\ Forall (fun kv => plain kv.2) ps.
Proof using pv_plain.
  revert s acc. induction fuel as [|fuel IH]; intros s acc; simpl;
    [discriminate|].
  intros H Hnd Hacc.
  repeat case_match; simplify_eq;
    match goal with
    | Hp : pv _ = Some (?v, _) |- _ =>
        pose proof (pv_plain _ _ _ Hp) as Hv
    end.
  - split; [now apply prop_set_NoDup | now apply prop_set_Forall].
  - eapply IH; [eassumption | now apply prop_set_NoDup |].
    now apply prop_set_Forall.
Qed.

End Parser.

Lemma parse_value_plain (fuel : nat) (s : string) (v : JsValue) (r : string) :
  parse_value fuel s = Some (v, r) -> plain v /\ plain_inside v.
Proof.
  revert s v r. induction fuel as [|fuel IH]; intros s v r;
    [discriminate|].
  assert (Hpv : forall s v r, parse_value fuel s = Some (v, r) -> plain v)
    by (intros ? ? ? H; now apply IH in H).
  cbn [parse_value].
  destruct (skip_ws s) as [|c r0]; [discriminate|].
  destruct (Ascii.eqb c "[").
  { destruct (parse_elements (parse_value fuel) fuel r0 []) as [[vs r']|] eqn:E.
    - apply parse_elements_plain in E; [|exact Hpv|constructor].
      intros H. repeat case_match; simplify_eq; simpl; auto.
    - intros H. repeat case_match; simplify_eq; simpl; auto. }
  destruct (Ascii.eqb c "{").
  { destruct (parse_members (parse_value fuel) fuel r0 []) as [[ps r']|] eqn:E.
    - apply parse_members_plain in E as [E1 E2];
        [|exact Hpv|apply NoDup_nil_2|constructor].
      intros H. repeat case_match; simplify_eq; simpl; auto using NoDup_nil_2.
    - intros H. repeat case_match; simplify_eq; simpl; auto using NoDup_nil_2. }
  destruct (Ascii.eqb c dquote).
  { destruct (parse_chars r0) as [[t r']|]; intros [= <- <-]; simpl; auto. }
  destruct (startsWith (String c r0) "null"); [intros [= <- <-]; simpl; auto|].
  destruct (startsWith (String c r0) "true"); [intros [= <- <-]; simpl; auto|].
  destruct (startsWith (String c r0) "false"); [intros [= <- <-]; simpl; auto|].
  destruct (parse_number (String c r0)) as [[lexeme r']|];
    intros [= <- <-]; simpl; auto.
Qed.

Lemma prop_get_In {V : Type} (k : string) (v : V) (ps : list (string * V)) :
  prop_get k ps = Some v -> (k, v) ∈ ps.
Proof.
  induction ps as [|[k' v'] ps IH]; simpl; [discriminate|].
  destruct (String.eqb k k') eqn:E.
  - apply String.eqb_eq in E as ->. intros [= ->]. left.
  - intros H. right. auto.
Qed.

Lemma index_keys {A : Type} (f : A -> JsValue) (l : list A) :
  NoDup (map fst (imap (fun i e => (pretty i, f e)) l)).
Proof.
  change (NoDup (fst <$> imap (fun i e => (pretty i, f e)) l)).
  rewrite fmap_imap.
  change (NoDup (imap (fun (i : nat) (_ : A) => pretty i) l)).
  rewrite imap_seq_0. apply (NoDup_fmap_2 _), NoDup_seq.
Qed.

(** The reply object [JSON.parse(data)[0]] is as [JSON.parse] builds it. *)
Lemma reply_plain (data : string) (raw : JsValue) :
  (let* v := JSON_parse data in Read.index0 v) = Return raw -> plain raw.
Proof.
  unfold JSON_parse.
  destruct (parse_value _ data) as [[v r]|] eqn:E; [|discriminate].
  apply parse_value_plain in E as [Hv Hin].
  destruct (skip_ws r); [|discriminate]. simpl.
  destruct v as [ | | | |t|es ps|ps|p ps]; simpl in *; try discriminate.
  - intros [= <-]. exact Logic.I.
  - intros [= <-]. exact Logic.I.
  - destruct t; intros [= <-]; exact Logic.I.
  - intros [= <-]. destruct es as [|e es]; simpl; [exact Logic.I|].
    now inversion Hin.
  - intros [= <-].
    destruct (prop_get "0" ps) as [x|] eqn:G; simpl; [|exact Logic.I].
    apply prop_get_In in G. rewrite Forall_forall in Hin. exact (Hin _ G).
  - destruct Hv.
Qed.

(** The reply object [JSON.parse(data)[0]] binds a key once. *)
Lemma reply_keys (data : string) (raw : JsValue) :
  (let* v := JSON_parse data in Read.index0 v) = Return raw ->
  NoDup (map fst (Read.Object_entries raw)).
Proof.
  intros H. apply reply_plain in H.
  destruct raw as [ | | | |t|es ps|ps|p ps]; simpl in *;
    try apply NoDup_nil_2.
  - apply (index_keys (fun c => JStr (String c EmptyString))).
  - subst ps. rewrite app_nil_r. apply (index_keys id).
  - exact H.
  - destruct H.
Qed.

End JsonFacts.

(** ** The worker process supervisor *)

Module ProcessFacts.
Import Js Process JsFacts.

(** *** The promise store *)

Lemma settle_lookup (i j : nat) (o : PromiseState) (ps : list PromiseState) :
  settle i o ps !! j =
  match ps !! j with
  | Some Pending => if decide (i = j) then Some o else Some Pending
  | other => other
  end.
Proof.
  unfold settle. destruct (decide (i = j)) as [->|Hij].
  - destruct (ps !! j) as [[]|] eqn:E; rewrite ?E; try reflexivity.
    apply list_lookup_insert_eq. eapply lookup_lt_Some; eassumption.
  - destruct (ps !! i) as [[]|]; rewrite ?list_lookup_insert_ne by assumption;
      now destruct (ps !! j) as [[]|].
Qed.

Lemma settle_other (i j : nat) (o : PromiseState) (ps : list PromiseState) :
  i <> j -> settle i o ps !! j = ps !! j.
Proof.
  intros H. rewrite settle_lookup. destruct (decide (i = j)); [contradiction|].
  now destruct (ps !! j) as [[]|].
Qed.

Lemma settle_pending (i : nat) (o : PromiseState) (ps : list PromiseState) :
  ps !! i = Some Pending -> settle i o ps !! i = Some o.
Proof.
  intros H. rewrite settle_lookup, H. now destruct (decide (i = i)).
Qed.

Lemma settle_length (i : nat) (o : PromiseState) (ps : list PromiseState) :
  length (settle i o ps) = length ps.
Proof.
  unfold settle. destruct (ps !! i) as [[]|]; rewrite ?length_insert; reflexivity.
Qed.

Lemma set_buff_same (st : ExifToolProcess) : set_buff (buff st) st = st.
Proof. now destruct st. Qed.

Lemma set_promises_same (st : ExifToolProcess) :
  set_promises (promises st) st = st.
Proof. now destruct st. Qed.

(** *** [DeferredReader.apply] *)

(** [apply] touches the promise of its reader and the console, nothing
    else. *)
Lemma apply_frame (dr : DeferredReader) (input : string) (st : ExifToolProcess) :
  let st' := (apply dr input st).1 in
  _ended st' = _ended st /\ buff st' = buff st /\ readers st' = readers st /\
  stdin st' = stdin st /\
  forall i, i <> promise dr -> promises st' !! i = promises st !! i.
Proof.
  unfold apply. cbv zeta.
  destruct (reader dr input) as [result|e]; [|tauto].
  destruct (0 <? length (warnings dr));
    [destruct (String.eqb (typeof result) "object");
      [destruct (set_property result "warnings" _)|]|];
    simpl; repeat split; auto using settle_other.
Qed.

(** When the decode function returns, [apply] fulfils the pending promise
    with the decoded value, the warnings attached where they can be. *)
Lemma apply_fulfils (dr : DeferredReader) (input : string)
    (st : ExifToolProcess) (v v' : JsValue) :
  reader dr input = Return v ->
  with_warnings v (warnings dr) = Return v' ->
  promises st !! promise dr = Some Pending ->
  promises (apply dr input st).1 !! promise dr = Some (Fulfilled v').
Proof.
  intros Hr Hw Hp. unfold apply. rewrite Hr. unfold with_warnings in Hw.
  destruct (0 <? length (warnings dr)); simpl in Hw.
  - destruct (String.eqb (typeof v) "object").
    + rewrite Hw. simpl. now apply settle_pending.
    + injection Hw as <-. simpl. now apply settle_pending.
  - injection Hw as <-. simpl. now apply settle_pending.
Qed.

(** When the decode function throws, [apply] throws and settles nothing. *)
Lemma apply_throw (dr : DeferredReader) (input : string)
    (st : ExifToolProcess) (e : JsError) :
  reader dr input = Throw e -> apply dr input st = (st, Throw e).
Proof. intros H. unfold apply. now rewrite H. Qed.

(** *** Framing *)

Lemma onData_no_sentinel (data : string) (st : ExifToolProcess) :
  endsWith (trim (buff st +:+ data)) ready = false ->
  onData data st = (set_buff (trim (buff st +:+ data)) st, Return tt).
Proof. intros H. unfold onData. cbv zeta. simpl. now rewrite H. Qed.

Lemma feed_quiet (chunks : list string) (st : ExifToolProcess) :
  quiet chunks (buff st) = true ->
  feed chunks st = set_buff (accumulate chunks (buff st)) st.
Proof.
  revert st. induction chunks as [|d ds IH]; intros st H; simpl in *.
  - symmetry. apply set_buff_same.
  - apply andb_prop in H as [H1 H2]. apply negb_true_iff in H1.
    unfold feed, run in *. simpl. rewrite (onData_no_sentinel _ _ H1). simpl.
    rewrite IH by exact H2. reflexivity.
Qed.

(** *** Calls that nothing refers to any more *)

Lemma reject_all_state (x : JsValue) (rs : list DeferredReader)
    (st : ExifToolProcess) :
  fold_left (fun s r => reject r x s) rs st =
  set_promises
    (fold_left (fun ps r => settle (promise r) (Rejected x) ps) rs (promises st))
    st.
Proof.
  revert st. induction rs as [|r rs IH]; intros st; simpl.
  - symmetry. apply set_promises_same.
  - rewrite IH. now destruct st.
Qed.

Lemma reject_all_lookup (x : JsValue) (rs : list DeferredReader)
    (ps : list PromiseState) (i : nat) :
  fold_left (fun ps r => settle (promise r) (Rejected x) ps) rs ps !! i =
  match ps !! i with
  | Some Pending =>
      if decide (i ∈ map promise rs) then Some (Rejected x) else Some Pending
  | other => other
  end.
Proof.
  revert ps. induction rs as [|r rs IH]; intros ps; simpl.
  - now destruct (ps !! i) as [[]|].
  - rewrite IH, settle_lookup.
    destruct (ps !! i) as [[]|]; try reflexivity.
    destruct (decide (promise r = i)) as [->|Hne].
    + destruct (decide (i ∈ i :: map promise rs)) as [_|H];
        [reflexivity | exfalso; apply H; left].
    + destruct (decide (i ∈ map promise rs)) as [Hin|Hni];
        destruct (decide (i ∈ promise r :: map promise rs)) as [Hin'|Hni'];
        try reflexivity.
      * exfalso. apply Hni'. now right.
      * exfalso. apply elem_of_cons in Hin' as [->|?]; [now apply Hne | auto].
Qed.

Lemma step_length (st : ExifToolProcess) (ev : Event) :
  length (promises st) <= length (promises (step st ev)).
Proof.
  destruct ev as [d|e|c|r cmds|]; simpl.
  - unfold onData. cbv zeta.
    destruct (endsWith _ ready); [|reflexivity].
    simpl. destruct (readers st) as [|r rs]; [reflexivity|].
    unfold apply. destruct (reader r _); [|reflexivity].
    destruct (0 <? _); [destruct (String.eqb _ _);
      [destruct (set_property _ _ _)|]|]; simpl;
      rewrite ?settle_length; reflexivity.
  - unfold onError. destruct (readers st); reflexivity.
  - unfold onClose. cbv zeta. rewrite reject_all_state. simpl.
    generalize (promises st).
    induction (readers st) as [|r rs IH]; intros ps; simpl; [reflexivity|].
    etransitivity; [|apply IH]. now rewrite settle_length.
  - rewrite length_app. simpl. lia.
  - reflexivity.
Qed.

(** A pending promise that no reader of the queue holds is out of reach: no
    event changes it. *)
Lemma step_unreferenced (p : nat) (st : ExifToolProcess) (ev : Event) :
  p < length (promises st) -> unreferenced p st ->
  unreferenced p (step st ev) /\
  promises (step st ev) !! p = promises st !! p.
Proof.
  intros Hlt Hun. destruct ev as [d|e|c|r cmds|]; simpl.
  - unfold onData. cbv zeta.
    destruct (endsWith _ ready); [|split; [exact Hun | reflexivity]].
    simpl. destruct (readers st) as [|r rs] eqn:Er.
    + split; [|reflexivity]. intros r Hr. apply Hun. exact Hr.
    + match goal with |- context [apply r ?t ?s] =>
        destruct (apply_frame r t s) as (_ & _ & Hrs & _ & Hps) end.
      split.
      * intros r' Hr'. rewrite Hrs in Hr'. simpl in Hr'.
        apply Hun. rewrite Er. now right.
      * rewrite Hps; [reflexivity|].
        intros ->. eapply Hun; [|reflexivity]. rewrite Er. left.
  - unfold onError. destruct (readers st) as [|r rs] eqn:Er.
    + split; [|reflexivity]. intros r Hr. apply Hun. exact Hr.
    + split; [|reflexivity]. intros r' Hr'. simpl in Hr'.
      apply elem_of_cons in Hr' as [->|Hr'].
      * simpl. apply Hun. rewrite Er. left.
      * apply Hun. rewrite Er. now right.
  - unfold onClose. cbv zeta. split.
    + rewrite reject_all_state. exact Hun.
    + rewrite reject_all_state. simpl. rewrite reject_all_lookup.
      destruct (promises st !! p) as [[]|]; try reflexivity.
      destruct (decide (p ∈ map promise (readers st))) as [Hin|_];
        [|reflexivity].
      apply list_elem_of_In, in_map_iff in Hin as (r & Hp & Hr).
      apply list_elem_of_In in Hr.
      exfalso. eapply Hun; [exact Hr | exact Hp].
  - split.
    + intros r' Hr'. simpl in Hr'. apply elem_of_app in Hr' as [Hr'|Hr'].
      * now apply Hun.
      * apply list_elem_of_singleton in Hr' as ->. simpl. lia.
    + simpl. now apply lookup_app_l.
  - split; [exact Hun | reflexivity].
Qed.

Lemma run_unreferenced (p : nat) (evs : list Event) (st : ExifToolProcess) :
  p < length (promises st) -> unreferenced p st ->
  promises (run evs st) !! p = promises st !! p.
Proof.
  revert st. induction evs as [|ev evs IH]; intros st Hlt Hun; [reflexivity|].
  destruct (step_unreferenced p st ev Hlt Hun) as [Hun' Hp].
  unfold run in *. simpl. rewrite IH; [exact Hp | | exact Hun'].
  eapply Nat.lt_le_trans; [exact Hlt | apply step_length].
Qed.

(** Calls on the process object settle nothing. *)
Lemma run_calls_lookup (evs : list Event) (st : ExifToolProcess) (i : nat) :
  forallb is_call evs = true -> i < length (promises st) ->
  promises (run evs st) !! i = promises st !! i.
Proof.
  revert st. induction evs as [|ev evs IH]; intros st Hc Hlt; [reflexivity|].
  simpl in Hc. apply andb_prop in Hc as [Hev Hevs].
  unfold run in *. simpl. rewrite IH.
  - destruct ev; try discriminate Hev; simpl; [now apply lookup_app_l | reflexivity].
  - exact Hevs.
  - eapply Nat.lt_le_trans; [exact Hlt | apply step_length].
Qed.

(** X1. Framing, on the buffer as [onData] keeps it, trimmed at every chunk.
    Chunks that never bring the buffer to end with the sentinel complete no
    call: apart from the buffer the process is as it was. When a further
    chunk brings the buffer to end with the sentinel, the buffer is emptied,
    the oldest reader leaves the queue and it alone is applied, to exactly
    the text the buffer holds before the sentinel: every other promise is
    untouched, and the reader's pending promise is fulfilled with what its
    decode function returns on that text. *)
Lemma onData_framing (st : ExifToolProcess) (chunks : list string)
    (data : string) :
  quiet chunks (buff st) = true ->
  let st1 := feed chunks st in
  let acc := trim (buff st1 +:+ data) in
  let st2 := (onData data st1).1 in
  st1 = set_buff (accumulate chunks (buff st)) st /\
  if endsWith acc ready then
    exists text : string,
      acc = text +:+ ready /\ buff st2 = "" /\
      match readers st with
      | [] => readers st2 = [] /\ promises st2 = promises st
      | r :: rs =>
          readers st2 = rs /\
          onData data st1 = apply r text (set_readers rs (set_buff "" st1)) /\
          (forall i, i <> promise r -> promises st2 !! i = promises st !! i) /\
          (forall v v',
              reader r text = Return v ->
              with_warnings v (warnings r) = Return v' ->
              promises st !! promise r = Some Pending ->
              promises st2 !! promise r = Some (Fulfilled v'))
      end
  else
    st2 = set_buff acc st1 /\ readers st2 = readers st /\
    promises st2 = promises st.
Proof.
  intros Hq. cbv zeta. rewrite (feed_quiet _ _ Hq).
  set (b := accumulate chunks (buff st)).
  split; [reflexivity|].
  change (buff (set_buff b st)) with b.
  destruct (endsWith (trim (b +:+ data)) ready) eqn:E.
  - exists (slice_to_neg (trim (b +:+ data)) (String.length ready)).
    split; [now apply endsWith_slice|].
    unfold onData. cbv zeta.
    change (buff (set_buff (trim (buff (set_buff b st) +:+ data))
                    (set_buff b st)))
      with (trim (b +:+ data)).
    rewrite E.
    change (readers (set_buff "" (set_buff (trim (buff (set_buff b st) +:+ data))
                                    (set_buff b st))))
      with (readers st).
    destruct (readers st) as [|r rs] eqn:Er.
    + simpl. auto.
    + set (text := slice_to_neg (trim (b +:+ data)) (String.length ready)).
      set (st0 := set_readers rs (set_buff "" _)).
      destruct (apply_frame r text st0) as (_ & Hb & Hrs & _ & Hps).
      repeat split.
      * exact Hb.
      * exact Hrs.
      * exact Hps.
      * intros v v' Hv Hw Hp. now apply apply_fulfils with (v := v).
  - rewrite onData_no_sentinel by exact E. simpl. auto.
Qed.

(** The version request of a new process, answered in two chunks. *)
Lemma onData_framing_witness :
  let st := new_ExifToolProcess in
  quiet ["12."] (buff st) = true /\
  promises (feed ["12."] st) !! versionPromise = Some Pending /\
  promises (feed ["12."; "40" +:+ String "010" ready] st) !! versionPromise
    = Some (Fulfilled (JStr "12.40")).
Proof.
  cbv zeta.
  pose proof (onData_framing new_ExifToolProcess ["12."]
                ("40" +:+ String "010" ready) eq_refl) as H.
  cbv zeta in H. destruct H as [H1 H2].
  split; [reflexivity|]. split; [now rewrite H1|].
  vm_compute. reflexivity.
Defined.

(** C1, at the failing input. The worker answers a read with
    [[{"Make": "Canon EOS"}]] and the sentinel. When the reply arrives in one
    chunk, the call is completed with it. When it arrives in two chunks and
    the first ends after the space of the value, [onData] trims the space
    away with the end of its buffer: the text before the sentinel that the
    call is completed with reads [CanonEOS]. *)
Theorem chunk_boundary_whitespace_is_lost :
  let st := (call_session "a.jpg").1 in
  let p := (call_session "a.jpg").2 in
  promises st !! p = Some Pending /\
  promises (feed [reply_head +:+ reply_tail] st) !! p
    = Some (Fulfilled (JArr [JObj [("Make", JStr "Canon EOS")]] [])) /\
  promises (feed [reply_head; reply_tail] st) !! p
    = Some (Fulfilled (JArr [JObj [("Make", JStr "CanonEOS")]] [])).
Proof. cbv zeta. repeat split; vm_compute; reflexivity. Qed.

(** A decode function that throws takes its call out of the queue and leaves
    the promise as it was. *)
Lemma onData_decode_throw (data : string) (st : ExifToolProcess)
    (r : DeferredReader) (rs : list DeferredReader) (e : JsError) :
  readers st = r :: rs ->
  endsWith (trim (buff st +:+ data)) ready = true ->
  reader r (slice_to_neg (trim (buff st +:+ data)) (String.length ready))
    = Throw e ->
  (onData data st).2 = Throw e /\
  readers (onData data st).1 = rs /\
  promises (onData data st).1 = promises st.
Proof.
  intros Hr He Hd. unfold onData. cbv zeta. simpl. rewrite He, Hr.
  rewrite (apply_throw _ _ _ _ Hd). auto.
Qed.

(** C4, at the failing input. The file to read does not exist: the worker
    writes its diagnostic on the error stream and the sentinel alone on the
    output stream. [JSON.parse] throws on the empty reply, inside
    [DeferredReader.apply] and before [this._resolve]: the exception leaves
    [onData], the reader has left the queue, and whatever happens afterwards
    (further data, the exit of the worker, further calls) the promise of the
    read stays pending. *)
Theorem decode_exception_never_settles :
  let st := (read_session "missing.jpg"
               ("File not found: /home/u/missing.jpg" +:+ nl)).1 in
  let p := (read_session "missing.jpg"
              ("File not found: /home/u/missing.jpg" +:+ nl)).2 in
  let st' := (onData (ready +:+ nl) st).1 in
  promises st !! p = Some Pending /\
  map promise (readers st) = [p] /\
  (onData (ready +:+ nl) st).2 = Throw SyntaxError /\
  readers st' = [] /\
  forall evs : list Event, promises (run evs st') !! p = Some Pending.
Proof.
  cbv zeta. repeat split; try reflexivity.
  intros evs. rewrite run_unreferenced.
  - reflexivity.
  - vm_compute. lia.
  - intros r Hr. change (r ∈ @nil DeferredReader) in Hr. inversion Hr.
Qed.

(** *** The exit of the worker *)

Lemma onClose_lookup (code : string) (st : ExifToolProcess) (i : nat) :
  promises (onClose code st) !! i =
  match promises st !! i with
  | Some Pending =>
      if decide (i ∈ map promise (readers st))
      then Some (Rejected (JStr "ExifTool closed")) else Some Pending
  | other => other
  end.
Proof.
  unfold onClose. cbv zeta. rewrite reject_all_state. simpl.
  apply reject_all_lookup.
Qed.

Lemma onClose_readers (code : string) (st : ExifToolProcess) :
  readers (onClose code st) = readers st.
Proof. unfold onClose. cbv zeta. now rewrite reject_all_state. Qed.

(** [execute] does not read [_ended]. *)
Lemma execute_ignores_ended (b : bool) (r : OutputReader) (cmds : list string)
    (st : ExifToolProcess) :
  execute r cmds (set_ended b st) =
  (set_ended b (execute r cmds st).1, (execute r cmds st).2).
Proof. reflexivity. Qed.

(** C3, as the code has it. When the worker exits, the process is ended and
    every call of the queue that is still pending is rejected with
    ['ExifTool closed']; the promises of no other call change. [execute] has
    no guard on the ended state: a call made afterwards is enqueued like any
    other, with a pending promise, and no later call on the process object
    settles it. *)
Theorem close_rejects_queued_calls (st : ExifToolProcess) (code : string) :
  let st' := onClose code st in
  ended st' = true /\
  (forall r, r ∈ readers st ->
     promises st !! promise r = Some Pending ->
     promises st' !! promise r = Some (Rejected (JStr "ExifTool closed"))) /\
  (forall i, i ∉ map promise (readers st) ->
     promises st' !! i = promises st !! i) /\
  (forall (evs1 evs2 : list Event) (r : OutputReader) (cmds : list string),
     forallb is_call evs1 = true -> forallb is_call evs2 = true ->
     let call := execute r cmds (run evs1 st') in
     readers call.1 =
       readers (run evs1 st') ++ [mkDeferredReader r [] call.2] /\
     promises call.1 !! call.2 = Some Pending /\
     promises (run evs2 call.1) !! call.2 = Some Pending).
Proof.
  cbv zeta. split; [reflexivity|]. split; [|split].
  - intros r Hr Hp. rewrite onClose_lookup, Hp.
    destruct (decide (promise r ∈ map promise (readers st))) as [_|Hn];
      [reflexivity|].
    exfalso. apply Hn. apply list_elem_of_In, in_map, list_elem_of_In, Hr.
  - intros i Hi. rewrite onClose_lookup.
    destruct (promises st !! i) as [[]|]; try reflexivity.
    now destruct (decide (i ∈ map promise (readers st))).
  - intros evs1 evs2 r cmds H1 H2.
    set (st1 := run evs1 (onClose code st)).
    assert (Hp : promises (execute r cmds st1).1 !! (execute r cmds st1).2
                 = Some Pending).
    { simpl. rewrite lookup_app_r by lia. now rewrite Nat.sub_diag. }
    split; [reflexivity|]. split; [exact Hp|].
    rewrite run_calls_lookup; [exact Hp | exact H2 |].
    simpl. rewrite length_app. simpl. lia.
Qed.

(** C3 as stated fails: the process has ended, and a call is accepted all the
    same. It joins the queue with a pending promise and its command is
    written to the input of the worker that is gone. *)
Lemma ended_process_accepts_call :
  let st := onClose "0" (feed ["12.40" +:+ nl +:+ ready +:+ nl]
                           new_ExifToolProcess) in
  let call := execute StringReader ["-ver"] st in
  ended st = true /\
  readers st = [] /\
  map promise (readers call.1) = [call.2] /\
  promises call.1 !! call.2 = Some Pending /\
  stdin call.1 = stdin st ++ ["-ver" +:+ nl +:+ "-execute" +:+ nl].
Proof. cbv zeta. repeat split; reflexivity. Qed.

(** *** Warnings *)

Lemma prop_get_set {V : Type} (k : string) (v : V) (ps : list (string * V)) :
  prop_get k (prop_set k v ps) = Some v.
Proof.
  induction ps as [|[k' v'] ps IH]; simpl.
  - now rewrite String.eqb_refl.
  - destruct (String.eqb k k') eqn:E; simpl; rewrite ?String.eqb_refl, ?E; auto.
Qed.

(** [onError] hands the diagnostic to the oldest reader of the queue. *)
Lemma onError_oldest (error : string) (st : ExifToolProcess)
    (r : DeferredReader) (rs : list DeferredReader) :
  readers st = r :: rs ->
  readers (onError error st) = addWarning error r :: rs /\
  console (onError error st) = console st.
Proof. intros H. unfold onError. now rewrite H. Qed.

(** X29. What [DeferredReader.apply] does with warnings, result by result.
    A reader that holds warnings and whose decoded result is an object other
    than [null] (an array is one) resolves its call with that object, the
    warnings stored under its key [warnings], and prints nothing; when the
    result is a string, a number, a boolean or [undefined], the warnings are
    printed with [console.dir] and the call is resolved with the bare
    result; when the result is [null], the assignment throws a [TypeError]
    and [apply] changes nothing: the promise stays pending. *)
Theorem apply_delivers_warnings (dr : DeferredReader) (input : string)
    (st : ExifToolProcess) (result : JsValue) :
  reader dr input = Return result ->
  warnings dr <> [] ->
  promises st !! promise dr = Some Pending ->
  let st' := (apply dr input st).1 in
  let ws := JArr (map JStr (warnings dr)) [] in
  match result with
  | JObj ps =>
      promises st' !! promise dr
        = Some (Fulfilled (JObj (prop_set "warnings" ws ps))) /\
      prop_get "warnings" (prop_set "warnings" ws ps) = Some ws /\
      console st' = console st
  | JArr es ps =>
      promises st' !! promise dr
        = Some (Fulfilled (JArr es (prop_set "warnings" ws ps))) /\
      prop_get "warnings" (prop_set "warnings" ws ps) = Some ws /\
      console st' = console st
  | JInherit proto ps =>
      promises st' !! promise dr
        = Some (Fulfilled (JInherit proto (prop_set "warnings" ws ps))) /\
      prop_get "warnings" (prop_set "warnings" ws ps) = Some ws /\
      console st' = console st
  | JNull => apply dr input st = (st, Throw TypeError)
  | JUndefined | JBool _ | JNum _ | JStr _ =>
      promises st' !! promise dr = Some (Fulfilled result) /\
      console st' = console st ++ [console_dir (warnings dr)]
  end.
Proof.
  intros Hr Hw Hp. cbv zeta. unfold apply. rewrite Hr.
  destruct (warnings dr) as [|w ws] eqn:Ew; [contradiction|].
  change (0 <? length (w :: ws)) with true. cbv iota.
  destruct result; simpl; auto using settle_pending, prop_get_set.
Qed.

(** The version string, with a diagnostic of the worker on the error
    stream. *)
Lemma apply_delivers_warnings_witness :
  let dr := mkDeferredReader StringReader ["Warning: x"] 0 in
  let st' := (apply dr " 12.40 " (set_readers [] new_ExifToolProcess)).1 in
  promises st' !! 0 = Some (Fulfilled (JStr "12.40")) /\
  console st' = [console_dir ["Warning: x"]].
Proof.
  cbv zeta.
  exact (apply_delivers_warnings
           (mkDeferredReader StringReader ["Warning: x"] 0) " 12.40 "
           (set_readers [] new_ExifToolProcess) (JStr "12.40")
           eq_refl ltac:(discriminate) eq_refl).
Defined.

(** C10, at the failing input. A read is pending, the worker writes a
    warning on its error stream and answers [null]. [typeof null] is
    ['object']: [DeferredReader.apply] takes the branch that attaches the
    warnings, the assignment [result['warnings'] = ...] throws a [TypeError]
    before [this._resolve], nothing is printed, the reader has left the queue
    and, whatever happens afterwards, the promise of the read stays pending:
    the warning reaches neither the caller nor the console. The same reply
    without the warning resolves the read with [null]. *)
Theorem null_result_with_warnings :
  let quiet_st := (call_session "a.jpg").1 in
  let st := (read_session "a.jpg" ("Warning: x" +:+ nl)).1 in
  let p := (read_session "a.jpg" ("Warning: x" +:+ nl)).2 in
  let reply := "null" +:+ nl +:+ ready +:+ nl in
  let st' := (onData reply st).1 in
  JSON_parse ("null" +:+ nl) = Return JNull /\
  promises st !! p = Some Pending /\
  map promise (readers st) = [p] /\
  (onData reply st).2 = Throw TypeError /\
  console st' = console st /\
  readers st' = [] /\
  (forall evs : list Event, promises (run evs st') !! p = Some Pending) /\
  promises (onData reply quiet_st).1 !! p = Some (Fulfilled JNull).
Proof.
  cbv zeta. repeat split; try reflexivity.
  intros evs. rewrite run_unreferenced.
  - reflexivity.
  - vm_compute. lia.
  - intros r Hr. change (r ∈ @nil DeferredReader) in Hr. inversion Hr.
Qed.

End ProcessFacts.

(** ** The reply of a write *)

Module WriteFacts.
Import Js Write JsFacts.

Lemma match_here_lits (p s : string) : match_here (lits p) s = startsWith s p.
Proof.
  revert s. induction p as [|c p IH]; intros [|d s]; simpl; try reflexivity.
  rewrite IH. now destruct (Ascii.eqb c d).
Qed.

Lemma match_here_app_lits (p : string) (re : list Atom) (s : string) :
  match_here (lits p ++ re) s =
  startsWith s p && match_here re (drop (String.length p) s).
Proof.
  revert s. induction p as [|c p IH]; intros [|d s]; simpl; try reflexivity.
  rewrite IH. now destruct (Ascii.eqb c d).
Qed.

Lemma startsWith_append (s p r : string) :
  startsWith s (p +:+ r) = startsWith s p && startsWith (drop (String.length p) s) r.
Proof.
  revert s. induction p as [|c p IH]; intros [|d s];
    rewrite ?append_nil_l, ?append_cons; simpl; try reflexivity.
  rewrite IH. now destruct (Ascii.eqb c d).
Qed.

(** At any position, the pattern matches exactly one of its two readings. *)
Lemma successRE_here (s : string) :
  match_here successRE s =
  startsWith s "1 image file updated" || startsWith s "1 image files updated".
Proof.
  unfold successRE. rewrite match_here_app_lits.
  change "1 image file updated" with ("1 image file" +:+ " updated").
  change "1 image files updated" with ("1 image file" +:+ "s updated").
  rewrite !startsWith_append.
  destruct (startsWith s "1 image file"); [|reflexivity].
  cbn [andb]. generalize (drop (String.length "1 image file") s). intros t.
  change ([Opt "s"] ++ lits " updated") with (Opt "s"%char :: lits " updated").
  destruct t as [|d t].
  - reflexivity.
  - cbn [match_here]. rewrite !match_here_lits.
    change "s updated" with (String "s" " updated").
    cbn [startsWith]. apply orb_comm.
Qed.

Lemma successRE_exec (s : string) :
  exec successRE s =
  includes s "1 image file updated" || includes s "1 image files updated".
Proof.
  induction s as [|c s IH].
  - reflexivity.
  - cbn [exec includes]. rewrite IH, successRE_here.
    destruct (startsWith (String c s) "1 image file updated"),
      (startsWith (String c s) "1 image files updated"),
      (includes s "1 image file updated"),
      (includes s "1 image files updated"); reflexivity.
Qed.

(** C5, as the code has it. [parse] succeeds exactly when no error was
    passed in, the error list is empty and the trimmed reply contains
    [1 image file updated] or [1 image files updated]. An error passed in is
    thrown as it is; a non-empty error list fails with its entries joined by
    semicolons; any other reply fails with [No success message: ] followed by
    the trimmed reply. *)
Theorem parse_succeeds_iff (task : WriteTask) (data : string)
    (err : option JsError) :
  (parse task data err = Return tt <->
     err = None /\ errors task = [] /\
     includes (trim data) "1 image file updated"
       || includes (trim data) "1 image files updated" = true) /\
  (forall e, err = Some e -> parse task data err = Throw e) /\
  (err = None -> errors task <> [] ->
     parse task data err = Throw (Error (join ";" (errors task)))) /\
  (err = None -> errors task = [] ->
     includes (trim data) "1 image file updated"
       || includes (trim data) "1 image files updated" = false ->
     parse task data err
       = Throw (Error ("No success message: " +:+ trim data))).
Proof.
  unfold parse. rewrite successRE_exec.
  destruct err as [e|].
  - repeat split; try discriminate; try tauto.
    + intros (H & _); discriminate.
    + now intros e' [= ->].
  - destruct (errors task) as [|x xs] eqn:E; cbn [length Nat.ltb Nat.leb].
    + destruct (includes (trim data) "1 image file updated"
                || includes (trim data) "1 image files updated") eqn:M;
        repeat split; try discriminate; try tauto.
      intros (_ & _ & H); discriminate.
    + repeat split; try discriminate; try tauto.
      intros (_ & H & _); discriminate.
Qed.

(** C5 as stated fails. A reply for two files is not a success; the pattern
    is not anchored, so a reply that merely contains the success text is one;
    and the failure on a non-empty error list carries the errors, not the
    reply. *)
Lemma two_files_updated_is_rejected :
  parse (mkWriteTask "/a.jpg" [] []) "2 image files updated" None
    = Throw (Error "No success message: 2 image files updated") /\
  parse (mkWriteTask "/a.jpg" [] []) "not 1 image file updated, sorry" None
    = Return tt /\
  parse (mkWriteTask "/a.jpg" [] ["boom"]) "1 image files updated" None
    = Throw (Error "boom").
Proof. repeat split; reflexivity. Qed.

End WriteFacts.

(** ** The reply of a read *)

Module ReadFacts.
Import Js Read JsFacts.

Section Facts.
Context {C : Classes}.
Variable I : Imports (C := C).
Variable task : ReadTask (C := C).

Implicit Types (raw rd value : JsValue) (ws : list string) (key : string).

Lemma tagName_reserved key : key ∈ reserved -> tagName_ task key = key.
Proof.
  unfold tagName_, reserved. intros H.
  destruct (degroup task); [|reflexivity].
  repeat (apply elem_of_cons in H as [->|H]; [reflexivity|]).
  inversion H.
Qed.

Lemma reserved_not_gps key :
  key ∈ reserved -> gps_prefixed (tagName_ task key) = false.
Proof.
  intros H. rewrite (tagName_reserved _ H). unfold reserved in H.
  repeat (apply elem_of_cons in H as [->|H]; [reflexivity|]).
  inversion H.
Qed.

Lemma passthrough_not_gps (tagName : string) :
  tagName ∈ PassthroughTags -> gps_prefixed tagName = false.
Proof.
  unfold PassthroughTags. intros H.
  repeat (apply elem_of_cons in H as [->|H]; [reflexivity|]).
  inversion H.
Qed.

(** *** Leaves *)

Lemma parseTag_nullish rd (tagName : string) value ws :
  nullish value = true -> parseTag I task rd tagName value ws = (undefined, ws).
Proof. intros H. destruct value; simpl in *; now rewrite ?H. Qed.

Lemma parseTag_gps_invalid rd (tagName : string) value ws :
  gps_prefixed tagName = true ->
  gpsIsInvalid I task rd = true ->
  parseTag I task rd tagName value ws = (undefined, ws).
Proof.
  intros Hg Hi.
  destruct (nullish value) eqn:Hn; [now apply parseTag_nullish|].
  assert (Hp : bool_decide (tagName ∈ PassthroughTags) = false).
  { apply bool_decide_eq_false. intros H%passthrough_not_gps. congruence. }
  unfold gps_prefixed in Hg.
  destruct value; simpl in *; rewrite ?Hn, ?Hp, ?Hg, ?Hi; try reflexivity;
    discriminate.
Qed.

(** *** The loop of [#parseTags] *)

Lemma parseEntry_other rd (acc : gmap string Tag * list string)
    (entry : string * JsValue) key :
  entry.1 <> key -> (parseEntry I task rd acc entry).1 !! key = acc.1 !! key.
Proof.
  intros H. unfold parseEntry.
  destruct (parseTag I task rd (tagName_ task entry.1) entry.2 acc.2) as [v ws'].
  simpl. destruct (tag_nullish v || String.eqb entry.1 "__proto__");
    [reflexivity|].
  now rewrite lookup_insert_ne.
Qed.

Lemma fold_parseEntry_absent rd (es : list (string * JsValue))
    (acc : gmap string Tag * list string) key :
  key ∉ map fst es ->
  (fold_left (parseEntry I task rd) es acc).1 !! key = acc.1 !! key.
Proof.
  revert acc. induction es as [|e es IH]; intros acc H; [reflexivity|].
  simpl. rewrite IH.
  - apply parseEntry_other. intros E. apply H. simpl. rewrite E. left.
  - intros E. apply H. simpl. now right.
Qed.

(** A tag whose every binding in the reply decodes to nothing gets no entry
    of its own. *)
Lemma fold_parseEntry_skipped rd (es : list (string * JsValue))
    (acc : gmap string Tag * list string) key :
  (forall value ws, (key, value) ∈ es ->
     tag_nullish (parseTag I task rd (tagName_ task key) value ws).1 = true) ->
  (fold_left (parseEntry I task rd) es acc).1 !! key = acc.1 !! key.
Proof.
  revert acc. induction es as [|[k v] es IH]; intros acc H; [reflexivity|].
  simpl. rewrite IH.
  - destruct (decide (k = key)) as [->|Hk]; [|now apply parseEntry_other].
    unfold parseEntry. simpl.
    pose proof (H v acc.2 ltac:(left)) as Hn.
    destruct (parseTag I task rd (tagName_ task key) v acc.2) as [t ws'].
    simpl in *. now rewrite Hn.
  - intros value ws Hin. apply H. now right.
Qed.

(** A tag bound once in the reply: its entry is what [#parseTag] makes of the
    value, and the entry it had before when that is nothing or when the key
    is [__proto__]. *)
Lemma fold_parseEntry_once rd (es : list (string * JsValue))
    (acc : gmap string Tag * list string) key value :
  NoDup (map fst es) -> (key, value) ∈ es ->
  exists ws,
    (fold_left (parseEntry I task rd) es acc).1 !! key =
    let t := (parseTag I task rd (tagName_ task key) value ws).1 in
    if tag_nullish t || String.eqb key "__proto__" then acc.1 !! key
    else Some t.
Proof.
  revert acc. induction es as [|[k v] es IH]; intros acc Hnd Hin.
  - inversion Hin.
  - simpl in Hnd. apply NoDup_cons in Hnd as [Hk Hnd].
    apply elem_of_cons in Hin as [[= <- <-]|Hin].
    + exists acc.2. simpl. rewrite fold_parseEntry_absent by exact Hk.
      unfold parseEntry. simpl.
      destruct (parseTag I task rd (tagName_ task key) value acc.2) as [t ws'].
      simpl. destruct (tag_nullish t || String.eqb key "__proto__");
        [reflexivity|].
      now rewrite lookup_insert_eq.
    + destruct (IH (parseEntry I task rd acc (k, v)) Hnd Hin) as [ws Hws].
      exists ws. simpl. rewrite Hws. cbv zeta.
      destruct (tag_nullish _ || String.eqb key "__proto__"); [|reflexivity].
      apply parseEntry_other. simpl. intros ->. apply Hk.
      apply list_elem_of_In, in_map_iff. exists (key, value).
      split; [reflexivity | now apply list_elem_of_In].
Qed.

(** [#parseTags] around its loop: the record the loop starts from holds the
    fields of the constructor and the timezone, and what follows the loop
    sets [errors] and [warnings] only. *)
Lemma parseTags_loop raw :
  exists acc0 : gmap string Tag * list string,
    (forall key, key <> "errors" -> key <> "warnings" ->
       (parseTags I task raw).1 !! key =
       (fold_left (parseEntry I task (rawDegrouped_of task raw))
          (Object_entries raw) acc0).1 !! key) /\
    (forall key, key ∉ reserved -> acc0.1 !! key = None) /\
    acc0.1 !! "SourceFile" = Some (TRaw (JStr (sourceFile task))).
Proof.
  unfold parseTags. cbv zeta.
  set (rd := rawDegrouped_of task raw).
  match goal with
  | |- context [fold_left _ _ ?a] => exists a
  end.
  split; [|split].
  - intros key He Hw.
    destruct (fold_left _ _ _) as [tags2 ws1].
    destruct (errorsAndWarnings I (errors task) ws1 tags2) as [es wns].
    simpl. now rewrite !lookup_insert_ne by congruence.
  - intros key Hr. unfold reserved in Hr. simpl.
    destruct (extractTzOffset I task rd).1;
      rewrite ?lookup_insert_ne, ?lookup_singleton_ne; try reflexivity;
      intros <-; apply Hr; repeat constructor.
  - simpl. destruct (extractTzOffset I task rd).1;
      now rewrite ?lookup_insert_ne, ?lookup_singleton_eq by discriminate.
Qed.

(** A tag that is not a field of the record's own and whose every binding in
    the reply decodes to nothing has no entry in the record. *)
Lemma parseTags_skipped raw key :
  key ∉ reserved ->
  (forall value ws, (key, value) ∈ Object_entries raw ->
     tag_nullish
       (parseTag I task (rawDegrouped_of task raw) (tagName_ task key)
          value ws).1 = true) ->
  (parseTags I task raw).1 !! key = None.
Proof.
  intros Hr Hs. destruct (parseTags_loop raw) as (acc0 & Hl & Hn & _).
  rewrite Hl.
  - rewrite fold_parseEntry_skipped by exact Hs. now apply Hn.
  - intros ->. apply Hr. unfold reserved. repeat constructor.
  - intros ->. apply Hr. unfold reserved. repeat constructor.
Qed.

Lemma get_entry raw key (s : string) :
  plain raw -> get raw key = JStr s -> (key, JStr s) ∈ Object_entries raw.
Proof.
  intros Hp. destruct raw; simpl in Hp |- *; try discriminate;
    try contradiction.
  - destruct (prop_get key props) eqn:E; simpl; [|discriminate].
    intros ->. apply elem_of_app. right. now apply JsonFacts.prop_get_In.
  - destruct (prop_get key props) eqn:E; simpl; [|discriminate].
    intros ->. now apply JsonFacts.prop_get_In.
Qed.

Lemma NoDup_fst_unique {V : Type} (es : list (string * V)) (k : string)
    (v v' : V) :
  NoDup (map fst es) -> (k, v) ∈ es -> (k, v') ∈ es -> v = v'.
Proof.
  induction es as [|[k0 v0] es IH]; intros Hnd H1 H2; [inversion H1|].
  simpl in Hnd. apply NoDup_cons in Hnd as [Hk Hnd].
  assert (Hin : forall x, (k0, x) ∈ es -> False).
  { intros x Hx. apply Hk. apply list_elem_of_In, in_map_iff.
    exists (k0, x). split; [reflexivity | now apply list_elem_of_In]. }
  apply elem_of_cons in H1 as [E1|H1];
    apply elem_of_cons in H2 as [E2|H2]; simplify_eq; auto.
  - exfalso. eauto.
  - exfalso. eauto.
Qed.

(** The leaf [SourceFile] of a reply: [#parseTag] keeps the text. *)
Lemma parseTag_SourceFile rd (declared : string) ws :
  (parseTag I task rd "SourceFile" (JStr declared) ws).1 =
  if nullish (JStr declared) then undefined
  else match BinaryField_fromRawValue I declared with
       | Return (Some b) => TBinaryField b
       | _ => TRaw (JStr declared)
       end.
Proof.
  cbn [parseTag]. destruct (nullish (JStr declared)); [reflexivity|].
  rewrite bool_decide_eq_false_2 by
    (intros H; repeat (apply elem_of_cons in H as [H|H]; [discriminate|]);
     inversion H).
  change (startsWith "SourceFile" "GPS" || startsWith "SourceFile" "Geolocation")
    with false. cbn [andb].
  unfold parseString.
  destruct (BinaryField_fromRawValue I declared) as [[b|]|e]; reflexivity.
Qed.

(** C2, as the code has it. A reply is accepted only when the [SourceFile] it
    declares resolves to the path of the task, and the record then holds the
    declared text, decoded as any other leaf, not the path of the task. A
    reply whose declared [SourceFile] resolves to another path makes [parse]
    throw: there is no record, hence no warning or error entry. *)
Theorem parse_verifies_SourceFile (data : string) (err : option JsError) :
  (forall tags ws, parse I task data err = Return (tags, ws) ->
     exists raw declared,
       (let* v := JSON_parse data in index0 v) = Return raw /\
       get raw "SourceFile" = JStr declared /\
       path_resolve I declared = sourceFile task /\
       tags !! "SourceFile" = Some (SourceFile_entry I task declared)) /\
  (forall raw declared,
     (let* v := JSON_parse data in index0 v) = Return raw ->
     get raw "SourceFile" = JStr declared ->
     path_resolve I declared <> sourceFile task ->
     parse I task data err =
       Throw (Error ("Internal error: unexpected SourceFile of "
                     +:+ declared +:+ " for file " +:+ sourceFile task))).
Proof.
  unfold parse. split.
  - intros tags ws.
    destruct (let* v := JSON_parse data in index0 v) as [raw|e] eqn:Er;
      [|discriminate].
    pose proof (JsonFacts.reply_keys data raw Er) as Hnd.
    pose proof (JsonFacts.reply_plain data raw Er) as Hpl.
    destruct (is_nullish raw); [discriminate|].
    destruct (get raw "SourceFile") as [ | |b|l|declared|es ps|ps|p ps] eqn:Eg;
      try discriminate.
    destruct (bool_decide (path_resolve I declared <> sourceFile task)) eqn:Ep;
      [discriminate|].
    intros [= Hp]. exists raw, declared. repeat split; try assumption.
    + apply bool_decide_eq_false in Ep.
      destruct (decide (path_resolve I declared = sourceFile task)); tauto.
    + replace tags with (parseTags I task raw).1 by now rewrite Hp.
      destruct (parseTags_loop raw) as (acc0 & Hl & _ & Hs).
      rewrite Hl by discriminate.
      destruct (fold_parseEntry_once (rawDegrouped_of task raw) _ acc0
                  "SourceFile" (JStr declared) Hnd (get_entry _ _ _ Hpl Eg))
        as [ws' ->].
      cbv zeta. change (String.eqb "SourceFile" "__proto__") with false.
      rewrite orb_false_r.
      rewrite (tagName_reserved "SourceFile") by (unfold reserved; repeat constructor).
      rewrite parseTag_SourceFile, Hs. unfold SourceFile_entry.
      destruct (nullish (JStr declared)); [reflexivity|].
      now destruct (BinaryField_fromRawValue I declared) as [[b|]|e].
  - intros raw declared -> Hg Hne.
    assert (Hn : is_nullish raw = false)
      by (destruct raw; try reflexivity; discriminate Hg).
    rewrite Hn, Hg. now rewrite bool_decide_eq_true_2.
Qed.

(** C6, as the code has it. A leaf whose text, trimmed, is exactly [undef],
    [null] or [undefined] decodes to nothing and records no warning; a tag of
    the reply with such a value, other than a field of the record's own, has
    no entry in the record. *)
Theorem nullish_leaf_is_absent (raw rd : JsValue) (key tagName s : string)
    (ws : list string) :
  trim s ∈ NullIsh ->
  parseTag I task rd tagName (JStr s) ws = (undefined, ws) /\
  (key ∉ reserved ->
   NoDup (map fst (Object_entries raw)) ->
   (key, JStr s) ∈ Object_entries raw ->
   (parseTags I task raw).1 !! key = None).
Proof.
  intros Hs.
  assert (Hn : nullish (JStr s) = true).
  { simpl. apply existsb_exists. exists (trim s). split.
    - now apply list_elem_of_In.
    - apply String.eqb_refl. }
  split; [now apply parseTag_nullish|].
  intros Hr Hnd Hin. apply parseTags_skipped; [exact Hr|].
  intros value ws' Hv.
  rewrite (NoDup_fst_unique _ _ _ _ Hnd Hv Hin).
  now rewrite parseTag_nullish.
Qed.

(** C8. When the GPS extraction flags the coordinates invalid, no tag whose
    name, degrouped, starts with [GPS] or [Geolocation] has an entry in the
    record. *)
Theorem invalid_gps_suppresses_gps_tags (raw : JsValue) (key : string) :
  gpsIsInvalid I task (rawDegrouped_of task raw) = true ->
  gps_prefixed (tagName_ task key) = true ->
  (parseTags I task raw).1 !! key = None.
Proof.
  intros Hi Hg. apply parseTags_skipped.
  - intros Hr. apply reserved_not_gps in Hr. congruence.
  - intros value ws _. now rewrite parseTag_gps_invalid.
Qed.

(** *** The timezone cascade *)

(** C7. [#extractTzOffset] keeps the first zone of its sources in the order
    of the design: GPS first when it is preferred, then the explicit tags,
    GPS, the datestamps, the default of videos, the UTC offset and the time
    stamp. With a zone from the explicit tags and a zone from GPS at hand,
    the explicit tags win when GPS is not preferred, and GPS is not even
    tried; GPS wins when it is preferred. *)
Theorem cascade_order (rd : JsValue) :
  (extractTzOffset I task rd).1 = first_success (cascade_sources I task rd) /\
  (forall t g,
     extractTzOffsetFromTags I rd (options task) = Some t ->
     (extractTzOffsetFromGps I task rd).1 = Some g ->
     (extractTzOffset I task rd).1 =
       Some (if preferTimezoneInferenceFromGps (options task) then g else t)) /\
  (forall t,
     preferTimezoneInferenceFromGps (options task) = false ->
     extractTzOffsetFromTags I rd (options task) = Some t ->
     extractTzOffset I task rd = (Some t, [])).
Proof.
  unfold extractTzOffset, cascade_sources. cbv zeta.
  split; [|split].
  - destruct (preferTimezoneInferenceFromGps (options task)); simpl.
    + destruct (extractTzOffsetFromGps I task rd).1; simpl; [reflexivity|].
      destruct (extractTzOffsetFromTags I rd (options task)); simpl;
        [reflexivity|].
      destruct (extractTzOffsetFromDatestamps I rd (options task)); simpl;
        [reflexivity|].
      destruct (defaultToUTC task rd); simpl; [reflexivity|].
      destruct (extractTzOffsetFromUTCOffset I rd); simpl; [reflexivity|].
      now destruct (extractTzOffsetFromTimeStamp I rd (options task)).
    + destruct (extractTzOffsetFromTags I rd (options task)); simpl;
        [reflexivity|].
      destruct (extractTzOffsetFromGps I task rd).1; simpl; [reflexivity|].
      destruct (extractTzOffsetFromDatestamps I rd (options task)); simpl;
        [reflexivity|].
      destruct (defaultToUTC task rd); simpl; [reflexivity|].
      destruct (extractTzOffsetFromUTCOffset I rd); simpl; [reflexivity|].
      now destruct (extractTzOffsetFromTimeStamp I rd (options task)).
  - intros t g Ht Hg. rewrite Ht, Hg.
    now destruct (preferTimezoneInferenceFromGps (options task)).
  - intros t Hp Ht. now rewrite Hp, Ht.
Qed.

(** *** Backfilling *)

(** C9, as the code has it. A leaf decoded into a date-time whose zone was
    inferred, in a file that defaults to UTC, under a tag that is not
    inherently UTC, with a zone from the cascade and with [backfillTimezones]
    enabled, is returned as [setZone] rewrites it into the zone of the
    cascade; when [setZone] throws, the text is kept and a warning is
    recorded. *)
Theorem backfill_rewrites_into_cascade_zone (rd : JsValue)
    (tagName value z : string) (d : ExifDateTime C) (ws : list string) :
  decodes_to_datetime I task rd tagName value d ->
  inferredZone I d = Some true ->
  defaultToUTC task rd = true ->
  isUtcTagName tagName = false ->
  tz_ I task rd = Some z ->
  backfillTimezones (options task) = true ->
  parseTag I task rd tagName (JStr value) ws =
  match setZone I d z with
  | Return moved => (TExifDateTime moved, ws)
  | Throw e =>
      (TRaw (JStr value), ws ++ [failed_to_parse tagName (JStr value) e])
  end.
Proof.
  intros (Hn & Hp & Hg & Hb & Hv & Hm & Hz & Hk & Hd) Hi Hu Hutc Htz Hbf.
  cbn [parseTag]. rewrite Hn, (bool_decide_eq_false_2 _ Hp).
  fold (gps_prefixed tagName).
  assert (Egps :
    (if gps_prefixed tagName && gpsIsInvalid I task rd
     then (undefined, ws)
     else
       match (if gps_prefixed tagName
              then non_nullish (prop_get tagName (gpsResults I task rd))
              else None) with
       | Some parsed => (parsed, ws)
       | None =>
           match parseString I task rd tagName value with
           | Return t => (t, ws)
           | Throw e =>
               (TRaw (JStr value),
                ws ++ [failed_to_parse tagName (JStr value) e])
           end
       end) =
    match parseString I task rd tagName value with
    | Return t => (t, ws)
    | Throw e =>
        (TRaw (JStr value), ws ++ [failed_to_parse tagName (JStr value) e])
    end).
  { destruct (gps_prefixed tagName); [|reflexivity].
    destruct (Hg eq_refl) as [-> ->]. reflexivity. }
  rewrite Egps. clear Egps.
  assert (Es : parseString I task rd tagName value =
               let* moved := setZone I d z in Return (TExifDateTime moved)).
  { unfold parseString. rewrite Hb. cbn [bind].
    assert (Ev : (if endsWith tagName "Valid" then toBoolean I value
                  else Return None) = Return None).
    { destruct (endsWith tagName "Valid"); [now apply Hv | reflexivity]. }
    rewrite Ev. cbn [bind]. rewrite Hm, Hz. cbn [negb andb]. cbv zeta.
    unfold datetime_key in Hk. rewrite Hk, Hd. cbn [bind].
    rewrite Htz, Hbf, Hu, Hutc, Hi.
    now rewrite bool_decide_eq_true_2. }
  rewrite Es. now destruct (setZone I d z).
Qed.

End Facts.
End ReadFacts.

(** ** Runs of the decoder *)

Module SampleFacts.
Import Js Read Sample ReadFacts.

Ltac not_in_list :=
  let H := fresh in
  intros H; repeat (apply elem_of_cons in H as [H|H]; [discriminate H|]);
  inversion H.

(** C2 as stated fails: the worker spells the path with a doubled separator;
    the reply is accepted, and the record holds the worker's spelling, which
    is not the path of the request. *)
Lemma declared_SourceFile_is_kept :
  let task := sample_task "a.jpg" (sample_options true true false) in
  sourceFile task = "/home/u/a.jpg" /\
  entry_of (parse imports task photo_reply None) "SourceFile"
    = Some (TRaw (JStr "/home/u//a.jpg")).
Proof. cbv zeta. split; vm_compute; reflexivity. Qed.

(** C6 as stated fails: the spellings are matched as they are, so a leaf in
    another letter case is kept. *)
Lemma uppercase_NULL_is_kept :
  let task := sample_task "a.jpg" (sample_options true true false) in
  nullish (JStr "NULL") = false /\
  parseTag imports task (raw_of photo_reply) "Make" (JStr "NULL") []
    = (TRaw (JStr "NULL"), []) /\
  entry_of (parse imports task photo_reply None) "Make"
    = Some (TRaw (JStr "NULL")).
Proof. cbv zeta. repeat split; vm_compute; reflexivity. Qed.

Lemma photo_reply_keys :
  NoDup (map fst (Object_entries (raw_of photo_reply))).
Proof.
  apply (bool_decide_unpack _). vm_compute. exact I.
Qed.

Lemma nullish_leaf_is_absent_witness :
  let task := sample_task "a.jpg" (sample_options true true false) in
  parseTag imports task (raw_of photo_reply) "Model" (JStr " null ") []
    = (undefined, []) /\
  (parseTags imports task (raw_of photo_reply)).1 !! "Model" = None.
Proof.
  cbv zeta.
  destruct (nullish_leaf_is_absent imports
              (sample_task "a.jpg" (sample_options true true false))
              (raw_of photo_reply) (raw_of photo_reply) "Model" "Model"
              " null " []) as [H1 H2].
  - right. left.
  - split; [exact H1|]. apply H2.
    + not_in_list.
    + exact photo_reply_keys.
    + vm_compute. do 2 right. left.
Defined.

Lemma invalid_gps_suppresses_gps_tags_witness :
  let task := sample_task "a.jpg" (sample_options true true false) in
  get (raw_of null_island_reply) "GPSDateStamp" = JStr "2020:01:01" /\
  (parseTags imports task (raw_of null_island_reply)).1 !! "GPSDateStamp"
    = None.
Proof.
  cbv zeta. split; [reflexivity|].
  apply invalid_gps_suppresses_gps_tags; reflexivity.
Defined.

(** The clip, read with [backfillTimezones] enabled. *)
Lemma clip_decodes_to_datetime :
  decodes_to_datetime imports
    (sample_task "a.mp4" (sample_options true true false))
    (raw_of clip_reply) "CreateDate" "2020:01:01 10:00:00"
    (mkDateTime "2020:01:01 10:00:00" (Some "UTC") (Some "UTC") true).
Proof.
  unfold decodes_to_datetime.
  split; [reflexivity|]. split; [not_in_list|].
  split; [intros H; discriminate H|].
  split; [reflexivity|]. split; [intros H; discriminate H|].
  repeat split; reflexivity.
Qed.

Lemma backfill_rewrites_into_cascade_zone_witness :
  parseTag imports (sample_task "a.mp4" (sample_options true true false))
    (raw_of clip_reply) "CreateDate" (JStr "2020:01:01 10:00:00") []
  = (TExifDateTime (C := classes)
       (mkDateTime "2020:01:01 10:00:00" (Some "UTC") (Some "+02:00") true),
     []).
Proof.
  exact (backfill_rewrites_into_cascade_zone imports
           (sample_task "a.mp4" (sample_options true true false))
           (raw_of clip_reply) "CreateDate" "2020:01:01 10:00:00" "+02:00"
           (mkDateTime "2020:01:01 10:00:00" (Some "UTC") (Some "UTC") true)
           [] clip_decodes_to_datetime eq_refl eq_refl eq_refl eq_refl
           eq_refl).
Defined.

(** C9 as stated fails: with [backfillTimezones] disabled, the stamp of the
    clip is decoded in UTC with an inferred zone, the cascade yields the zone
    of the explicit tag, and the value is returned as decoded, not rewritten
    into that zone. *)
Lemma no_backfill_keeps_decoded_zone :
  let task := sample_task "a.mp4" (sample_options false true false) in
  defaultToUTC task (raw_of clip_reply) = true /\
  isUtcTagName "CreateDate" = false /\
  tz_ imports task (raw_of clip_reply) = Some "+02:00" /\
  entry_of (parse imports task clip_reply None) "CreateDate"
    = Some (TExifDateTime (C := classes)
              (mkDateTime "2020:01:01 10:00:00" (Some "UTC") (Some "UTC")
                 true)).
Proof. cbv zeta. repeat split; vm_compute; reflexivity. Qed.

(** The scenario of the design: a video without explicit offset tags, with
    [defaultVideosToUTC], and a zoneless creation date. *)
Example video_defaults_to_UTC :
  let task := sample_task "a.mp4" (sample_options true true false) in
  entry_of (parse imports task plain_clip_reply None) "tzSource"
    = Some (TRaw (JStr "defaultVideosToUTC")) /\
  entry_of (parse imports task plain_clip_reply None) "CreateDate"
    = Some (TExifDateTime (C := classes)
              (mkDateTime "2020:01:01 10:00:00" (Some "UTC") (Some "UTC")
                 true)).
Proof. cbv zeta. split; vm_compute; reflexivity. Qed.

(** The photo has an explicit offset and coordinates: the explicit tag names
    the source unless GPS is preferred. *)
Example photo_cascade :
  (extractTzOffset imports
     (sample_task "a.jpg" (sample_options true true false))
     (raw_of photo_reply)).1
    = Some (mkTzSrc "+02:00" "OffsetTimeOriginal") /\
  (extractTzOffset imports
     (sample_task "a.jpg" (sample_options true true true))
     (raw_of photo_reply)).1
    = Some (mkTzSrc "Europe/Paris" "GPSLatitude/GPSLongitude").
Proof. split; reflexivity. Qed.

End SampleFacts.

Module TrimFacts.
Import Js JsFacts.

Lemma append_assoc (a b c : string) : (a +:+ b) +:+ c = a +:+ (b +:+ c).
Proof.
  induction a as [|x a IH]; [reflexivity|].
  rewrite !append_cons. now rewrite IH.
Qed.

Lemma trimStart_append (a b : string) :
  trimStart (a +:+ b) =
  match trimStart a with
  | EmptyString => trimStart b
  | t => t +:+ b
  end.
Proof.
  induction a as [|x a IH]; [reflexivity|].
  rewrite append_cons. simpl. destruct (is_js_space x); [exact IH|].
  now rewrite append_cons.
Qed.

Lemma trimEnd_append (a b : string) :
  trimEnd (a +:+ b) =
  match trimEnd b with
  | EmptyString => trimEnd a
  | t => a +:+ t
  end.
Proof.
  induction a as [|x a IH].
  - rewrite append_nil_l. now destruct (trimEnd b).
  - rewrite append_cons. simpl. rewrite IH.
    destruct (trimEnd b) as [|y t]; [reflexivity|].
    rewrite append_cons. destruct a; reflexivity.
Qed.

Lemma trimStart_idem (s : string) : trimStart (trimStart s) = trimStart s.
Proof.
  induction s as [|x s IH]; [reflexivity|].
  simpl. destruct (is_js_space x) eqn:E; [exact IH|]. simpl. now rewrite E.
Qed.

Lemma endsWith_append (s p : string) : endsWith (s +:+ p) p = true.
Proof.
  unfold endsWith. rewrite append_length.
  replace (String.length s + String.length p - String.length p)
    with (String.length s) by lia.
  rewrite drop_append, String.eqb_refl.
  apply andb_true_intro. split; [|reflexivity]. apply Nat.leb_le. lia.
Qed.

Lemma slice_append (s p : string) :
  slice_to_neg (s +:+ p) (String.length p) = s.
Proof.
  unfold slice_to_neg. rewrite append_length.
  replace (String.length s + String.length p - String.length p)
    with (String.length s) by lia.
  apply take_append.
Qed.

End TrimFacts.

Module ProtocolFacts.
Import Js Process Protocol JsFacts ProcessFacts TrimFacts.

(** *** One complete reply *)

Lemma set_buff_twice (a b : string) (st : ExifToolProcess) :
  set_buff a (set_buff b st) = set_buff a st.
Proof. reflexivity. Qed.

(** A chunk that completes a reply on an empty buffer goes to the oldest
    reader. *)
Lemma onData_complete (c : string) (st : ExifToolProcess)
    (r : DeferredReader) (rs : list DeferredReader) :
  buff st = "" -> complete c = true -> readers st = r :: rs ->
  onData c st = apply r (payload c) (set_readers rs (set_buff "" st)).
Proof.
  intros Hb Hc Hr. unfold onData, complete, payload in *. cbv zeta. simpl.
  rewrite Hb, append_nil_l, Hc, Hr. reflexivity.
Qed.

Lemma onData_complete_idle (c : string) (st : ExifToolProcess) :
  buff st = "" -> complete c = true -> readers st = [] ->
  onData c st =
  (print (console_error ("No reader for payload " +:+ payload c))
     (set_buff "" st), Return tt).
Proof.
  intros Hb Hc Hr. unfold onData, complete, payload in *. cbv zeta. simpl.
  rewrite Hb, append_nil_l, Hc, Hr. reflexivity.
Qed.

(** [apply] on a pending promise leaves the [outcome] of the reader in it. *)
Lemma apply_outcome (r : DeferredReader) (text : string)
    (st : ExifToolProcess) :
  promises st !! promise r = Some Pending ->
  promises (apply r text st).1 !! promise r = Some (outcome r text).
Proof.
  intros Hp. unfold outcome, apply, with_warnings. cbv zeta.
  destruct (reader r text) as [v|e]; simpl; [|exact Hp].
  destruct (0 <? length (warnings r)); simpl.
  - destruct (String.eqb (typeof v) "object").
    + destruct (set_property v "warnings" _); simpl;
        [now apply settle_pending | exact Hp].
    + simpl. now apply settle_pending.
  - now apply settle_pending.
Qed.

Lemma apply_length (r : DeferredReader) (text : string)
    (st : ExifToolProcess) :
  length (promises (apply r text st).1) = length (promises st).
Proof.
  unfold apply. cbv zeta. destruct (reader r text); [|reflexivity].
  destruct (0 <? _); [destruct (String.eqb _ _);
    [destruct (set_property _ _ _)|]|]; simpl;
    rewrite ?settle_length; reflexivity.
Qed.

(** *** Settled promises *)

Lemma step_settled (st : ExifToolProcess) (ev : Event) (i : nat)
    (o : PromiseState) :
  promises st !! i = Some o -> o <> Pending ->
  promises (step st ev) !! i = Some o.
Proof.
  intros Hi Ho. destruct ev as [d|e|c|r cmds|]; cbn [step].
  - unfold onData. cbv zeta.
    destruct (endsWith _ ready); [|exact Hi].
    simpl. destruct (readers st) as [|r rs]; [exact Hi|].
    unfold apply. cbv zeta. destruct (reader r _); [|exact Hi].
    destruct (0 <? _); [destruct (String.eqb _ _);
      [destruct (set_property _ _ _)|]|]; simpl; try exact Hi;
      rewrite settle_lookup, Hi; now destruct o.
  - unfold onError. now destruct (readers st).
  - rewrite onClose_lookup, Hi. now destruct o.
  - apply lookup_app_l_Some. exact Hi.
  - exact Hi.
Qed.

Lemma run_settled (evs : list Event) (st : ExifToolProcess) (i : nat)
    (o : PromiseState) :
  promises st !! i = Some o -> o <> Pending ->
  promises (run evs st) !! i = Some o.
Proof.
  revert st. induction evs as [|ev evs IH]; intros st Hi Ho; [exact Hi|].
  unfold run in *. simpl. apply IH; [|exact Ho]. now apply step_settled.
Qed.

(** *** The invariant of the queue *)

Lemma new_queue_ok : queue_ok new_ExifToolProcess.
Proof.
  split; [|split].
  - simpl. repeat constructor. intros H. inversion H.
  - intros r Hr. simpl in Hr. apply list_elem_of_singleton in Hr as ->.
    simpl. lia.
  - intros _ r Hr. simpl in Hr. apply list_elem_of_singleton in Hr as ->.
    reflexivity.
Qed.

Lemma queue_ok_tail (st : ExifToolProcess) (r : DeferredReader)
    (rs : list DeferredReader) :
  readers st = r :: rs -> queue_ok st ->
  (promise r ∉ map promise rs) /\ queue_ok (set_readers rs st).
Proof.
  intros Hr (Hnd & Hlt & Hp). rewrite Hr in *. simpl in Hnd.
  apply NoDup_cons in Hnd as [Hnot Hnd]. split; [exact Hnot|].
  split; [exact Hnd|]. split.
  - intros x Hx. apply Hlt. now right.
  - intros He x Hx. apply (Hp He). now right.
Qed.

Lemma elem_of_promises (r : DeferredReader) (rs : list DeferredReader) :
  r ∈ rs -> promise r ∈ map promise rs.
Proof.
  intros H. apply list_elem_of_In, in_map. now apply list_elem_of_In.
Qed.

Lemma apply_queue_ok (r : DeferredReader) (text : string)
    (st : ExifToolProcess) :
  promise r ∉ map promise (readers st) -> queue_ok st ->
  queue_ok (apply r text st).1.
Proof.
  intros Hnot (Hnd & Hlt & Hp).
  destruct (apply_frame r text st) as (He & _ & Hrs & _ & Hps).
  cbv zeta in *. split; [|split].
  - now rewrite Hrs.
  - intros x Hx. rewrite Hrs in Hx. rewrite apply_length. now apply Hlt.
  - intros Hend x Hx. rewrite Hrs in Hx. rewrite He in Hend.
    rewrite Hps; [now apply Hp|].
    intros E. apply Hnot. rewrite <- E. now apply elem_of_promises.
Qed.

Lemma step_queue_ok (st : ExifToolProcess) (ev : Event) :
  queue_ok st -> queue_ok (step st ev).
Proof.
  intros Hok. destruct ev as [d|e|c|r cmds|]; cbn [step].
  - unfold onData. cbv zeta.
    destruct (endsWith _ ready); [|exact Hok].
    simpl. destruct (readers st) as [|r rs] eqn:Er; [exact Hok|].
    destruct (queue_ok_tail st r rs Er Hok) as [Hnot Hok'].
    apply apply_queue_ok; [exact Hnot|]. exact Hok'.
  - unfold onError. destruct (readers st) as [|r rs] eqn:Er; [exact Hok|].
    destruct Hok as (Hnd & Hlt & Hp). rewrite Er in *.
    split; [exact Hnd|]. split.
    + intros x Hx. simpl in Hx. apply elem_of_cons in Hx as [->|Hx].
      * apply (Hlt r). now left.
      * apply Hlt. now right.
    + intros He x Hx. simpl in Hx, He. apply elem_of_cons in Hx as [->|Hx].
      * apply (Hp He r). now left.
      * apply (Hp He). now right.
  - destruct Hok as (Hnd & Hlt & Hp). split; [|split].
    + now rewrite onClose_readers.
    + intros x Hx. rewrite onClose_readers in Hx.
      unfold onClose. cbv zeta. rewrite reject_all_state. simpl.
      assert (L : forall rs ps,
                 length (fold_left (fun ps r => settle (promise r)
                   (Rejected (JStr "ExifTool closed")) ps) rs ps) = length ps).
      { induction rs as [|y rs IH]; intros ps; [reflexivity|].
        simpl. rewrite IH. apply settle_length. }
      rewrite L. now apply Hlt.
    + intros He. discriminate He.
  - destruct Hok as (Hnd & Hlt & Hp). split; [|split]; simpl.
    + rewrite map_app. simpl. apply NoDup_app. split; [exact Hnd|].
      split; [|repeat constructor; intros H; inversion H].
      intros p Hin Hp'. apply list_elem_of_singleton in Hp' as ->.
      apply list_elem_of_In, in_map_iff in Hin as (x & Ex & Hx).
      apply list_elem_of_In, Hlt in Hx. lia.
    + intros x Hx. rewrite length_app. simpl.
      apply elem_of_app in Hx as [Hx|Hx].
      * apply Hlt in Hx. lia.
      * apply list_elem_of_singleton in Hx as ->. simpl. lia.
    + intros He x Hx. apply elem_of_app in Hx as [Hx|Hx].
      * rewrite lookup_app_l by now apply Hlt. now apply Hp.
      * apply list_elem_of_singleton in Hx as ->. simpl.
        rewrite lookup_app_r by lia. now rewrite Nat.sub_diag.
  - exact Hok.
Qed.

Lemma run_queue_ok (evs : list Event) (st : ExifToolProcess) :
  queue_ok st -> queue_ok (run evs st).
Proof.
  revert st. induction evs as [|ev evs IH]; intros st H; [exact H|].
  unfold run in *. simpl. apply IH. now apply step_queue_ok.
Qed.

(** X2. In every state a new process can reach, whatever the events, the
    readers of the queue hold promises of the store, no two of them the same
    one, and until the worker has exited every one of these promises is
    pending: the queue never holds a call that is already settled. *)
Theorem reachable_queue_invariant (evs : list Event) :
  let st := run evs new_ExifToolProcess in
  NoDup (map promise (readers st)) /\
  (forall r, r ∈ readers st -> promise r < length (promises st)) /\
  (ended st = false ->
   forall r, r ∈ readers st -> promises st !! promise r = Some Pending).
Proof. exact (run_queue_ok evs _ new_queue_ok). Qed.

(** X3. A promise is settled once: fulfilled or rejected, it keeps its state
    and its value through every later event, be it a late reply, an error
    line, the exit of the worker or a new call. *)
Theorem settled_promise_is_final (st : ExifToolProcess) (evs : list Event)
    (i : nat) (o : PromiseState) :
  promises st !! i = Some o -> o <> Pending ->
  promises (run evs st) !! i = Some o.
Proof. intros Hi Ho. now apply run_settled. Qed.

Lemma settled_promise_is_final_witness :
  let st := feed ["12.40" +:+ nl +:+ ready +:+ nl] new_ExifToolProcess in
  promises (run [EvData ("13.00" +:+ nl +:+ ready); EvClose "0"] st)
    !! versionPromise = Some (Fulfilled (JStr "12.40")).
Proof.
  cbv zeta.
  apply (settled_promise_is_final
           (feed ["12.40" +:+ nl +:+ ready +:+ nl] new_ExifToolProcess)
           [EvData ("13.00" +:+ nl +:+ ready); EvClose "0"] versionPromise
           (Fulfilled (JStr "12.40")));
    [reflexivity | discriminate].
Defined.

(** *** Replies in order *)

Lemma feed_cons (c : string) (cs : list string) (st : ExifToolProcess) :
  feed (c :: cs) st = feed cs (onData c st).1.
Proof. reflexivity. Qed.

Lemma feed_in_order (chunks : list string) :
  forall (st : ExifToolProcess) (i : nat) (r : DeferredReader) (c : string),
  queue_ok st -> _ended st = false -> buff st = "" ->
  Forall (fun c => complete c = true) chunks ->
  readers st !! i = Some r -> chunks !! i = Some c ->
  promises (feed chunks st) !! promise r = Some (outcome r (payload c)).
Proof.
  induction chunks as [|c0 cs IH]; intros st i r c Hok He Hb Hall Hr Hc;
    [discriminate Hc|].
  destruct (readers st) as [|r0 rs] eqn:Er; [discriminate Hr|].
  apply Forall_cons in Hall as [Hc0 Hall].
  rewrite feed_cons, (onData_complete c0 st r0 rs Hb Hc0 Er).
  destruct (queue_ok_tail st r0 rs Er Hok) as [Hnot Hok'].
  pose proof (apply_queue_ok r0 (payload c0)
                (set_readers rs (set_buff "" st)) Hnot Hok') as Hok''.
  destruct (apply_frame r0 (payload c0) (set_readers rs (set_buff "" st)))
    as (He' & Hb' & Hrs' & _ & _).
  cbv zeta in *. simpl in He', Hb', Hrs'.
  destruct i as [|j]; simpl in Hr, Hc.
  - injection Hr as <-. injection Hc as <-.
    unfold feed. rewrite run_unreferenced.
    + apply apply_outcome. simpl. destruct Hok as (_ & _ & Hp).
      apply (Hp He). rewrite Er. now left.
    + rewrite apply_length. simpl. destruct Hok as (_ & Hlt & _).
      apply Hlt. rewrite Er. now left.
    + intros x Hx E. rewrite Hrs' in Hx. apply Hnot. rewrite <- E.
      now apply elem_of_promises.
  - apply (IH _ j r c); auto; try congruence.
Qed.

Lemma feed_readers (chunks : list string) :
  forall st : ExifToolProcess,
  buff st = "" -> Forall (fun c => complete c = true) chunks ->
  readers (feed chunks st) = skipn (length chunks) (readers st) /\
  buff (feed chunks st) = "".
Proof.
  induction chunks as [|c0 cs IH]; intros st Hb Hall; [now split|].
  apply Forall_cons in Hall as [Hc0 Hall]. rewrite feed_cons.
  destruct (readers st) as [|r0 rs] eqn:Er.
  - rewrite (onData_complete_idle c0 st Hb Hc0 Er).
    destruct (IH (print (console_error ("No reader for payload "
                           +:+ payload c0)) (set_buff "" st)))
      as [H1 H2]; [reflexivity | exact Hall |].
    simpl in H1. rewrite Er in H1. cbn [fst]. rewrite H1, H2.
    now rewrite skipn_nil.
  - rewrite (onData_complete c0 st r0 rs Hb Hc0 Er).
    destruct (apply_frame r0 (payload c0) (set_readers rs (set_buff "" st)))
      as (_ & Hb' & Hrs' & _ & _).
    cbv zeta in *. simpl in Hb', Hrs'.
    destruct (IH _ Hb' Hall) as [H1 H2]. rewrite H1, H2, Hrs'. now split.
Qed.

(** X4. Replies are matched to calls first in, first out. In a process whose
    worker runs, whose buffer is empty and whose queue is in order, let
    complete replies arrive one per chunk: the reply number [i] is decoded by
    the reader number [i] of the queue and settles that reader's promise and
    no other (an exception of the reader leaves its promise pending), and the
    queue is shorter by one call per reply. *)
Theorem replies_are_matched_in_order (st : ExifToolProcess)
    (chunks : list string) (i : nat) (r : DeferredReader) (c : string) :
  queue_ok st -> ended st = false -> buff st = "" ->
  Forall (fun c => complete c = true) chunks ->
  readers st !! i = Some r -> chunks !! i = Some c ->
  promises (feed chunks st) !! promise r = Some (outcome r (payload c)) /\
  readers (feed chunks st) = skipn (length chunks) (readers st).
Proof.
  intros Hok He Hb Hall Hr Hc. split.
  - now apply (feed_in_order chunks st i r c).
  - now apply feed_readers.
Qed.

Lemma replies_are_matched_in_order_witness :
  let st := (read "/home/u" "a.jpg" new_ExifToolProcess).1 in
  let chunks := ["12.40" +:+ nl +:+ ready +:+ nl; reply_head +:+ reply_tail] in
  promises (feed chunks st) !! 1
    = Some (Fulfilled (JArr [JObj [("Make", JStr "Canon EOS")]] [])) /\
  readers (feed chunks st) = [].
Proof.
  cbv zeta.
  apply (replies_are_matched_in_order
           (read "/home/u" "a.jpg" new_ExifToolProcess).1
           ["12.40" +:+ nl +:+ ready +:+ nl; reply_head +:+ reply_tail] 1
           (mkDeferredReader MetadataReader [] 1)
           (reply_head +:+ reply_tail)).
  - exact (run_queue_ok
             [EvExecute MetadataReader
                ["-json";
                 "-coordFormat " +:+ String dquote ("%.8f" +:+ String dquote "");
                 "-fast"; posix_resolve "/home/u" "a.jpg"]]
             _ new_queue_ok).
  - reflexivity.
  - reflexivity.
  - repeat constructor.
  - reflexivity.
  - reflexivity.
Defined.

(** *** Diagnostics *)

Lemma run_errors (errs : list string) :
  forall (st : ExifToolProcess) (r : DeferredReader)
         (rs : list DeferredReader),
  readers st = r :: rs ->
  run (map EvError errs) st =
  set_readers
    (mkDeferredReader (reader r) (warnings r ++ errs) (promise r) :: rs) st.
Proof.
  induction errs as [|e errs IH]; intros st r rs Hr.
  - rewrite app_nil_r. destruct st, r. simpl in *. now rewrite Hr.
  - unfold run in *. simpl. unfold onError at 1. rewrite Hr.
    rewrite (IH (set_readers (addWarning e r :: rs) st) (addWarning e r) rs
               eq_refl). simpl.
    now rewrite <- app_assoc.
Qed.

(** X5. What the worker writes on its error stream while a call is the
    oldest of the queue is delivered with the result of that call and of no
    other: when its reply arrives and decodes to an object, the call resolves
    with that object, the lines held under its key [warnings] in the order
    of their arrival after the warnings the reader held before; the calls
    behind it are the queue that is left, as they were. *)
Theorem diagnostics_go_to_the_oldest_call (st : ExifToolProcess)
    (errs : list string) (c : string) (r : DeferredReader)
    (rs : list DeferredReader) (ps : list (string * JsValue)) :
  readers st = r :: rs ->
  promises st !! promise r = Some Pending ->
  buff st = "" -> complete c = true -> errs <> [] ->
  reader r (payload c) = Return (JObj ps) ->
  let st' := step (run (map EvError errs) st) (EvData c) in
  promises st' !! promise r =
    Some (Fulfilled
            (JObj (prop_set "warnings"
                     (JArr (map JStr (warnings r ++ errs)) []) ps))) /\
  readers st' = rs /\
  forall i, i <> promise r -> promises st' !! i = promises st !! i.
Proof.
  intros Hr Hp Hb Hc He Hd. cbv zeta. rewrite (run_errors errs st r rs Hr).
  cbn [step].
  set (r' := mkDeferredReader (reader r) (warnings r ++ errs) (promise r)).
  rewrite (onData_complete c (set_readers (r' :: rs) st) r' rs Hb Hc eq_refl).
  subst r'.
  match goal with |- context [apply ?d ?t ?s] =>
    destruct (apply_frame d t s) as (_ & _ & Hrs & _ & Hps);
    pose proof (apply_fulfils d t s (JObj ps)
      (JObj (prop_set "warnings" (JArr (map JStr (warnings r ++ errs)) []) ps)))
      as Hf
  end.
  cbv zeta in *. simpl in Hrs, Hps, Hf. split; [|split].
  - apply Hf; [exact Hd | | exact Hp].
    unfold with_warnings. simpl.
    destruct (warnings r ++ errs) as [|w ws] eqn:E; [|reflexivity].
    apply app_eq_nil in E as [_ E]. contradiction.
  - exact Hrs.
  - intros i Hi. now apply Hps.
Qed.

Lemma diagnostics_go_to_the_oldest_call_witness :
  let st := (call_session "a.jpg").1 in
  let c := "{" +:+ quote "Make" +:+ ":1}" +:+ nl +:+ ready in
  let st' := step (run (map EvError ["Warning: x"; "Warning: y"]) st)
               (EvData c) in
  promises st' !! 1 =
    Some (Fulfilled
            (JObj [("Make", JNum "1");
                   ("warnings",
                    JArr [JStr "Warning: x"; JStr "Warning: y"] [])])) /\
  readers st' = [] /\
  forall i, i <> 1 -> promises st' !! i = promises st !! i.
Proof.
  cbv zeta.
  apply (diagnostics_go_to_the_oldest_call (call_session "a.jpg").1
           ["Warning: x"; "Warning: y"]
           ("{" +:+ quote "Make" +:+ ":1}" +:+ nl +:+ ready)
           (mkDeferredReader MetadataReader [] 1) [] [("Make", JNum "1")]);
    try reflexivity.
  discriminate.
Defined.

(** *** The console *)

(** What a process has printed has no influence on what it does next. *)
Lemma step_silent (st1 st2 : ExifToolProcess) (ev : Event) :
  silent st1 = silent st2 -> silent (step st1 ev) = silent (step st2 ev).
Proof.
  destruct st1 as [e1 b1 rs1 ps1 i1 c1 o1], st2 as [e2 b2 rs2 ps2 i2 c2 o2].
  unfold silent. simpl. intros H. injection H as -> -> -> -> -> ->.
  destruct ev as [d|e|c|r cmds|]; cbn [step].
  - unfold onData. cbv zeta. simpl.
    destruct (endsWith _ ready); [|reflexivity].
    destruct rs2 as [|r rs]; [reflexivity|].
    unfold apply. cbv zeta. destruct (reader r _); [|reflexivity].
    destruct (0 <? _); [destruct (String.eqb _ _);
      [destruct (set_property _ _ _)|]|]; reflexivity.
  - unfold onError. simpl. destruct rs2; reflexivity.
  - unfold onClose. cbv zeta. rewrite !reject_all_state. reflexivity.
  - reflexivity.
  - reflexivity.
Qed.

Lemma run_silent (evs : list Event) (st1 st2 : ExifToolProcess) :
  silent st1 = silent st2 -> silent (run evs st1) = silent (run evs st2).
Proof.
  revert st1 st2. induction evs as [|ev evs IH]; intros st1 st2 H; [exact H|].
  unfold run in *. simpl. apply IH. now apply step_silent.
Qed.

(** X6. A line of the worker's error stream that arrives while no call is
    queued is printed and has no other effect: through every later sequence
    of events the process is in the state it would have reached had the line
    never arrived, the console apart. In particular the line is attached to
    no later call. *)
Theorem unattributed_diagnostic_is_only_printed (st : ExifToolProcess)
    (error : string) (evs : list Event) :
  readers st = [] ->
  console (onError error st) =
    console st ++
    [console_error ("Error from ExifTool without any readers: " +:+ error)] /\
  silent (run evs (onError error st)) = silent (run evs st).
Proof.
  intros Hr. unfold onError. rewrite Hr. split; [reflexivity|].
  apply run_silent. reflexivity.
Qed.

Lemma unattributed_diagnostic_is_only_printed_witness :
  let st := feed ["12.40" +:+ nl +:+ ready +:+ nl] new_ExifToolProcess in
  let evs := [EvExecute MetadataReader ["-json"; "a.jpg"];
              EvData (reply_head +:+ reply_tail)] in
  console (onError "Warning: x" st) =
    console st ++
    [console_error ("Error from ExifTool without any readers: "
                    +:+ "Warning: x")] /\
  silent (run evs (onError "Warning: x" st)) = silent (run evs st).
Proof.
  cbv zeta.
  apply (unattributed_diagnostic_is_only_printed
           (feed ["12.40" +:+ nl +:+ ready +:+ nl] new_ExifToolProcess)
           "Warning: x"
           [EvExecute MetadataReader ["-json"; "a.jpg"];
            EvData (reply_head +:+ reply_tail)]).
  reflexivity.
Defined.

(** *** The exit of the worker *)

(** X7. When the worker exits while it runs, in a process whose queue is in
    order, every call of the queue is rejected with ['ExifTool closed'], and
    stays so whatever arrives afterwards, a late reply included. *)
Theorem exit_rejects_the_whole_queue (st : ExifToolProcess) (code : string)
    (evs : list Event) (r : DeferredReader) :
  queue_ok st -> ended st = false -> r ∈ readers st ->
  promises (run evs (onClose code st)) !! promise r
    = Some (Rejected (JStr "ExifTool closed")).
Proof.
  intros (_ & _ & Hp) He Hr. apply run_settled; [|discriminate].
  rewrite onClose_lookup, (Hp He r Hr).
  destruct (decide (promise r ∈ map promise (readers st))) as [|Hn];
    [reflexivity|].
  exfalso. apply Hn. now apply elem_of_promises.
Qed.

Lemma exit_rejects_the_whole_queue_witness :
  promises (run [EvData ("12.40" +:+ nl +:+ ready +:+ nl)]
              (onClose "1" new_ExifToolProcess)) !! versionPromise
    = Some (Rejected (JStr "ExifTool closed")).
Proof.
  apply (exit_rejects_the_whole_queue new_ExifToolProcess "1"
           [EvData ("12.40" +:+ nl +:+ ready +:+ nl)]
           (mkDeferredReader StringReader [] 0)).
  - exact new_queue_ok.
  - reflexivity.
  - simpl. now left.
Defined.

(** *** A reply in one chunk *)

Lemma trim_framed (text : string) :
  trim (text +:+ nl +:+ ready +:+ nl) = trimStart (text +:+ nl) +:+ ready.
Proof.
  unfold trim. rewrite <- append_assoc, trimStart_append.
  destruct (trimStart (text +:+ nl)) as [|x t]; [reflexivity|].
  rewrite trimEnd_append. reflexivity.
Qed.

Lemma trim_line (text : string) : trim (trimStart (text +:+ nl)) = trim text.
Proof.
  unfold trim. rewrite trimStart_idem, trimStart_append.
  destruct (trimStart text) as [|x t]; [reflexivity|].
  rewrite trimEnd_append. reflexivity.
Qed.

(** X8. A reply that arrives in one chunk on an empty buffer, a line break
    and the sentinel line after its text, is handed to the oldest reader
    whatever the text holds, the sentinel itself included: the reader
    receives the text and its line break, white space at the start
    removed. *)
Theorem reply_in_one_chunk (st : ExifToolProcess) (text : string)
    (r : DeferredReader) (rs : list DeferredReader) :
  buff st = "" -> readers st = r :: rs ->
  onData (text +:+ nl +:+ ready +:+ nl) st =
  apply r (trimStart (text +:+ nl)) (set_readers rs (set_buff "" st)).
Proof.
  intros Hb Hr.
  rewrite (onData_complete (text +:+ nl +:+ ready +:+ nl) st r rs Hb); auto.
  - unfold payload. rewrite trim_framed. now rewrite slice_append.
  - unfold complete. rewrite trim_framed. apply endsWith_append.
Qed.

Lemma reply_in_one_chunk_witness :
  onData ("12.40 {ready} " +:+ nl +:+ ready +:+ nl) new_ExifToolProcess =
  apply (mkDeferredReader StringReader [] 0)
    (trimStart ("12.40 {ready} " +:+ nl))
    (set_readers [] (set_buff "" new_ExifToolProcess)).
Proof.
  apply (reply_in_one_chunk new_ExifToolProcess "12.40 {ready} "
           (mkDeferredReader StringReader [] 0) []); reflexivity.
Defined.

(** X9. The version of the worker: whatever [text] the worker answers the
    request of the constructor with, in one chunk, the promise of the
    version is fulfilled with [text] trimmed at both ends. *)
Theorem version_is_the_trimmed_reply (text : string) :
  promises (feed [text +:+ nl +:+ ready +:+ nl] new_ExifToolProcess)
    !! versionPromise = Some (Fulfilled (JStr (trim text))).
Proof.
  unfold feed, run. simpl fold_left.
  rewrite (onData_complete (text +:+ nl +:+ ready +:+ nl) new_ExifToolProcess
             (mkDeferredReader StringReader [] 0) []); try reflexivity.
  - unfold payload. rewrite trim_framed, slice_append.
    unfold apply, StringReader. simpl. now rewrite trim_line.
  - unfold complete. rewrite trim_framed. apply endsWith_append.
Qed.

(** *** The input of the worker *)

Lemma join_lines (cmds : list string) :
  join nl (cmds ++ ["-execute"; ""]) = lines (cmds ++ ["-execute"]).
Proof.
  induction cmds as [|c cmds IH]; [reflexivity|].
  change ((c :: cmds) ++ ["-execute"; ""])
    with (c :: (cmds ++ ["-execute"; ""])).
  change ((c :: cmds) ++ ["-execute"]) with (c :: (cmds ++ ["-execute"])).
  cbn [lines]. rewrite <- IH. destruct cmds; reflexivity.
Qed.

Lemma step_stdin (st : ExifToolProcess) (ev : Event) :
  stdin (step st ev) = stdin st ++ written ev.
Proof.
  destruct ev as [d|e|c|r cmds|]; cbn [step written].
  - rewrite app_nil_r. unfold onData. cbv zeta.
    destruct (endsWith _ ready); [|reflexivity].
    simpl. destruct (readers st) as [|r rs]; [reflexivity|].
    now destruct (apply_frame r
                    (slice_to_neg (trim (buff st +:+ d)) (String.length ready))
                    (set_readers rs (set_buff "" (set_buff
                       (trim (buff st +:+ d)) st)))) as (_ & _ & _ & H & _).
  - rewrite app_nil_r. unfold onError. now destruct (readers st).
  - rewrite app_nil_r. unfold onClose. cbv zeta.
    now rewrite reject_all_state.
  - unfold execute. cbv zeta. cbn [fst]. unfold nl in *.
    change (String "010" "") with nl. now rewrite join_lines.
  - reflexivity.
Qed.

(** X27. What the process writes to the worker. Through any sequence of
    events, the input of the worker receives, in the order of the calls, one
    block per call, its commands one per line followed by the line
    [-execute], and the stop directive of [end]; the events of the worker and
    of its streams write nothing. *)
Theorem commands_are_written_in_call_order (st : ExifToolProcess)
    (evs : list Event) :
  stdin (run evs st) = stdin st ++ flat_map written evs.
Proof.
  revert st. induction evs as [|ev evs IH]; intros st.
  - simpl. now rewrite app_nil_r.
  - unfold run in *. cbn [fold_left flat_map]. rewrite IH, step_stdin.
    now rewrite <- app_assoc.
Qed.

End ProtocolFacts.

Module EncodeFacts.
Import Js Encode.

Section Facts.
Variable DateOrTime : Type.
Variable htmlEncode : string -> string.
Variable toExifString : DateOrTime -> string.
Variable path_resolve : string -> string.

(** Induction on a value, its elements and the values of its fields
    included. *)
Lemma WriteValue_nested_ind (P : WriteValue DateOrTime -> Prop) :
  P WNull -> (forall text, P (WNumber text)) -> (forall s, P (WString s)) ->
  (forall d, P (WDateOrTime d)) ->
  (forall elems, Forall P elems -> P (WArray elems)) ->
  (forall fields, Forall (fun kv => P kv.2) fields -> P (WStruct fields)) ->
  (forall json, P (WOther json)) ->
  forall o, P o.
Proof.
  intros HNull HNumber HString HDate HArray HStruct HOther.
  fix IH 1. intros [ |text|s|d|elems|fields|json].
  - exact HNull.
  - apply HNumber.
  - apply HString.
  - apply HDate.
  - apply HArray. induction elems as [|ea es IHes]; constructor;
      [apply IH | exact IHes].
  - apply HStruct. induction fields as [|[k v] fs IHfs]; constructor;
      [apply IH | exact IHfs].
  - apply HOther.
Qed.

Lemma enc_WArray (elems : list (WriteValue DateOrTime)) :
  enc htmlEncode toExifString (WArray elems) =
  let* xs := enc_elems htmlEncode toExifString elems in
  Return ("[" +:+ join "," xs +:+ "]").
Proof. reflexivity. Qed.

Lemma enc_WStruct (fields : list (string * WriteValue DateOrTime)) :
  enc htmlEncode toExifString (WStruct fields) =
  let* xs := enc_fields htmlEncode toExifString fields in
  Return ("{" +:+ join "," xs +:+ "}").
Proof. reflexivity. Qed.

Lemma encodable_WArray (elems : list (WriteValue DateOrTime)) :
  encodable (WArray elems) = forallb encodable elems.
Proof. induction elems as [|ea es IH]; [reflexivity|]. simpl in *. now rewrite IH. Qed.

Lemma encodable_WStruct (fields : list (string * WriteValue DateOrTime)) :
  encodable (WStruct fields) = forallb (fun kv => encodable kv.2) fields.
Proof.
  induction fields as [|[k v] fs IH]; [reflexivity|]. simpl in *.
  now rewrite IH.
Qed.

Lemma enc_encodable (o : WriteValue DateOrTime) :
  match enc htmlEncode toExifString o with
  | Return _ => encodable o = true
  | Throw e => encodable o = false /\ cannot_encode e
  end.
Proof.
  induction o as [ | text | s | d | elems IH | fields IH | json ]
    using WriteValue_nested_ind; try reflexivity.
  - rewrite enc_WArray, encodable_WArray.
    induction IH as [|ea es Hea _ IHes]; [reflexivity|].
    cbn [enc_elems forallb].
    destruct (enc htmlEncode toExifString ea) as [x|e]; simpl.
    + rewrite Hea. simpl.
      destruct (enc_elems htmlEncode toExifString es); simpl in *; exact IHes.
    + destruct Hea as [-> He]. now split.
  - rewrite enc_WStruct, encodable_WStruct.
    induction IH as [|[k v] fs Hv _ IHfs]; [reflexivity|].
    cbn [enc_fields forallb]. simpl in Hv. simpl.
    destruct (enc htmlEncode toExifString v) as [x|e]; simpl.
    + rewrite Hv. simpl.
      destruct (enc_fields htmlEncode toExifString fs); simpl in *; exact IHfs.
    + destruct Hv as [-> He]. now split.
  - simpl. split; [reflexivity|]. now exists json.
Qed.

(** *** [WriteTask.for] *)

Lemma arguments_app (a b : list (string * WriteValue DateOrTime)) :
  arguments htmlEncode toExifString (a ++ b) =
  let* x := arguments htmlEncode toExifString a in
  let* y := arguments htmlEncode toExifString b in
  Return (x ++ y).
Proof.
  induction a as [|[k v] a IH]; simpl.
  - now destruct (arguments htmlEncode toExifString b).
  - destruct (enc htmlEncode toExifString v); [|reflexivity]. simpl.
    rewrite IH. destruct (arguments htmlEncode toExifString a); [|reflexivity].
    simpl. now destruct (arguments htmlEncode toExifString b).
Qed.

Lemma push_elements (key : string) (arr : list (WriteValue DateOrTime)) :
  forall acc : Completion (list string),
  fold_left
    (fun (acc : Completion (list string)) (ea : WriteValue DateOrTime) =>
       let* args := acc in
       let* x := enc htmlEncode toExifString ea in
       Return (args ++ ["-" +:+ key +:+ "=" +:+ x]))
    arr acc =
  let* args := acc in
  let* ts := arguments htmlEncode toExifString (map (pair key) arr) in
  Return (args ++ ts).
Proof.
  induction arr as [|ea arr IH]; intros acc; simpl.
  - destruct acc; simpl; [now rewrite app_nil_r | reflexivity].
  - rewrite IH. destruct acc as [args|e]; [|reflexivity]. simpl.
    destruct (enc htmlEncode toExifString ea); [|reflexivity]. simpl.
    destruct (arguments htmlEncode toExifString (map (pair key) arr));
      [|reflexivity].
    simpl. now rewrite <- app_assoc.
Qed.

Lemma push_tags (tags : list (string * WriteValue DateOrTime)) :
  forall acc : Completion (list string),
  fold_left
    (fun (acc : Completion (list string))
         (entry : string * WriteValue DateOrTime) =>
       let* args := acc in
       let key := entry.1 in
       let val := entry.2 in
       let arr := as_array val in
       fold_left
         (fun (acc : Completion (list string)) (ea : WriteValue DateOrTime) =>
            let* args := acc in
            let* x := enc htmlEncode toExifString ea in
            Return (args ++ ["-" +:+ key +:+ "=" +:+ x]))
         arr (Return args))
    tags acc =
  let* args := acc in
  let* ts := arguments htmlEncode toExifString (elements tags) in
  Return (args ++ ts).
Proof.
  induction tags as [|[key val] tags IH]; intros acc.
  - destruct acc; simpl; [now rewrite app_nil_r | reflexivity].
  - cbn [fold_left]. rewrite IH. destruct acc as [args|e]; [|reflexivity].
    cbv zeta. cbn [bind fst snd]. rewrite push_elements.
    cbn [bind elements flat_map fst snd]. rewrite arguments_app.
    destruct (arguments htmlEncode toExifString (map (pair key) (as_array val)));
      [|reflexivity].
    cbn [bind].
    destruct (arguments htmlEncode toExifString
                (flat_map (fun entry => map (pair entry.1) (as_array entry.2))
                   tags)) eqn:E; unfold elements; rewrite E; [|reflexivity].
    simpl. now rewrite <- app_assoc.
Qed.

Lemma push_optional (optionalArgs args : list string) :
  fold_left (fun args ea => args ++ [ea]) optionalArgs args
  = args ++ optionalArgs.
Proof.
  revert args. induction optionalArgs as [|a l IH]; intros args; simpl.
  - now rewrite app_nil_r.
  - rewrite IH. now rewrite <- app_assoc.
Qed.

(** [for] by the elements of the request. *)
Lemma for_elements (filename : string)
    (tags : list (string * WriteValue DateOrTime))
    (optionalArgs : list string) :
  for_ htmlEncode toExifString path_resolve filename tags optionalArgs =
  let* ts := arguments htmlEncode toExifString (elements tags) in
  Return (path_resolve filename,
          utfCharsetArgs ++ ts ++ optionalArgs ++ [path_resolve filename]).
Proof.
  unfold for_. cbv zeta. rewrite push_tags. cbn [bind].
  destruct (arguments htmlEncode toExifString (elements tags)); [|reflexivity].
  cbn [bind]. rewrite push_optional. now rewrite <- !app_assoc.
Qed.

Lemma arguments_Forall2 (els : list (string * WriteValue DateOrTime))
    (ts : list string) :
  arguments htmlEncode toExifString els = Return ts ->
  Forall2
    (fun arg el =>
       exists x, enc htmlEncode toExifString el.2 = Return x /\
                 arg = "-" +:+ el.1 +:+ "=" +:+ x)
    ts els.
Proof.
  revert ts. induction els as [|[k v] els IH]; intros ts H; simpl in H.
  - injection H as <-. constructor.
  - destruct (enc htmlEncode toExifString v) as [x|] eqn:E; [|discriminate].
    simpl in H.
    destruct (arguments htmlEncode toExifString els) as [xs|]; [|discriminate].
    simpl in H. injection H as <-. constructor; [|now apply IH].
    exists x. now split.
Qed.

(** X10. The arguments of a write. When [WriteTask.for] returns, the source
    file is the resolved file name and the arguments are, in this order: the
    five charset arguments; one argument [-name=value] for every element the
    request writes, tag after tag and, within an array, element after
    element, the value as [enc] encodes it; the optional arguments as given;
    the source file. *)
Theorem for_arguments_layout (filename : string)
    (tags : list (string * WriteValue DateOrTime))
    (optionalArgs : list string) (sourceFile : string) (args : list string) :
  for_ htmlEncode toExifString path_resolve filename tags optionalArgs
    = Return (sourceFile, args) ->
  sourceFile = path_resolve filename /\
  exists ts : list string,
    args = utfCharsetArgs ++ ts ++ optionalArgs ++ [sourceFile] /\
    Forall2
      (fun arg el =>
         exists x, enc htmlEncode toExifString el.2 = Return x /\
                   arg = "-" +:+ el.1 +:+ "=" +:+ x)
      ts (elements tags).
Proof.
  rewrite for_elements.
  destruct (arguments htmlEncode toExifString (elements tags)) as [ts|] eqn:E;
    [|discriminate].
  simpl. intros [= <- <-]. split; [reflexivity|]. exists ts.
  split; [reflexivity|]. now apply arguments_Forall2.
Qed.

Lemma arguments_encodable (els : list (string * WriteValue DateOrTime)) :
  match arguments htmlEncode toExifString els with
  | Return _ => forallb (fun el => encodable el.2) els = true
  | Throw e => forallb (fun el => encodable el.2) els = false /\ cannot_encode e
  end.
Proof.
  induction els as [|[k v] els IH]; [reflexivity|]. simpl.
  pose proof (enc_encodable v) as Hv.
  destruct (enc htmlEncode toExifString v) as [x|e]; simpl.
  - rewrite Hv. simpl.
    destruct (arguments htmlEncode toExifString els); simpl in *; exact IH.
  - destruct Hv as [-> He]. now split.
Qed.

Lemma elements_encodable (tags : list (string * WriteValue DateOrTime)) :
  forallb (fun el => encodable el.2) (elements tags)
  = forallb (fun entry => encodable entry.2) tags.
Proof.
  induction tags as [|[k v] tags IH]; [reflexivity|].
  unfold elements in *. cbn [flat_map]. rewrite forallb_app, IH.
  cbn [forallb fst snd]. f_equal.
  destruct v; try (simpl; rewrite ?andb_true_r; reflexivity).
  rewrite encodable_WArray. cbn [as_array].
  induction elems as [|ea es IHes]; [reflexivity|]. simpl. now rewrite IHes.
Qed.

(** X11. [WriteTask.for] fails fast, and on nothing but a value it cannot
    classify: it returns a task exactly when no value of the request holds,
    at any depth, a value of no case of the encoder; otherwise it throws the
    error ['cannot encode ...'] and builds no task. *)
Theorem for_fails_exactly_on_unencodable (filename : string)
    (tags : list (string * WriteValue DateOrTime))
    (optionalArgs : list string) :
  match for_ htmlEncode toExifString path_resolve filename tags optionalArgs
  with
  | Return _ => forallb (fun entry => encodable entry.2) tags = true
  | Throw e =>
      forallb (fun entry => encodable entry.2) tags = false /\ cannot_encode e
  end.
Proof.
  rewrite for_elements, <- elements_encodable.
  pose proof (arguments_encodable (elements tags)) as H.
  destruct (arguments htmlEncode toExifString (elements tags)); exact H.
Qed.

(** X12. A tag whose value is an empty array is left out of the request:
    [WriteTask.for] builds the same task as without the tag, with no argument
    that names it. *)
Theorem empty_array_writes_nothing (filename key : string)
    (before after : list (string * WriteValue DateOrTime))
    (optionalArgs : list string) :
  for_ htmlEncode toExifString path_resolve filename
    (before ++ (key, WArray []) :: after) optionalArgs
  = for_ htmlEncode toExifString path_resolve filename (before ++ after)
      optionalArgs.
Proof.
  rewrite !for_elements. unfold elements. rewrite !flat_map_app. reflexivity.
Qed.

End Facts.
End EncodeFacts.

Module LeavesFacts.
Import Js Read Leaves JsFacts ReadFacts.

(** The tests of [#parseTag] on the name of the tag. *)
Ltac name_tests :=
  match goal with
  | |- context [bool_decide (?n ∈ PassthroughTags)] =>
      destruct (bool_decide (n ∈ PassthroughTags))
  end;
  [|match goal with
    | |- context [andb ?g (gpsIsInvalid ?I ?t ?r)] =>
        destruct (andb g (gpsIsInvalid I t r))
    end;
    [|match goal with
      | |- context [if ?g then non_nullish ?x else None] =>
          destruct (if g then non_nullish x else None)
      end]].

Section Facts.
Context {C : Classes}.
Variable I : Imports (C := C).
Variable task : ReadTask (C := C).
Variable rd : JsValue.

Implicit Types (value : JsValue) (ws : list string) (tagName : string).

(** Induction on a value, the elements of an array and the values of a
    structure included. *)
Lemma JsValue_nested_ind (P : JsValue -> Prop) :
  P JUndefined -> P JNull -> (forall b, P (JBool b)) ->
  (forall lexeme, P (JNum lexeme)) -> (forall s, P (JStr s)) ->
  (forall elems props, Forall P elems -> P (JArr elems props)) ->
  (forall props, Forall (fun kv => P kv.2) props -> P (JObj props)) ->
  (forall proto props, P proto -> Forall (fun kv => P kv.2) props ->
     P (JInherit proto props)) ->
  forall v, P v.
Proof.
  intros HU HN HB HNum HS HA HO HI.
  fix IH 1. intros [ | |b|lexeme|s|elems props|props|proto props].
  - exact HU.
  - exact HN.
  - apply HB.
  - apply HNum.
  - apply HS.
  - apply HA. induction elems as [|e es IHes]; constructor;
      [apply IH | exact IHes].
  - apply HO. induction props as [|[k v] ps IHps]; constructor;
      [apply IH | exact IHps].
  - apply HI; [apply IH|]. induction props as [|[k v] ps IHps]; constructor;
      [apply IH | exact IHps].
Qed.

(** [#parseTag] on an array and on a structure, past the tests on the
    name. *)
Lemma parseTag_JArr tagName (elems : list JsValue)
    (props : list (string * JsValue)) ws :
  parseTag I task rd tagName (JArr elems props) ws =
  if bool_decide (tagName ∈ PassthroughTags) then (TRaw (JArr elems props), ws)
  else if gps_prefixed tagName && gpsIsInvalid I task rd then (undefined, ws)
  else
    match (if gps_prefixed tagName
           then non_nullish (prop_get tagName (gpsResults I task rd))
           else None) with
    | Some parsed => (parsed, ws)
    | None =>
        let '(ts, ws') := parseElems I task rd tagName elems ws in
        (TArray ts, ws')
    end.
Proof. reflexivity. Qed.

Lemma parseTag_JObj tagName (props : list (string * JsValue)) ws :
  parseTag I task rd tagName (JObj props) ws =
  if bool_decide (tagName ∈ PassthroughTags) then (TRaw (JObj props), ws)
  else if gps_prefixed tagName && gpsIsInvalid I task rd then (undefined, ws)
  else
    match (if gps_prefixed tagName
           then non_nullish (prop_get tagName (gpsResults I task rd))
           else None) with
    | Some parsed => (parsed, ws)
    | None =>
        let '(fs, ws') := parseFields I task rd tagName props ws in
        (TStruct fs, ws')
    end.
Proof. reflexivity. Qed.

Lemma parseTag_JInherit tagName (proto : JsValue)
    (props : list (string * JsValue)) ws :
  parseTag I task rd tagName (JInherit proto props) ws =
  if bool_decide (tagName ∈ PassthroughTags)
  then (TRaw (JInherit proto props), ws)
  else if gps_prefixed tagName && gpsIsInvalid I task rd then (undefined, ws)
  else
    match (if gps_prefixed tagName
           then non_nullish (prop_get tagName (gpsResults I task rd))
           else None) with
    | Some parsed => (parsed, ws)
    | None =>
        let '(fs, ws') := parseFields I task rd tagName props ws in
        (TStruct fs, ws')
    end.
Proof. reflexivity. Qed.

Lemma parseFields_cons tagName (k : string) (v : JsValue)
    (ps : list (string * JsValue)) ws :
  parseFields I task rd tagName ((k, v) :: ps) ws =
  let '(t, ws1) := parseTag I task rd (tagName +:+ "." +:+ k) v ws in
  let '(fs, ws2) := parseFields I task rd tagName ps ws1 in
  (if String.eqb k "__proto__" then fs else (k, t) :: fs, ws2).
Proof. reflexivity. Qed.

(** The loop over a structure whose values decode whatever the warnings of
    the task. *)
Lemma parseFields_split tagName (props : list (string * JsValue)) :
  Forall
    (fun kv => forall tagName ws,
       parseTag I task rd tagName kv.2 ws =
       ((parseTag I task rd tagName kv.2 []).1,
        ws ++ (parseTag I task rd tagName kv.2 []).2)) props ->
  forall ws,
  parseFields I task rd tagName props ws =
  ((parseFields I task rd tagName props []).1,
   ws ++ (parseFields I task rd tagName props []).2).
Proof.
  induction 1 as [|[k v] ps Hv _ IHps]; intros ws.
  - simpl. now rewrite app_nil_r.
  - rewrite !parseFields_cons. simpl in Hv.
    rewrite (Hv (tagName +:+ "." +:+ k) ws), (Hv (tagName +:+ "." +:+ k) []).
    rewrite (IHps (ws ++ _)), (IHps ([] ++ _)). simpl.
    now rewrite app_assoc.
Qed.

Lemma parseTag_frame value :
  forall tagName ws,
  parseTag I task rd tagName value ws =
  (decoded I task rd tagName value, ws ++ pushed I task rd tagName value).
Proof.
  unfold decoded, pushed.
  induction value as [ | |b|lexeme|s|elems props IH|props IH|proto props _ IH]
    using JsValue_nested_ind; intros tagName ws.
  - simpl. now rewrite app_nil_r.
  - simpl. now rewrite app_nil_r.
  - cbn [parseTag nullish is_nullish orb].
    name_tests; simpl; now rewrite app_nil_r.
  - cbn [parseTag nullish is_nullish orb].
    name_tests; simpl; now rewrite app_nil_r.
  - cbn [parseTag].
    destruct (nullish (JStr s)); [simpl; now rewrite app_nil_r|].
    name_tests; try (simpl; now rewrite app_nil_r).
    destruct (parseString I task rd tagName s); simpl;
      now rewrite ?app_nil_r.
  - rewrite !parseTag_JArr.
    name_tests; try (simpl; now rewrite app_nil_r).
    assert (H : forall ws,
              parseElems I task rd tagName elems ws =
              ((parseElems I task rd tagName elems []).1,
               ws ++ (parseElems I task rd tagName elems []).2)).
    { clear ws. induction IH as [|e es He _ IHes]; intros ws.
      - simpl. now rewrite app_nil_r.
      - change (parseElems I task rd tagName (e :: es) ws) with
          (let '(t, ws1) := parseTag I task rd tagName e ws in
           let '(ts, ws2) := parseElems I task rd tagName es ws1 in
           (t :: ts, ws2)).
        change (parseElems I task rd tagName (e :: es) []) with
          (let '(t, ws1) := parseTag I task rd tagName e [] in
           let '(ts, ws2) := parseElems I task rd tagName es ws1 in
           (t :: ts, ws2)).
        rewrite (He tagName ws), (He tagName []).
        rewrite (IHes (ws ++ _)), (IHes ([] ++ _)). simpl.
        now rewrite app_assoc. }
    rewrite (H ws). now destruct (parseElems I task rd tagName elems []).
  - rewrite !parseTag_JObj.
    name_tests; try (simpl; now rewrite app_nil_r).
    rewrite (parseFields_split tagName props IH ws).
    now destruct (parseFields I task rd tagName props []).
  - rewrite !parseTag_JInherit.
    name_tests; try (simpl; now rewrite app_nil_r).
    rewrite (parseFields_split tagName props IH ws).
    now destruct (parseFields I task rd tagName props []).
Qed.

(** X13. The warnings of a task and the decoding of a leaf: what [#parseTag]
    returns does not depend on the warnings the task holds, and it drops
    none of them: the warnings afterwards are those before, followed by the
    warnings the leaf pushes. *)
Theorem parseTag_keeps_warnings tagName value ws :
  (parseTag I task rd tagName value ws).1
    = (parseTag I task rd tagName value []).1 /\
  (parseTag I task rd tagName value ws).2
    = ws ++ (parseTag I task rd tagName value []).2.
Proof.
  rewrite (parseTag_frame value tagName ws). unfold decoded, pushed.
  split; reflexivity.
Qed.

Lemma reaches_value_tests tagName {A : Type} (a b : A) (c : Tag -> A) (d : A) :
  reaches_value I task rd tagName ->
  (if bool_decide (tagName ∈ PassthroughTags) then a
   else if gps_prefixed tagName && gpsIsInvalid I task rd then b
   else match (if gps_prefixed tagName
               then non_nullish (prop_get tagName (gpsResults I task rd))
               else None) with
        | Some parsed => c parsed
        | None => d
        end) = d.
Proof.
  intros [Hp Hg]. rewrite (bool_decide_eq_false_2 _ Hp).
  destruct (gps_prefixed tagName); [|reflexivity].
  destruct (Hg eq_refl) as [-> ->]. reflexivity.
Qed.

Lemma parseElems_frame tagName (es : list JsValue) ws :
  parseElems I task rd tagName es ws =
  (map (decoded I task rd tagName) es,
   ws ++ concat (map (pushed I task rd tagName) es)).
Proof.
  revert ws. induction es as [|e es IH]; intros ws.
  - simpl. now rewrite app_nil_r.
  - change (parseElems I task rd tagName (e :: es) ws) with
      (let '(t, ws1) := parseTag I task rd tagName e ws in
       let '(ts, ws2) := parseElems I task rd tagName es ws1 in
       (t :: ts, ws2)).
    rewrite (parseTag_frame e tagName ws), IH. simpl. now rewrite app_assoc.
Qed.

Lemma parseFields_frame tagName (ps : list (string * JsValue)) ws :
  parseFields I task rd tagName ps ws =
  (map (fun kv => (kv.1, decoded I task rd (tagName +:+ "." +:+ kv.1) kv.2))
     (own_entries ps),
   ws ++ concat (map (fun kv => pushed I task rd (tagName +:+ "." +:+ kv.1) kv.2)
                   ps)).
Proof.
  revert ws. induction ps as [|[k v] ps IH]; intros ws.
  - simpl. now rewrite app_nil_r.
  - rewrite parseFields_cons.
    rewrite (parseTag_frame v (tagName +:+ "." +:+ k) ws), IH.
    unfold own_entries. cbn [List.filter fst snd map concat].
    rewrite <- app_assoc. now destruct (String.eqb k "__proto__").
Qed.

(** X14. Arrays and structures are decoded element by element. Under a tag
    name that lets the value through, an array decodes to the array of its
    decoded elements, each under the name of the tag, and a structure to the
    structure of its decoded values, each under the name of the tag, a dot
    and its key; the properties of the result are those of the keys of the
    structure in their order, but for a key [__proto__], of which the result
    holds no property. Every value is decoded, that of a key [__proto__]
    too: the warnings pushed are those of all the elements in their
    order. *)
Theorem parseTag_maps_over_elements tagName (elems : list JsValue)
    (props : list (string * JsValue)) ws :
  reaches_value I task rd tagName ->
  parseTag I task rd tagName (JArr elems props) ws =
    (TArray (map (decoded I task rd tagName) elems),
     ws ++ concat (map (pushed I task rd tagName) elems)) /\
  parseTag I task rd tagName (JObj props) ws =
    (TStruct
       (map (fun kv => (kv.1, decoded I task rd (tagName +:+ "." +:+ kv.1) kv.2))
          (own_entries props)),
     ws ++ concat
             (map (fun kv => pushed I task rd (tagName +:+ "." +:+ kv.1) kv.2)
                props)).
Proof.
  intros H. split.
  - rewrite parseTag_JArr, (reaches_value_tests tagName _ _ _ _ H).
    now rewrite parseElems_frame.
  - rewrite parseTag_JObj, (reaches_value_tests tagName _ _ _ _ H).
    now rewrite parseFields_frame.
Qed.

(** [#parseTag] on a text, past the tests on the name. *)
Lemma parseTag_JStr tagName (s : string) ws :
  nullish (JStr s) = false -> reaches_value I task rd tagName ->
  parseTag I task rd tagName (JStr s) ws =
  match parseString I task rd tagName s with
  | Return t => (t, ws)
  | Throw e =>
      (TRaw (JStr s), ws ++ [failed_to_parse tagName (JStr s) e])
  end.
Proof.
  intros Hn H. cbn [parseTag]. rewrite Hn. fold (gps_prefixed tagName).
  apply (reaches_value_tests tagName _ _ _ _ H).
Qed.

(** X15. An all-zero text is never taken for a date or a time: under a tag
    name that lets the value through, a text that is no binary field and no
    boolean of a [...Valid] tag and that [OnlyZerosRE] matches is kept as it
    is, whatever the name of the tag and whatever the date and time classes
    would make of it, and pushes no warning. *)
Theorem zeros_are_kept_as_text tagName (s : string) ws :
  nullish (JStr s) = false -> reaches_value I task rd tagName ->
  BinaryField_fromRawValue I s = Return None ->
  (endsWith tagName "Valid" = true -> toBoolean I s = Return None) ->
  OnlyZerosRE_test I s = true ->
  parseTag I task rd tagName (JStr s) ws = (TRaw (JStr s), ws).
Proof.
  intros Hn H Hb Hv Hz. rewrite (parseTag_JStr tagName s ws Hn H).
  unfold parseString. rewrite Hb. cbn [bind].
  destruct (endsWith tagName "Valid").
  - rewrite (Hv eq_refl). cbn [bind]. rewrite Hz, andb_false_r. reflexivity.
  - cbn [bind]. rewrite Hz, andb_false_r. reflexivity.
Qed.


End Facts.
End LeavesFacts.

Module RecordFacts.
Import Js Read Leaves JsFacts ReadFacts LeavesFacts.

Section Facts.
Context {C : Classes}.
Variable I : Imports (C := C).
Variable task : ReadTask (C := C).

Implicit Types (raw rd value : JsValue) (ws : list string) (key : string).

(** The record and the warnings [#parseTags] starts its loop with. *)
Lemma parseTags_start raw :
  let rd := rawDegrouped_of task raw in
  let tags0 : gmap string Tag :=
    <["errors" := strings (errors task)]>
      {["SourceFile" := TRaw (JStr (sourceFile task))]} in
  let tags1 :=
    match (extractTzOffset I task rd).1 with
    | Some t =>
        <["tzSource" := TRaw (JStr (src t))]>
          (<["tz" := TRaw (JStr (tz t))]> tags0)
    | None => tags0
    end in
  let loop :=
    fold_left (parseEntry I task rd) (Object_entries raw)
      (tags1, warnings task ++ (extractTzOffset I task rd).2) in
  (parseTags I task raw).2 = loop.2 /\
  (parseTags I task raw).1 =
    <["warnings" := strings (errorsAndWarnings I (errors task) loop.2 loop.1).2]>
      (<["errors" := strings (errorsAndWarnings I (errors task) loop.2 loop.1).1]>
         loop.1).
Proof.
  cbv zeta. unfold parseTags. cbv zeta.
  destruct (fold_left _ _ _) as [tags2 ws1]. simpl.
  now destruct (errorsAndWarnings I (errors task) ws1 tags2).
Qed.

Lemma fold_parseEntry_warnings rd (es : list (string * JsValue))
    (acc : gmap string Tag * list string) :
  (fold_left (parseEntry I task rd) es acc).2 =
  acc.2 ++ concat (map (fun kv => pushed I task rd (tagName_ task kv.1) kv.2) es).
Proof.
  revert acc. induction es as [|[k v] es IH]; intros acc; simpl.
  - now rewrite app_nil_r.
  - rewrite IH. unfold parseEntry. simpl.
    rewrite (parseTag_frame I task rd v (tagName_ task k) acc.2). simpl.
    now rewrite app_assoc.
Qed.

(** X17. The warnings of a task after [#parseTags]: those it held before,
    then those of the timezone cascade, then those of the leaves of the
    reply in the order of its entries; none is dropped, none comes from
    elsewhere. *)
Theorem warnings_after_parseTags raw :
  (parseTags I task raw).2 =
  warnings task
  ++ (extractTzOffset I task (rawDegrouped_of task raw)).2
  ++ concat (map (fun kv => pushed I task (rawDegrouped_of task raw)
                              (tagName_ task kv.1) kv.2)
               (Object_entries raw)).
Proof.
  destruct (parseTags_start raw) as [H _]. cbv zeta in H. rewrite H.
  rewrite fold_parseEntry_warnings. simpl. now rewrite app_assoc.
Qed.

Lemma parseTags_entry raw key :
  key <> "errors" -> key <> "warnings" ->
  (parseTags I task raw).1 !! key =
  (fold_left (parseEntry I task (rawDegrouped_of task raw)) (Object_entries raw)
     (match (extractTzOffset I task (rawDegrouped_of task raw)).1 with
      | Some t =>
          <["tzSource" := TRaw (JStr (src t))]>
            (<["tz" := TRaw (JStr (tz t))]>
               (<["errors" := strings (errors task)]>
                  {["SourceFile" := TRaw (JStr (sourceFile task))]}))
      | None =>
          <["errors" := strings (errors task)]>
            {["SourceFile" := TRaw (JStr (sourceFile task))]}
      end,
      warnings task ++ (extractTzOffset I task (rawDegrouped_of task raw)).2)).1
  !! key.
Proof.
  intros He Hw. destruct (parseTags_start raw) as [_ H]. cbv zeta in H.
  rewrite H. now rewrite !lookup_insert_ne by congruence.
Qed.

Lemma parseTags_decoded raw key value :
  key ∉ reserved ->
  NoDup (map fst (Object_entries raw)) ->
  (key, value) ∈ Object_entries raw ->
  (parseTags I task raw).1 !! key =
  let t := decoded I task (rawDegrouped_of task raw) (tagName_ task key) value in
  if tag_nullish t || String.eqb key "__proto__" then None else Some t.
Proof.
  intros Hr Hnd Hin. cbv zeta.
  assert (He : key <> "errors")
    by (intros ->; apply Hr; unfold reserved; repeat constructor).
  assert (Hw : key <> "warnings")
    by (intros ->; apply Hr; unfold reserved; repeat constructor).
  rewrite (parseTags_entry raw key He Hw).
  match goal with |- (fold_left _ _ ?a).1 !! _ = _ =>
    destruct (fold_parseEntry_once I task (rawDegrouped_of task raw)
                (Object_entries raw) a key value Hnd Hin) as [ws Hws];
    assert (Ha : a.1 !! key = None)
  end.
  { simpl. destruct (extractTzOffset I task (rawDegrouped_of task raw)).1;
      rewrite ?lookup_insert_ne, ?lookup_singleton_ne; try reflexivity;
      intros <-; apply Hr; unfold reserved; repeat constructor. }
  rewrite Hws. cbv zeta.
  rewrite (parseTag_frame I task _ value (tagName_ task key) ws).
  cbn [fst] in Ha |- *. now rewrite Ha.
Qed.

Lemma fold_parseEntry_keys rd (es : list (string * JsValue))
    (acc : gmap string Tag * list string) key :
  is_Some ((fold_left (parseEntry I task rd) es acc).1 !! key) ->
  is_Some (acc.1 !! key) \/ key ∈ map fst es.
Proof.
  revert acc. induction es as [|[k v] es IH]; intros acc H; [now left|].
  simpl in H. apply IH in H as [H|H].
  - destruct (decide (k = key)) as [->|Hk].
    + right. simpl. left.
    + left. now rewrite parseEntry_other in H.
  - right. simpl. now right.
Qed.

Lemma fold_parseEntry_present rd (es : list (string * JsValue))
    (acc : gmap string Tag * list string) key :
  is_Some (acc.1 !! key) ->
  is_Some ((fold_left (parseEntry I task rd) es acc).1 !! key).
Proof.
  revert acc. induction es as [|[k v] es IH]; intros acc H; [exact H|].
  simpl. apply IH. unfold parseEntry. simpl.
  destruct (parseTag I task rd (tagName_ task k) v acc.2) as [t ws']. simpl.
  destruct (tag_nullish t || String.eqb k "__proto__"); [exact H|].
  destruct (decide (k = key)) as [->|Hk].
  - rewrite lookup_insert_eq. eauto.
  - now rewrite lookup_insert_ne.
Qed.

(** X19. The keys of the record. The record holds [SourceFile], [errors]
    and [warnings] whatever the reply, and no key that is neither one of the
    fields of the record's own nor a key of the reply. *)
Theorem record_keys raw :
  is_Some ((parseTags I task raw).1 !! "SourceFile") /\
  is_Some ((parseTags I task raw).1 !! "errors") /\
  is_Some ((parseTags I task raw).1 !! "warnings") /\
  forall key, is_Some ((parseTags I task raw).1 !! key) ->
    key ∈ reserved \/ key ∈ map fst (Object_entries raw).
Proof.
  split; [|split; [|split]].
  - rewrite parseTags_entry by discriminate.
    apply fold_parseEntry_present. simpl.
    destruct (extractTzOffset I task (rawDegrouped_of task raw)).1;
      rewrite ?lookup_insert_ne, ?lookup_singleton_eq by discriminate; eauto.
  - destruct (parseTags_start raw) as [_ H]. cbv zeta in H. rewrite H.
    rewrite lookup_insert_ne by discriminate. rewrite lookup_insert_eq. eauto.
  - destruct (parseTags_start raw) as [_ H]. cbv zeta in H. rewrite H.
    rewrite lookup_insert_eq. eauto.
  - intros key H.
    destruct (decide (key ∈ reserved)) as [|Hr]; [now left|]. right.
    assert (He : key <> "errors")
      by (intros ->; apply Hr; unfold reserved; repeat constructor).
    assert (Hw : key <> "warnings")
      by (intros ->; apply Hr; unfold reserved; repeat constructor).
    rewrite (parseTags_entry raw key He Hw) in H.
    apply fold_parseEntry_keys in H as [H|H]; [|exact H].
    exfalso. simpl in H. destruct H as [t H]. revert H.
    destruct (extractTzOffset I task (rawDegrouped_of task raw)).1;
      rewrite ?lookup_insert_ne, ?lookup_singleton_ne; try discriminate;
      intros <-; apply Hr; unfold reserved; repeat constructor.
Qed.

(** X20. The entries [tz] and [tzSource] of the record are the result of the
    timezone cascade: in a reply that has no tag of these names, the record
    holds the zone and the name of the source the cascade returns, and has
    neither entry when the cascade returns nothing. *)
Theorem tz_entries_are_the_cascade raw :
  "tz" ∉ map fst (Object_entries raw) ->
  "tzSource" ∉ map fst (Object_entries raw) ->
  let tzSrc := (extractTzOffset I task (rawDegrouped_of task raw)).1 in
  (parseTags I task raw).1 !! "tz"
    = option_map (fun t => TRaw (JStr (tz t))) tzSrc /\
  (parseTags I task raw).1 !! "tzSource"
    = option_map (fun t => TRaw (JStr (src t))) tzSrc.
Proof.
  intros H1 H2. cbv zeta. split.
  - rewrite parseTags_entry by discriminate.
    rewrite fold_parseEntry_absent by exact H1. simpl.
    destruct (extractTzOffset I task (rawDegrouped_of task raw)).1; simpl.
    + rewrite lookup_insert_ne by discriminate. now rewrite lookup_insert_eq.
    + now rewrite lookup_insert_ne, lookup_singleton_ne by discriminate.
  - rewrite parseTags_entry by discriminate.
    rewrite fold_parseEntry_absent by exact H2. simpl.
    destruct (extractTzOffset I task (rawDegrouped_of task raw)).1; simpl.
    + now rewrite lookup_insert_eq.
    + now rewrite lookup_insert_ne, lookup_singleton_ne by discriminate.
Qed.

(** X18. The entries of the record are decoded one by one. In a reply whose
    keys are distinct, the entry of a tag, other than the fields of the
    record's own, is what [#parseTag] makes of the value of that tag under
    its name, degrouped if need be, whatever the other tags of the reply
    hold and whatever warnings they push; the tag has no entry when that is
    nothing, and none when its key is [__proto__], of which the record holds
    no entry whatever the reply gives it. *)
Theorem record_entry_is_the_decoded_leaf raw key value :
  key ∉ reserved ->
  NoDup (map fst (Object_entries raw)) ->
  (key, value) ∈ Object_entries raw ->
  (parseTags I task raw).1 !! key =
  let t := decoded I task (rawDegrouped_of task raw) (tagName_ task key) value in
  if tag_nullish t || String.eqb key "__proto__" then None else Some t.
Proof. apply parseTags_decoded. Qed.

Lemma elem_of_concat_map {A : Type} (f : A -> list string) (x : A)
    (xs : list A) (w : string) :
  x ∈ xs -> w ∈ f x -> w ∈ concat (map f xs).
Proof.
  induction xs as [|y xs IH]; intros Hx Hw; [inversion Hx|].
  simpl. apply elem_of_app. apply elem_of_cons in Hx as [->|Hx]; auto.
Qed.

(** X21. A leaf that fails to decode does not fail the read. When a class
    or function that decodes the text of a tag throws, the record keeps the
    text as the worker rendered it and the warnings of the task hold the
    message of the failure. Under the key [__proto__] the warning is
    recorded as well, and the record holds no entry, as for every value of
    that key. *)
Theorem failed_leaf_is_kept_with_a_warning raw key (s : string) (e : JsError) :
  key ∉ reserved ->
  NoDup (map fst (Object_entries raw)) ->
  (key, JStr s) ∈ Object_entries raw ->
  nullish (JStr s) = false ->
  reaches_value I task (rawDegrouped_of task raw) (tagName_ task key) ->
  parseString I task (rawDegrouped_of task raw) (tagName_ task key) s = Throw e ->
  (parseTags I task raw).1 !! key
    = (if String.eqb key "__proto__" then None else Some (TRaw (JStr s))) /\
  failed_to_parse (tagName_ task key) (JStr s) e ∈ (parseTags I task raw).2.
Proof.
  intros Hr Hnd Hin Hn Hv Ht.
  pose proof (parseTag_JStr I task (rawDegrouped_of task raw)
                (tagName_ task key) s [] Hn Hv) as Hp.
  rewrite Ht in Hp. split.
  - rewrite (parseTags_decoded raw key (JStr s) Hr Hnd Hin). cbv zeta.
    unfold decoded. now rewrite Hp.
  - destruct (parseTags_start raw) as [H _]. cbv zeta in H. rewrite H.
    rewrite fold_parseEntry_warnings. apply elem_of_app. right.
    apply (elem_of_concat_map _ (key, JStr s)); [exact Hin|].
    unfold pushed. cbn [fst snd]. rewrite Hp. simpl. now left.
Qed.

(** X22. A value of the GPS extraction replaces the value of the reply. When
    the coordinates are valid and the extraction holds a value under the
    name of a GPS tag of the reply, the record holds that value for the tag,
    whatever the worker rendered for it. *)
Theorem gps_result_replaces_the_reply raw key value (parsed : Tag) :
  key ∉ reserved ->
  NoDup (map fst (Object_entries raw)) ->
  (key, value) ∈ Object_entries raw ->
  nullish value = false ->
  gps_prefixed (tagName_ task key) = true ->
  gpsIsInvalid I task (rawDegrouped_of task raw) = false ->
  prop_get (tagName_ task key) (gpsResults I task (rawDegrouped_of task raw))
    = Some parsed ->
  tag_nullish parsed = false ->
  (parseTags I task raw).1 !! key = Some parsed.
Proof.
  intros Hr Hnd Hin Hn Hg Hi Hp Hnp.
  rewrite (parseTags_decoded raw key value Hr Hnd Hin). cbv zeta.
  assert (Hpass : bool_decide (tagName_ task key ∈ PassthroughTags) = false).
  { apply bool_decide_eq_false. intros H%passthrough_not_gps. congruence. }
  assert (Hd : decoded I task (rawDegrouped_of task raw) (tagName_ task key)
                 value = parsed).
  { unfold decoded. unfold gps_prefixed in Hg.
    destruct value; simpl in Hn |- *; try discriminate Hn;
      rewrite ?Hn, Hpass, Hg, Hi, Hp; simpl; now rewrite Hnp. }
  assert (Hk : String.eqb key "__proto__" = false).
  { apply String.eqb_neq. intros ->.
    assert (Hname : tagName_ task "__proto__" = "__proto__")
      by (unfold tagName_; destruct (degroup task); reflexivity).
    rewrite Hname in Hg. discriminate Hg. }
  now rewrite Hd, Hnp, Hk.
Qed.

End Facts.
End RecordFacts.

Module CascadeFacts.
Import Js Read JsFacts ReadFacts.

Section Facts.
Context {C : Classes}.
Variable I : Imports (C := C).
Variable task : ReadTask (C := C).

(** X28. A coordinate lookup that throws does not fail the read. When the
    coordinates are valid, the reply names no zone for them and the lookup
    [geoTz] of the caller throws, the GPS source yields no zone and one
    warning, which carries the error; a cascade that consults the GPS source
    goes on with the sources that follow, and the warning is among those of
    the task after [#parseTags]. *)
Theorem failed_gps_lookup_is_a_warning (raw : JsValue) (gps : GpsLocation)
    (lat lon : Tag) (e : JsError) :
  let rd := rawDegrouped_of task raw in
  let warning :=
    "Failed to determine timezone from GPS coordinates: "
    +:+ error_toString e in
  extractGpsMetadata I task rd = Some gps -> invalid gps = false ->
  non_nullish (prop_get "GPSLatitude" (result gps)) = Some lat ->
  non_nullish (prop_get "GPSLongitude" (result gps)) = Some lon ->
  normalizeZone I (get rd "GeolocationTimeZone") = None ->
  geoTz (options task) lat lon = Throw e ->
  preferTimezoneInferenceFromGps (options task) = true \/
  extractTzOffsetFromTags I rd (options task) = None ->
  extractTzOffsetFromGps I task rd = (None, [warning]) /\
  extractTzOffset I task rd =
    (first_success
       [extractTzOffsetFromTags I rd (options task);
        extractTzOffsetFromDatestamps I rd (options task);
        (if defaultToUTC task rd
         then Some (mkTzSrc "UTC" "defaultVideosToUTC") else None);
        extractTzOffsetFromUTCOffset I rd;
        extractTzOffsetFromTimeStamp I rd (options task)],
     [warning]) /\
  warning ∈ (parseTags I task raw).2.
Proof.
  cbv zeta. intros Hg Hi Hlat Hlon Hz Ht Hc.
  assert (Hgps : extractTzOffsetFromGps I task (rawDegrouped_of task raw) =
                 (None, ["Failed to determine timezone from GPS coordinates: "
                         +:+ error_toString e])).
  { unfold extractTzOffsetFromGps, lazy. now rewrite Hg, Hi, Hlat, Hlon, Hz, Ht. }
  assert (Hall : extractTzOffset I task (rawDegrouped_of task raw) =
    (first_success
       [extractTzOffsetFromTags I (rawDegrouped_of task raw) (options task);
        extractTzOffsetFromDatestamps I (rawDegrouped_of task raw) (options task);
        (if defaultToUTC task (rawDegrouped_of task raw)
         then Some (mkTzSrc "UTC" "defaultVideosToUTC") else None);
        extractTzOffsetFromUTCOffset I (rawDegrouped_of task raw);
        extractTzOffsetFromTimeStamp I (rawDegrouped_of task raw) (options task)],
     ["Failed to determine timezone from GPS coordinates: "
      +:+ error_toString e])).
  { unfold extractTzOffset, lazy. cbv zeta. rewrite Hgps. cbn [fst snd].
    destruct (preferTimezoneInferenceFromGps (options task)) eqn:Ep.
    - destruct (extractTzOffsetFromTags I _ (options task)); [reflexivity|].
      cbn [orElse first_success].
      destruct (extractTzOffsetFromDatestamps I _ (options task));
        [reflexivity|].
      destruct (defaultToUTC task _); [reflexivity|].
      cbn [orElse first_success].
      destruct (extractTzOffsetFromUTCOffset I _); [reflexivity|].
      now destruct (extractTzOffsetFromTimeStamp I _ (options task)).
    - destruct Hc as [Hc|Hc]; [discriminate|]. rewrite Hc.
      cbn [orElse first_success].
      destruct (extractTzOffsetFromDatestamps I _ (options task));
        [reflexivity|].
      destruct (defaultToUTC task _); [reflexivity|].
      cbn [orElse first_success].
      destruct (extractTzOffsetFromUTCOffset I _); [reflexivity|].
      now destruct (extractTzOffsetFromTimeStamp I _ (options task)). }
  split; [exact Hgps|]. split; [exact Hall|].
  destruct (RecordFacts.parseTags_start I task raw) as [H _]. cbv zeta in H.
  rewrite H, RecordFacts.fold_parseEntry_warnings. cbn [snd]. rewrite Hall.
  apply elem_of_app. left. apply elem_of_app. right. now left.
Qed.

End Facts.
End CascadeFacts.

Module DegroupFacts.
Import Js Read JsFacts ReadFacts.

(** *** [split] *)

Lemma includes_colon (c : ascii) (s : string) :
  includes (String c s) ":" = false ->
  Ascii.eqb c ":" = false /\ includes s ":" = false.
Proof.
  cbn [includes startsWith]. intros H. apply orb_false_elim in H as [H1 H2].
  split; [|exact H2].
  rewrite Ascii.eqb_sym. destruct (Ascii.eqb ":" c); [|reflexivity].
  now destruct s.
Qed.

Lemma split_no_colon (s : string) :
  includes s ":" = false -> split ":" s = [s].
Proof.
  induction s as [|c s IH]; intros H; [reflexivity|].
  apply includes_colon in H as [Hc Hs]. cbn [split]. rewrite Hc, (IH Hs).
  reflexivity.
Qed.

Lemma split_colon (g rest : string) :
  includes g ":" = false ->
  split ":" (g +:+ String ":" rest) = g :: split ":" rest.
Proof.
  induction g as [|c g IH]; intros H; [reflexivity|].
  apply includes_colon in H as [Hc Hg]. rewrite append_cons. cbn [split].
  rewrite Hc, (IH Hg). reflexivity.
Qed.

Section Facts.
Context {C : Classes}.
Variable I : Imports (C := C).
Variable task : ReadTask (C := C).

(** X23. The name of a tag under [-G]. In a task that degroups, a key
    without a colon is the name of its tag, and a key made of a group, a
    colon and a name stands for that name; of a key with a second colon,
    the name is what stands between the first two. *)
Theorem degrouped_name (group name : string) :
  degroup task = true ->
  includes group ":" = false -> includes name ":" = false ->
  tagName_ task name = name /\
  tagName_ task (group +:+ ":" +:+ name) = name /\
  forall rest : string,
    tagName_ task (group +:+ ":" +:+ name +:+ ":" +:+ rest) = name.
Proof.
  intros Hd Hg Hn. unfold tagName_. rewrite Hd. split; [|split].
  - now rewrite (split_no_colon name Hn).
  - change (":" +:+ name) with (String ":" name).
    now rewrite (split_colon group name Hg), (split_no_colon name Hn).
  - intros rest.
    change (":" +:+ name +:+ ":" +:+ rest)
      with (String ":" (name +:+ String ":" rest)).
    now rewrite (split_colon group _ Hg), (split_colon name rest Hn).
Qed.

(** *** [#rawDegrouped] *)

Lemma prop_get_prop_set {V : Type} (k k' : string) (v : V)
    (ps : list (string * V)) :
  prop_get k (prop_set k' v ps) =
  if String.eqb k k' then Some v else prop_get k ps.
Proof.
  induction ps as [|[k0 v0] ps IH]; simpl.
  - reflexivity.
  - destruct (String.eqb k' k0) eqn:E; simpl.
    + apply String.eqb_eq in E as <-. now destruct (String.eqb k k').
    + rewrite IH. destruct (String.eqb k k0) eqn:E0; [|reflexivity].
      apply String.eqb_eq in E0 as ->. rewrite String.eqb_sym in E.
      now rewrite E.
Qed.

Lemma assign_ordinary (o : JsValue) (k : string) (v : JsValue) :
  ordinary o = true -> ordinary (assign o k v) = true.
Proof.
  intros Ho. unfold assign.
  destruct (String.eqb k "__proto__" && finds_accessor o).
  - rewrite Ho. now destruct v.
  - now destruct o.
Qed.

(** An assignment under a name other than [__proto__] writes the own
    property of that name. *)
Lemma assign_own (o : JsValue) (name : string) (v : JsValue) :
  ordinary o = true -> name <> "__proto__" ->
  prop_get name (own (assign o name v)) = Some v.
Proof.
  intros Ho Hn. apply String.eqb_neq in Hn. unfold assign. rewrite Hn.
  cbn [andb].
  destruct o as [ | | | | | |ps|p ps]; try discriminate; cbn [own];
    now rewrite prop_get_prop_set, String.eqb_refl.
Qed.

(** An assignment under another name leaves the own property as it is. *)
Lemma assign_other (o : JsValue) (name k : string) (v : JsValue) :
  k <> name ->
  prop_get name (own (assign o k v)) = prop_get name (own o).
Proof.
  intros Hk.
  assert (E : String.eqb name k = false)
    by (apply String.eqb_neq; congruence).
  unfold assign. destruct (String.eqb k "__proto__" && finds_accessor o).
  - destruct v; try reflexivity; now destruct o.
  - destruct o as [ | | | | | |ps|p ps]; try reflexivity; cbn [own];
      now rewrite prop_get_prop_set, E.
Qed.

Lemma degroup_fold_ordinary (es : list (string * JsValue)) (o : JsValue) :
  ordinary o = true ->
  ordinary (fold_left (fun acc kv => assign acc (tagName_ task kv.1) kv.2)
              es o) = true.
Proof.
  revert o. induction es as [|[k v] es IH]; intros o H; [exact H|].
  simpl. apply IH. now apply assign_ordinary.
Qed.

Lemma degroup_fold_other (name : string) (es : list (string * JsValue))
    (o : JsValue) :
  Forall (fun kv => tagName_ task kv.1 <> name) es ->
  prop_get name
    (own (fold_left (fun acc kv => assign acc (tagName_ task kv.1) kv.2) es o))
  = prop_get name (own o).
Proof.
  revert o. induction es as [|[k v] es IH]; intros o H; [reflexivity|].
  apply Forall_cons in H as [Hk H]. simpl. rewrite (IH _ H).
  now apply assign_other.
Qed.

(** An own property is what a lookup finds, whatever the prototype. *)
Lemma get_own (o : JsValue) (name : string) (v : JsValue) :
  ordinary o = true -> prop_get name (own o) = Some v -> get o name = v.
Proof.
  destruct o as [ | | | | | |ps|p ps]; try discriminate; intros _ H;
    simpl in *; now rewrite H.
Qed.

(** X24. Looking a tag up by its name whatever its group. In a task that
    degroups, the degrouped reply holds under a name, other than
    [__proto__], the value of the last entry of the reply whose key stands
    for that name: an entry that follows, under another group, replaces it,
    and no prototype that an entry [__proto__] gives the degrouped reply
    hides it. *)
Theorem degrouped_lookup_takes_the_last (raw value : JsValue)
    (before after : list (string * JsValue)) (key : string) :
  degroup task = true ->
  tagName_ task key <> "__proto__" ->
  Object_entries raw = before ++ (key, value) :: after ->
  Forall (fun kv => tagName_ task kv.1 <> tagName_ task key) after ->
  get (rawDegrouped_of task raw) (tagName_ task key)
    = value.
Proof.
  intros Hd Hn He Ha. unfold rawDegrouped_of. rewrite Hd, He.
  rewrite fold_left_app. cbn [fold_left fst snd].
  set (o := fold_left (fun acc kv => assign acc (tagName_ task kv.1) kv.2)
              before (JObj [])).
  assert (Ho : ordinary o = true) by now apply degroup_fold_ordinary.
  apply get_own.
  - apply degroup_fold_ordinary. now apply assign_ordinary.
  - rewrite (degroup_fold_other _ _ _ Ha). now apply assign_own.
Qed.

End Facts.
End DegroupFacts.

Module ReadForFacts.
Import Js Read ReadFor JsFacts.

Section Facts.
Context {C : Classes}.
Variable Utf8FilenameCharsetArgs : list string.
Variable path_resolve : string -> string.

Lemma numeric_reference_not_G (ea : string) :
  String.eqb "-G" ("-" +:+ ea +:+ "#") = false.
Proof.
  apply String.eqb_neq. intros E. destruct ea as [|c ea]; [discriminate|].
  apply (f_equal String.length) in E. rewrite !append_length in E.
  simpl in E. lia.
Qed.

Lemma existsb_numeric (tags : list string) :
  existsb (String.eqb "-G") (map (fun ea => "-" +:+ ea +:+ "#") tags) = false.
Proof.
  induction tags as [|ea tags IH]; [reflexivity|].
  cbn [map existsb]. now rewrite numeric_reference_not_G, IH.
Qed.

(** X25. The arguments of a read. They are, in this order: the charset
    arguments, [-json], the read arguments of the options, [-api] and
    [struct=N] ([struct=0] when the option is no number), [-use MWG] when
    the option is set, the two [-api] pairs of the image hash when a type of
    hash is given, [-api geolocation] when the option is [true], the
    references to the numeric tags, each written [-name#], then [-all], then
    the source file: [-all] follows every numeric reference. And the task
    degroups exactly when [-G] is one of the charset arguments or of the read
    arguments of the options: no other option brings it in. *)
Theorem read_arguments (filename : string) (opts : ReadOptions)
    (task : ReadTask (C := C)) :
  let sourceFile := (for_ Utf8FilenameCharsetArgs path_resolve filename opts).1 in
  let args := (for_ Utf8FilenameCharsetArgs path_resolve filename opts).2 in
  Read.args task = args ->
  sourceFile <> "-G" ->
  sourceFile = path_resolve filename /\
  args = Utf8FilenameCharsetArgs ++ ["-json"] ++ readArgs opts
         ++ ["-api"; "struct=" +:+ default "0" (struct opts)]
         ++ (if useMWG opts then ["-use"; "MWG"] else [])
         ++ match imageHashType opts with
            | Some hash =>
                ["-api"; "requesttags=imagedatahash";
                 "-api"; "imagehashtype=" +:+ hash]
            | None => []
            end
         ++ (if geolocation opts then ["-api"; "geolocation"] else [])
         ++ map (fun ea => "-" +:+ ea +:+ "#") (numericTags opts)
         ++ ["-all"; sourceFile] /\
  degroup task =
    existsb (String.eqb "-G") (Utf8FilenameCharsetArgs ++ readArgs opts).
Proof.
  cbv zeta. intros Ha Hs. split; [reflexivity|].
  assert (Hargs :
    (for_ Utf8FilenameCharsetArgs path_resolve filename opts).2 =
    Utf8FilenameCharsetArgs ++ ["-json"] ++ readArgs opts
    ++ ["-api"; "struct=" +:+ default "0" (struct opts)]
    ++ (if useMWG opts then ["-use"; "MWG"] else [])
    ++ match imageHashType opts with
       | Some hash =>
           ["-api"; "requesttags=imagedatahash";
            "-api"; "imagehashtype=" +:+ hash]
       | None => []
       end
    ++ (if geolocation opts then ["-api"; "geolocation"] else [])
    ++ map (fun ea => "-" +:+ ea +:+ "#") (numericTags opts)
    ++ ["-all"; path_resolve filename]).
  { unfold for_. cbv zeta. cbn [snd].
    destruct (useMWG opts), (imageHashType opts) as [hash|], (geolocation opts);
      rewrite <- ?app_assoc; reflexivity. }
  split; [exact Hargs|].
  unfold degroup. rewrite Ha, Hargs. rewrite !existsb_app, existsb_numeric.
  assert (Hsrc : String.eqb "-G" (path_resolve filename) = false).
  { apply String.eqb_neq. intros E. apply Hs. symmetry. exact E. }
  assert (Hstruct : String.eqb "-G" ("struct=" +:+ default "0" (struct opts))
                    = false) by reflexivity.
  assert (Hhash : forall hash,
            String.eqb "-G" ("imagehashtype=" +:+ hash) = false)
    by reflexivity.
  cbn [existsb]. rewrite Hsrc, Hstruct.
  destruct (useMWG opts), (imageHashType opts) as [hash|], (geolocation opts);
    cbn; rewrite ?Hhash, ?orb_false_r; reflexivity.
Qed.

End Facts.
End ReadForFacts.

Module WhichFacts.
Import Js Which.

Section Facts.
Variable isAbsolute : string -> bool.
Variable basename : string -> string.
Variable join : string -> string -> string.
Variable delimiter : ascii.
Variable PATH : string.
Variable isWin32 : bool.
Variable existsSync : string -> bool.
Variable access_RX : string -> bool.

Lemma which_loop (base : string) (dirs : list string) :
  (fix loop (dirs : list string) : option string :=
     match dirs with
     | [] => None
     | dir :: dirs' =>
         let fullPath := join dir base in
         if canRX isWin32 existsSync access_RX fullPath then Some fullPath
         else loop dirs'
     end) dirs
  = head (filter (fun p => canRX isWin32 existsSync access_RX p = true)
            (map (fun dir => join dir base) dirs)).
Proof.
  induction dirs as [|dir dirs IH]; [reflexivity|].
  cbn [map]. rewrite filter_cons. cbv zeta.
  destruct (decide (canRX isWin32 existsSync access_RX (join dir base) = true))
    as [E|E].
  - now rewrite E.
  - apply not_true_is_false in E. rewrite E. exact IH.
Qed.

(** X26. What [which] finds. A path it returns can be read and executed
    (on Windows: exists). It returns its argument when that is absolute and
    can be; otherwise, an absolute argument that cannot be included, it
    returns the first of the candidates, the directories of [PATH] in their
    order joined with the base name of the argument, that can be; and
    nothing when there is none. *)
Theorem which_finds_the_first_executable (binaryOrPath : string) :
  let ok := canRX isWin32 existsSync access_RX in
  let found :=
    which isAbsolute basename join delimiter PATH isWin32 existsSync access_RX
      binaryOrPath in
  (forall p, found = Some p -> ok p = true) /\
  (isAbsolute binaryOrPath && ok binaryOrPath = true ->
   found = Some binaryOrPath) /\
  (isAbsolute binaryOrPath && ok binaryOrPath = false ->
   found = head (filter (fun p => ok p = true)
                   (candidates basename join delimiter PATH binaryOrPath))) /\
  (found = None <->
   isAbsolute binaryOrPath && ok binaryOrPath = false /\
   Forall (fun p => ok p = false)
     (candidates basename join delimiter PATH binaryOrPath)).
Proof.
  cbv zeta. unfold which, candidates. cbv zeta. rewrite which_loop.
  set (ok := canRX isWin32 existsSync access_RX).
  set (cs := map (fun dir => join dir (basename binaryOrPath))
               (split delimiter PATH)).
  assert (Hhead : forall p,
            head (filter (fun p => ok p = true) cs) = Some p -> ok p = true).
  { intros p Hp. apply head_Some_elem_of in Hp.
    now apply list_elem_of_filter in Hp as [Hp _]. }
  assert (Hnone : head (filter (fun p => ok p = true) cs) = None <->
                  Forall (fun p => ok p = false) cs).
  { rewrite head_None. split.
    - intros Hf. apply Forall_forall. intros p Hp.
      destruct (ok p) eqn:E; [|reflexivity].
      assert (Hin : p ∈ filter (fun p => ok p = true) cs)
        by (apply list_elem_of_filter; now split).
      rewrite Hf in Hin. inversion Hin.
    - intros Hall. clear Hhead.
      induction cs as [|c cs' IH]; [reflexivity|].
      apply Forall_cons in Hall as [Hc Hall].
      rewrite filter_cons, decide_False by (simpl; congruence).
      now apply IH. }
  destruct (isAbsolute binaryOrPath && ok binaryOrPath) eqn:E.
  - split; [|split; [|split]].
    + intros p [= <-]. now apply andb_prop in E as [_ E].
    + reflexivity.
    + discriminate.
    + split; [discriminate | intros [? _]; discriminate].
  - split; [|split; [|split]].
    + exact Hhead.
    + discriminate.
    + reflexivity.
    + rewrite Hnone. tauto.
Qed.

End Facts.
End WhichFacts.

Module RequestFacts.
Import Js Read Sample Requests Leaves ReadFacts LeavesFacts RecordFacts
  SampleFacts.

Lemma for_arguments_layout_witness :
  let sourceFile := "/home/u/a.jpg" in
  let args :=
    Encode.utfCharsetArgs
    ++ ["-Keywords=a&#38;b"; "-Keywords=c"; "-Rating=5"; "-Title="]
    ++ ["-overwrite_original"] ++ [sourceFile] in
  sourceFile = posix_resolve "/home/u" "a.jpg" /\
  exists ts : list string,
    args = Encode.utfCharsetArgs ++ ts ++ ["-overwrite_original"]
           ++ [sourceFile] /\
    Forall2
      (fun arg el =>
         exists x,
           Encode.enc sample_htmlEncode sample_toExifString el.2 = Return x /\
           arg = "-" +:+ el.1 +:+ "=" +:+ x)
      ts (Encode.elements sample_tags).
Proof.
  cbv zeta.
  apply (EncodeFacts.for_arguments_layout string sample_htmlEncode
           sample_toExifString (posix_resolve "/home/u") "a.jpg" sample_tags
           ["-overwrite_original"]).
  reflexivity.
Defined.

Lemma keywords_reach_value (tagName : string) :
  tagName ∉ PassthroughTags -> gps_prefixed tagName = false ->
  reaches_value imports (sample_task "a.jpg" (sample_options true true false))
    (raw_of keywords_reply) tagName.
Proof. intros Hp Hg. split; [exact Hp|]. intros H. congruence. Qed.

Lemma parseTag_maps_over_elements_witness :
  let task := sample_task "a.jpg" (sample_options true true false) in
  parseTag imports task (raw_of keywords_reply) "Keywords"
    (JArr [JStr "a"; JStr "undef"] []) ["w"]
  = (TArray [TRaw (JStr "a"); undefined], ["w"]) /\
  parseTag imports task (raw_of keywords_reply) "Flash"
    (JObj [("__proto__", JStr "x"); ("Mode", JStr "On")]) ["w"]
  = (TStruct [("Mode", TRaw (JStr "On"))], ["w"]).
Proof.
  cbv zeta. split.
  - apply (parseTag_maps_over_elements imports
             (sample_task "a.jpg" (sample_options true true false))
             (raw_of keywords_reply) "Keywords" [JStr "a"; JStr "undef"] []
             ["w"]).
    apply keywords_reach_value; [not_in_list | reflexivity].
  - apply (parseTag_maps_over_elements imports
             (sample_task "a.jpg" (sample_options true true false))
             (raw_of keywords_reply) "Flash" []
             [("__proto__", JStr "x"); ("Mode", JStr "On")] ["w"]).
    apply keywords_reach_value; [not_in_list | reflexivity].
Defined.

Lemma zeros_are_kept_as_text_witness :
  MaybeDateOrTimeRe_test "SubSecTime" = true /\
  parseTag imports (sample_task "a.jpg" (sample_options true true false))
    (raw_of keywords_reply) "SubSecTime" (JStr "00") []
  = (TRaw (JStr "00"), []).
Proof.
  split; [reflexivity|].
  apply (zeros_are_kept_as_text imports
           (sample_task "a.jpg" (sample_options true true false))
           (raw_of keywords_reply) "SubSecTime" "00" []).
  - reflexivity.
  - apply keywords_reach_value; [not_in_list | reflexivity].
  - reflexivity.
  - intros H. discriminate H.
  - reflexivity.
Defined.



Lemma record_entry_is_the_decoded_leaf_witness :
  (parseTags imports (sample_task "a.jpg" (sample_options true true false))
     (raw_of photo_reply)).1 !! "OffsetTimeOriginal"
  = Some (TRaw (JStr "+02:00")).
Proof.
  apply (record_entry_is_the_decoded_leaf imports
           (sample_task "a.jpg" (sample_options true true false))
           (raw_of photo_reply) "OffsetTimeOriginal" (JStr "+02:00")).
  - not_in_list.
  - exact photo_reply_keys.
  - vm_compute. do 3 right. left.
Defined.

Lemma tz_entries_are_the_cascade_witness :
  let tags :=
    (parseTags imports (sample_task "a.jpg" (sample_options true true false))
       (raw_of photo_reply)).1 in
  tags !! "tz" = Some (TRaw (JStr "+02:00")) /\
  tags !! "tzSource" = Some (TRaw (JStr "OffsetTimeOriginal")).
Proof.
  cbv zeta.
  apply (tz_entries_are_the_cascade imports
           (sample_task "a.jpg" (sample_options true true false))
           (raw_of photo_reply)).
  - vm_compute. not_in_list.
  - vm_compute. not_in_list.
Defined.

Lemma garbled_reply_keys :
  NoDup (map fst (Object_entries (raw_of garbled_reply))).
Proof. apply (bool_decide_unpack _). vm_compute. exact I. Qed.

Lemma failed_leaf_is_kept_with_a_warning_witness :
  let task := sample_task "a.jpg" (sample_options true true false) in
  (parseTags throwing_imports task (raw_of garbled_reply)).1 !! "BirthDate"
    = Some (TRaw (JStr "yesterday")) /\
  failed_to_parse "BirthDate" (JStr "yesterday") (Error "unparseable date")
    ∈ (parseTags throwing_imports task (raw_of garbled_reply)).2.
Proof.
  cbv zeta.
  apply (failed_leaf_is_kept_with_a_warning throwing_imports
           (sample_task "a.jpg" (sample_options true true false))
           (raw_of garbled_reply) "BirthDate" "yesterday"
           (Error "unparseable date")).
  - not_in_list.
  - exact garbled_reply_keys.
  - vm_compute. right. left.
  - reflexivity.
  - split; [not_in_list | intros H; discriminate H].
  - reflexivity.
Defined.

Lemma gps_result_replaces_the_reply_witness :
  (parseTags imports (sample_task "a.jpg" (sample_options true true false))
     (raw_of photo_reply)).1 !! "GPSLatitude"
  = Some (TRaw (JNum "48.85")).
Proof.
  apply (gps_result_replaces_the_reply imports
           (sample_task "a.jpg" (sample_options true true false))
           (raw_of photo_reply) "GPSLatitude" (JNum "48.85")
           (TRaw (JNum "48.85"))).
  - not_in_list.
  - exact photo_reply_keys.
  - vm_compute. do 4 right. left.
  - reflexivity.
  - reflexivity.
  - reflexivity.
  - reflexivity.
  - reflexivity.
Defined.

Lemma degrouped_name_witness :
  tagName_ (grouped_task "a.jpg") "Make" = "Make" /\
  tagName_ (grouped_task "a.jpg") ("EXIF" +:+ ":" +:+ "Make") = "Make" /\
  forall rest : string,
    tagName_ (grouped_task "a.jpg")
      ("EXIF" +:+ ":" +:+ "Make" +:+ ":" +:+ rest) = "Make".
Proof.
  apply (DegroupFacts.degrouped_name (grouped_task "a.jpg") "EXIF" "Make");
    reflexivity.
Defined.

Lemma degrouped_lookup_takes_the_last_witness :
  get (rawDegrouped_of (grouped_task "a.jpg") (raw_of grouped_reply))
    (tagName_ (grouped_task "a.jpg") "IFD0:Make")
  = JStr "Canon Inc.".
Proof.
  apply (DegroupFacts.degrouped_lookup_takes_the_last (grouped_task "a.jpg")
           (raw_of grouped_reply) (JStr "Canon Inc.")
           [("SourceFile", JStr "/home/u/a.jpg"); ("EXIF:Make", JStr "Canon")]
           [] "IFD0:Make").
  - reflexivity.
  - discriminate.
  - reflexivity.
  - constructor.
Defined.

Lemma read_arguments_witness :
  let expected :=
    ["-charset"; "filename=utf8"; "-json"; "-G"; "-fast"; "-api"; "struct=1";
     "-use"; "MWG"; "-api"; "geolocation"; "-Orientation#"; "-GPSLatitude#";
     "-all"; "/home/u/a.jpg"] in
  Read.args (grouped_task "a.jpg") = expected /\
  degroup (grouped_task "a.jpg") = true.
Proof.
  cbv zeta.
  destruct (ReadForFacts.read_arguments ["-charset"; "filename=utf8"]
              (posix_resolve "/home/u") "a.jpg" sample_read_options
              (grouped_task "a.jpg") eq_refl ltac:(discriminate))
    as (_ & Hargs & Hdegroup).
  split; [exact Hargs | exact Hdegroup].
Defined.

Lemma failed_gps_lookup_is_a_warning_witness :
  let task := sample_task "a.jpg" failing_lookup_options in
  let warning :=
    "Failed to determine timezone from GPS coordinates: "
    +:+ error_toString (Error "no zone for these coordinates") in
  (extractTzOffset imports task (raw_of photo_reply)).1
    = Some (mkTzSrc "+02:00" "OffsetTimeOriginal") /\
  warning ∈ (parseTags imports task (raw_of photo_reply)).2.
Proof.
  cbv zeta.
  destruct (CascadeFacts.failed_gps_lookup_is_a_warning imports
              (sample_task "a.jpg" failing_lookup_options)
              (raw_of photo_reply)
              (mkGpsLocation false
                 [("GPSLatitude", TRaw (JNum "48.85"));
                  ("GPSLongitude", TRaw (JNum "2.35"))])
              (TRaw (JNum "48.85")) (TRaw (JNum "2.35"))
              (Error "no zone for these coordinates")
              eq_refl eq_refl eq_refl eq_refl eq_refl eq_refl
              (or_introl eq_refl)) as (_ & H2 & H3).
  split; [exact (f_equal fst H2) | exact H3].
Defined.

(** The key [__proto__] in a reply. A text under it is assigned to no
    property: neither the record nor the degrouped reply holds it. An object
    under it becomes the prototype of the degrouped reply, whose lookups
    then find the properties of that object: here the type of a video. *)
Example proto_key_defines_no_property :
  (parseTags imports (sample_task "a.jpg" (sample_options true true false))
     (raw_of proto_reply)).1 !! "__proto__" = None /\
  rawDegrouped_of (grouped_task "a.jpg") (raw_of proto_reply)
    = JObj [("SourceFile", JStr "/home/u/a.jpg")] /\
  rawDegrouped_of (grouped_task "a.mp4") (raw_of inherited_reply)
    = JInherit (JObj [("MIMEType", JStr "video/mp4")])
        [("SourceFile", JStr "/home/u/a.mp4")] /\
  isVideo (rawDegrouped_of (grouped_task "a.mp4") (raw_of inherited_reply))
    = true.
Proof. repeat split; vm_compute; reflexivity. Qed.

(** An absolute path that cannot be executed is looked for, by its base
    name, in the directories of [PATH]. *)
Example which_falls_back_to_PATH :
  Which.which sample_isAbsolute sample_basename sample_join ":"
    "/usr/local/bin:/usr/bin" false (fun _ => false) sample_access
    "/opt/exiftool"
  = Some "/usr/bin/exiftool".
Proof. reflexivity. Qed.

End RequestFacts.
